(** * AgentIQ: the batch enrichment pipeline

    A shallow embedding of the job-processing core of the repository:
    - [backend/agents/tools.py]            the tool executor,
    - [backend/agents/enrichment_agent.py] the tool-calling agent, its retry
                                           wrapper and its JSON extraction,
    - [backend/services/worker.py]         the job orchestrator,
    - [backend/core/job_recovery.py]       the staleness sweep,
    - [backend/api/main.py]                batch submission ([create_job]),
    - [backend/db/models.py]               the rows and the uniqueness
                                           constraint on results.

    Python [str] is [string]; [int] is [Z]; a [dict] with string keys is a
    [gmap string _]; the Postgres [float] column [progress_pct] is a rational.
    Code that can raise returns a [result]; the model provider, the network
    and the clock are explicit oracles. *)

From Stdlib Require Import ZArith QArith String Ascii List Bool Lia Sorted.
From stdpp Require Import base option list gmap strings pretty.
Import ListNotations.

Local Open Scope Z_scope.
Local Open Scope string_scope.

(** ** Python exceptions and results *)

Inductive exn : Type :=
| KeyError (key : string)
| AttributeError (msg : string)
| IntegrityError (msg : string)
| DataError (msg : string)
| OtherException (msg : string).

(** [str(e)]: a [KeyError] prints its key quoted. *)
Definition str_exn (e : exn) : string :=
  match e with
  | KeyError k => "'" +:+ k +:+ "'"
  | AttributeError m | IntegrityError m | DataError m | OtherException m => m
  end.

Inductive result (A : Type) : Type :=
| Ok (a : A)
| Raise (e : exn).
Arguments Ok {A} a.
Arguments Raise {A} e.

Definition bind {A B} (r : result A) (k : A -> result B) : result B :=
  match r with
  | Ok a => k a
  | Raise e => Raise e
  end.

Notation "'let*' x ':=' r 'in' k" := (bind r (fun x => k))
  (at level 10, x name, r at level 100, k at level 200).

(** [try: body  except Exception as e: handler e] *)
Definition try_except {A} (body : result A) (handler : exn -> result A) : result A :=
  match body with
  | Ok a => Ok a
  | Raise e => handler e
  end.

(** ** Model provider responses (the parts of a chat completion the agent reads) *)

Record ToolCall : Type := {
  tc_id : string;
  tc_name : string;        (* tc.function.name *)
  tc_arguments : string    (* tc.function.arguments, JSON text *)
}.

Record Usage : Type := {
  prompt_tokens : option Z;
  completion_tokens : option Z
}.

(** [response.choices[0]] flattened into the response. *)
Record ChatCompletion : Type := {
  usage : option Usage;
  finish_reason : string;
  content : option string;       (* msg.content *)
  tool_calls : list ToolCall     (* msg.tool_calls; None is the empty list *)
}.

(** What one [client.chat.completions.create] attempt does.  The except
    clauses of the wrapper are tried in this order, so [RaisesAPIError] stands
    for a provider error that is neither a timeout nor a rate limit. *)
Inductive call_outcome : Type :=
| Completed (r : ChatCompletion)
| RaisesAPITimeoutError
| RaisesRateLimitError
| RaisesAPIError
| RaisesOther.

(** ** [EnrichmentAgent._call_groq_with_retry] *)

(** [self.max_retries = 3], [self.base_delay = 2.0] (seconds; the products
    with powers of two below are exact, so they are kept as integers). *)
Definition max_retries : nat := 3.
Definition base_delay : Z := 2.

Record retry_run : Type := {
  response : option ChatCompletion;   (* the returned value *)
  attempts : nat;                     (* calls to the provider *)
  sleeps : list Z                     (* arguments of [time.sleep], in order *)
}.

Definition slept (w : Z) (r : retry_run) : retry_run :=
  {| response := response r; attempts := S (attempts r); sleeps := w :: sleeps r |}.

Definition finished (resp : option ChatCompletion) : retry_run :=
  {| response := resp; attempts := 1; sleeps := [] |}.

Definition exhausted : retry_run :=
  {| response := None; attempts := 0; sleeps := [] |}.

(** [for attempt in range(self.max_retries)], with [left] iterations to go. *)
Fixpoint attempts_from (create : nat -> call_outcome) (left attempt : nat) : retry_run :=
  match left with
  | O => exhausted
  | S left' =>
      match create attempt with
      | Completed r => finished (Some r)
      | RaisesAPITimeoutError | RaisesRateLimitError =>
          slept (base_delay * 2 ^ Z.of_nat attempt)
                (attempts_from create left' (S attempt))
      | RaisesAPIError =>
          if (attempt <? max_retries - 1)%nat
          then slept base_delay (attempts_from create left' (S attempt))
          else finished None
      | RaisesOther => finished None
      end
  end.

Definition _call_groq_with_retry (create : nat -> call_outcome) : retry_run :=
  attempts_from create max_retries 0.

(** ** Python text helpers *)

Definition ascii_in (lo hi : nat) (c : ascii) : bool :=
  ((lo <=? nat_of_ascii c) && (nat_of_ascii c <=? hi))%nat.

(** [str.isspace] on the ASCII range, which is also what [\s] matches:
    tab, newline, vertical tab, form feed, carriage return, the separators
    FS/GS/RS/US and the space. *)
Definition py_isspace (c : ascii) : bool :=
  ascii_in 9 13 c || ascii_in 28 32 c.

Fixpoint lstrip (s : string) : string :=
  match s with
  | EmptyString => EmptyString
  | String c s' => if py_isspace c then lstrip s' else s
  end.

(** [s.rstrip(chars)] for a set of characters given as a predicate. *)
Fixpoint rstrip_where (p : ascii -> bool) (s : string) : string :=
  match s with
  | EmptyString => EmptyString
  | String c s' =>
      match rstrip_where p s' with
      | EmptyString => if p c then EmptyString else String c EmptyString
      | r => String c r
      end
  end.

Definition rstrip (s : string) : string := rstrip_where py_isspace s.

Definition strip (s : string) : string := rstrip (lstrip s).

(** [s.startswith(p)] *)
Fixpoint startswith (p s : string) : bool :=
  match p, s with
  | EmptyString, _ => true
  | String a p', String b s' => Ascii.eqb a b && startswith p' s'
  | String _ _, EmptyString => false
  end.

Fixpoint drop_chars (n : nat) (s : string) : string :=
  match n, s with
  | O, _ => s
  | S n', String _ s' => drop_chars n' s'
  | S _, EmptyString => EmptyString
  end.

(** [s[:n]] for a non-negative [n]. *)
Fixpoint take_chars (n : nat) (s : string) : string :=
  match n, s with
  | S n', String c s' => String c (take_chars n' s')
  | _, _ => EmptyString
  end.

(** ** [json.loads]: which texts decode

    The decoder of the standard library, as a pushdown recogniser over the
    characters: [json.loads s] returns a value exactly when [s] is one JSON
    value between optional blanks (space, tab, newline, carriage return), in
    the dialect of the module: [NaN], [Infinity] and [-Infinity] are numbers,
    a string holds no raw control character, an escape is a backslash and
    one of the quote, the backslash, [/bfnrt], or [u] and four hexadecimal
    digits, and no comma trails.  The limits of the decoder on the depth of
    nesting and on the digits of an integer are left out. *)

Definition dquote : ascii := "034"%char.
Definition newline : ascii := "010"%char.

Definition json_ws (c : ascii) : bool :=
  match nat_of_ascii c with
  | 32%nat | 9%nat | 10%nat | 13%nat => true
  | _ => false
  end.

Definition is_digit (c : ascii) : bool := ascii_in 48 57 c.
Definition is_digit19 (c : ascii) : bool := ascii_in 49 57 c.
Definition is_hex (c : ascii) : bool :=
  is_digit c || ascii_in 65 70 c || ascii_in 97 102 c.
Definition is_escape (c : ascii) : bool :=
  existsb (Ascii.eqb c) [dquote; "\"; "/"; "b"; "f"; "n"; "r"; "t"]%char.

Inductive frame : Type := InObject | InArray.

Inductive mode : Type :=
| MValue                 (* a value must start *)
| MArrayStart            (* after an opening bracket: a value or the closing bracket *)
| MObjectStart           (* after an opening brace: a key or the closing brace *)
| MKey                   (* after a comma in an object: a key *)
| MColon                 (* after a key *)
| MAfter                 (* after a complete value *)
| MStr (key : bool)      (* inside a string; [key] tells a member name from a value *)
| MEsc (key : bool)      (* after a backslash *)
| MHex (key : bool) (n : nat)   (* in a [\u] escape, [S n] digits to come *)
| MLit (rest : string)   (* inside a literal, [rest] still to be read *)
| MMinus | MZero | MInt | MDot | MFrac | MExp | MExpSign | MExpDigits.

Definition jstate : Type := (mode * list frame)%type.

Definition start_value (stack : list frame) (c : ascii) : option jstate :=
  if Ascii.eqb c "{" then Some (MObjectStart, InObject :: stack)
  else if Ascii.eqb c "[" then Some (MArrayStart, InArray :: stack)
  else if Ascii.eqb c dquote then Some (MStr false, stack)
  else if Ascii.eqb c "-" then Some (MMinus, stack)
  else if Ascii.eqb c "0" then Some (MZero, stack)
  else if is_digit19 c then Some (MInt, stack)
  else if Ascii.eqb c "n" then Some (MLit "ull", stack)
  else if Ascii.eqb c "t" then Some (MLit "rue", stack)
  else if Ascii.eqb c "f" then Some (MLit "alse", stack)
  else if Ascii.eqb c "N" then Some (MLit "aN", stack)
  else if Ascii.eqb c "I" then Some (MLit "nfinity", stack)
  else None.

Definition after_value (stack : list frame) (c : ascii) : option jstate :=
  if json_ws c then Some (MAfter, stack)
  else if Ascii.eqb c "," then
    match stack with
    | InObject :: _ => Some (MKey, stack)
    | InArray :: _ => Some (MValue, stack)
    | [] => None
    end
  else if Ascii.eqb c "}" then
    match stack with
    | InObject :: stack' => Some (MAfter, stack')
    | _ => None
    end
  else if Ascii.eqb c "]" then
    match stack with
    | InArray :: stack' => Some (MAfter, stack')
    | _ => None
    end
  else None.

Definition is_exp_mark (c : ascii) : bool := Ascii.eqb c "e" || Ascii.eqb c "E".

Definition jstep (st : jstate) (c : ascii) : option jstate :=
  let '(m, stack) := st in
  match m with
  | MValue => if json_ws c then Some st else start_value stack c
  | MArrayStart =>
      if json_ws c then Some st
      else if Ascii.eqb c "]" then
        match stack with
        | InArray :: stack' => Some (MAfter, stack')
        | _ => None
        end
      else start_value stack c
  | MObjectStart =>
      if json_ws c then Some st
      else if Ascii.eqb c dquote then Some (MStr true, stack)
      else if Ascii.eqb c "}" then
        match stack with
        | InObject :: stack' => Some (MAfter, stack')
        | _ => None
        end
      else None
  | MKey =>
      if json_ws c then Some st
      else if Ascii.eqb c dquote then Some (MStr true, stack)
      else None
  | MColon =>
      if json_ws c then Some st
      else if Ascii.eqb c ":" then Some (MValue, stack)
      else None
  | MAfter => after_value stack c
  | MStr k =>
      if Ascii.eqb c dquote then Some (if k then MColon else MAfter, stack)
      else if Ascii.eqb c "\" then Some (MEsc k, stack)
      else if (nat_of_ascii c <? 32)%nat then None
      else Some st
  | MEsc k =>
      if is_escape c then Some (MStr k, stack)
      else if Ascii.eqb c "u" then Some (MHex k 3, stack)
      else None
  | MHex k n =>
      if is_hex c then
        match n with
        | O => Some (MStr k, stack)
        | S n' => Some (MHex k n', stack)
        end
      else None
  | MLit rest =>
      match rest with
      | String c' rest' =>
          if Ascii.eqb c c' then
            match rest' with
            | EmptyString => Some (MAfter, stack)
            | _ => Some (MLit rest', stack)
            end
          else None
      | EmptyString => None
      end
  | MMinus =>
      if Ascii.eqb c "0" then Some (MZero, stack)
      else if is_digit19 c then Some (MInt, stack)
      else if Ascii.eqb c "I" then Some (MLit "nfinity", stack)
      else None
  | MZero =>
      if Ascii.eqb c "." then Some (MDot, stack)
      else if is_exp_mark c then Some (MExp, stack)
      else after_value stack c
  | MInt =>
      if is_digit c then Some st
      else if Ascii.eqb c "." then Some (MDot, stack)
      else if is_exp_mark c then Some (MExp, stack)
      else after_value stack c
  | MDot => if is_digit c then Some (MFrac, stack) else None
  | MFrac =>
      if is_digit c then Some st
      else if is_exp_mark c then Some (MExp, stack)
      else after_value stack c
  | MExp =>
      if Ascii.eqb c "+" || Ascii.eqb c "-" then Some (MExpSign, stack)
      else if is_digit c then Some (MExpDigits, stack)
      else None
  | MExpSign => if is_digit c then Some (MExpDigits, stack) else None
  | MExpDigits => if is_digit c then Some st else after_value stack c
  end.

Fixpoint jrun (st : jstate) (s : string) : option jstate :=
  match s with
  | EmptyString => Some st
  | String c s' =>
      match jstep st c with
      | Some st' => jrun st' s'
      | None => None
      end
  end.

(** The text is over: the one value is complete and nothing is open. *)
Definition jaccepting (st : jstate) : bool :=
  match st with
  | (MAfter, []) | (MZero, []) | (MInt, []) | (MFrac, []) | (MExpDigits, []) => true
  | _ => false
  end.

(** [json.loads s] does not raise [JSONDecodeError]. *)
Definition json_valid (s : string) : bool :=
  match jrun (MValue, []) s with
  | Some st => jaccepting st
  | None => false
  end.

Fixpoint json_lstrip (s : string) : string :=
  match s with
  | EmptyString => EmptyString
  | String c s' => if json_ws c then json_lstrip s' else s
  end.

(** [isinstance(json.loads(s), dict)], for a text that decodes. *)
Definition json_is_object (s : string) : bool :=
  json_valid s && startswith "{" (json_lstrip s).

(** ** [EnrichmentAgent._extract_json]

    The three [re.search] calls, each read as the leftmost match that the
    backtracking matcher finds first ([re.DOTALL]: the dot matches newlines). *)

Definition fence : string := "```".

(** [(\{.*?\})\s*```] lazily, on a text that begins with the brace: the
    shortest prefix that ends in a closing brace followed by blanks and a
    fence. *)
Fixpoint lazy_object (s : string) : option string :=
  match s with
  | EmptyString => None
  | String c s' =>
      if Ascii.eqb c "}" && startswith fence (lstrip s')
      then Some (String c EmptyString)
      else option_map (String c) (lazy_object s')
  end.

(** One attempt of [```(?:json)?\s*(\{.*?\})\s*```] at the head of [s];
    the result is [group(1)]. *)
Definition fenced_here (s : string) : option string :=
  if startswith fence s then
    let r := drop_chars 3 s in
    let r := if startswith "json" r then drop_chars 4 r else r in
    let r := lstrip r in
    if startswith "{" r then lazy_object r else None
  else None.

Fixpoint search_fenced (s : string) : option string :=
  match fenced_here s with
  | Some g => Some g
  | None =>
      match s with
      | EmptyString => None
      | String _ s' => search_fenced s'
      end
  end.

(** [\{.*]: from the first opening brace to the end. *)
Fixpoint search_partial (s : string) : option string :=
  match s with
  | EmptyString => None
  | String c s' => if Ascii.eqb c "{" then Some s else search_partial s'
  end.

(** The prefix of [s] up to its last closing brace. *)
Fixpoint upto_last_close (s : string) : option string :=
  match s with
  | EmptyString => None
  | String c s' =>
      match upto_last_close s' with
      | Some r => Some (String c r)
      | None => if Ascii.eqb c "}" then Some (String c EmptyString) else None
      end
  end.

(** [\{.*\}] greedily: from the first opening brace to the last closing
    brace after it. *)
Definition search_braces (s : string) : option string :=
  match search_partial s with
  | Some u => upto_last_close u
  | None => None
  end.

Definition is_comma (c : ascii) : bool := Ascii.eqb c ",".

(** [partial.group(0).rstrip().rstrip(",") + "\n}"] *)
Definition repair (u : string) : string :=
  rstrip_where is_comma (rstrip u) +:+ String newline "}".

(** One [try: json.loads(c); return c / except JSONDecodeError: pass] block. *)
Definition parsed (c : option string) : option string :=
  match c with
  | Some g => if json_valid g then Some g else None
  | None => None
  end.

(** A block that returned, or else the code after it. *)
Definition or_else (a b : option string) : option string :=
  match a with
  | Some r => Some r
  | None => b
  end.

Definition _extract_json (text : string) : option string :=
  match text with
  | EmptyString => None
  | _ =>
      let text := strip text in
      or_else (if startswith "{" text then parsed (Some text) else None)
     (or_else (parsed (search_fenced text))
     (or_else (parsed (search_braces text))
              (parsed (option_map repair (search_partial text)))))
  end.

(** ** Python values that cross the tool boundary *)

(** A decoded JSON member: a [str], an [int], or anything else, kept with
    its [str()] rendering. *)
Inductive pyval : Type :=
| VStr (s : string)
| VInt (n : Z)
| VOther (shown : string).

Definition py_str (v : pyval) : string :=
  match v with
  | VStr s => s
  | VInt n => pretty n
  | VOther s => s
  end.

(** ** [agents/tools.py] *)

(** The guarded body of each lookup (the outbound request, the decoding of
    the reply and the digest built from it) is an oracle: it returns the text
    or raises. *)
Record network : Type := {
  search_web_body : pyval -> pyval -> result string;          (* query, num_results *)
  scrape_website_body : string -> pyval -> result string;     (* url, max_chars *)
  find_company_website_body : pyval -> result string          (* company_name *)
}.

Definition search_web (net : network) (query num_results : pyval) : result string :=
  try_except (search_web_body net query num_results)
             (fun e => Ok ("Search error: " +:+ str_exn e)).

(** [url.startswith] sits outside the [try]: a [url] that is not a [str]
    raises. *)
Definition scrape_website (net : network) (url max_chars : pyval) : result string :=
  match url with
  | VStr u =>
      let u := if startswith "http://" u || startswith "https://" u
               then u else "https://" +:+ u in
      try_except (scrape_website_body net u max_chars)
                 (fun e => Ok ("Scrape error for " +:+ u +:+ ": " +:+ str_exn e))
  | _ => Raise (AttributeError "object has no attribute 'startswith'")
  end.

Definition find_company_website (net : network) (company_name : pyval) : result string :=
  try_except (find_company_website_body net company_name)
             (fun e => Ok ("Error: " +:+ str_exn e)).

Definition get_linkedin_info (net : network) (company_name : pyval) : result string :=
  search_web net (VStr ("site:linkedin.com/company " +:+ py_str company_name)) (VInt 3).

(** [i[key]] and [i.get(key, default)] *)
Definition getitem (i : gmap string pyval) (key : string) : result pyval :=
  match i !! key with
  | Some v => Ok v
  | None => Raise (KeyError key)
  end.

Definition get_default (i : gmap string pyval) (key : string) (d : pyval) : pyval :=
  default d (i !! key).

Abbreviation handler := (gmap string pyval -> result string) (only parsing).

Definition tool_map (net : network) : gmap string handler :=
  <["search_web" :=
      fun i => let* q := getitem i "query" in
               search_web net q (get_default i "num_results" (VInt 5))]>
  (<["scrape_website" :=
      fun i => let* u := getitem i "url" in
               scrape_website net u (get_default i "max_chars" (VInt 6000))]>
  (<["find_company_website" :=
      fun i => let* c := getitem i "company_name" in find_company_website net c]>
  (<["get_linkedin_info" :=
      fun i => let* c := getitem i "company_name" in get_linkedin_info net c]> ∅))).

Definition execute_tool (net : network) (tool_name : string)
    (tool_input : gmap string pyval) : result string :=
  match tool_map net !! tool_name with
  | None => Ok ("Unknown tool: " +:+ tool_name)
  | Some h =>
      try_except (h tool_input)
                 (fun e => Ok ("Tool error (" +:+ tool_name +:+ "): " +:+ str_exn e))
  end.

(** ** Configuration ([core/config.py]) and the conversation *)

Record Settings : Type := {
  GROQ_MODEL : string;
  GROQ_MAX_TOOL_ITERATIONS : Z;
  MAX_CONCURRENT_JOBS_PER_ORG : Z;
  WORKER_COMMIT_BATCH_SIZE : Z;
  SYSTEM_PROMPT : string
}.

Inductive message : Type :=
| SystemMessage (text : string)
| UserMessage (text : string)
| AssistantMessage (text : string) (calls : list ToolCall)
| ToolMessage (tool_call_id : string) (text : string).

(** Everything outside the process: the provider's reply to the conversation
    [messages] at a given item, iteration and attempt; the members of a
    decoded JSON object; [int(value)] on a decoded member ([None] for a
    [ValueError] or [TypeError]); the network. *)
Record world : Type := {
  chat_create : nat -> Z -> list message -> nat -> call_outcome;
  decoded_object : string -> gmap string pyval;
  py_int : pyval -> option Z;
  net : network
}.

(** ** [EnrichmentAgent.enrich_company]: the tool-calling loop *)

Record agent_state : Type := {
  iteration : Z;
  total_tokens : Z;
  tool_calls_count : Z;
  final_text : string;
  messages : list message
}.

(** [x or 0] and [x or ""] *)
Definition or_zero (x : option Z) : Z := default 0 x.
Definition or_empty (x : option string) : string := default "" x.

(** [json.loads(tc.function.arguments)], [{}] on a decode error; the next
    statement calls [args.keys()], which a value that is not a [dict] does
    not have. *)
Definition decode_arguments (w : world) (arguments : string)
    : result (gmap string pyval) :=
  if json_valid arguments then
    if json_is_object arguments then Ok (decoded_object w arguments)
    else Raise (AttributeError "object has no attribute 'keys'")
  else Ok ∅.

(** [for tc in msg.tool_calls: ...] *)
Fixpoint run_tool_calls (w : world) (tcs : list ToolCall) (st : agent_state)
    : result agent_state :=
  match tcs with
  | [] => Ok st
  | tc :: tcs' =>
      let count := tool_calls_count st + 1 in
      let* args := decode_arguments w (tc_arguments tc) in
      let* res := execute_tool (net w) (tc_name tc) args in
      run_tool_calls w tcs'
        {| iteration := iteration st; total_tokens := total_tokens st;
           tool_calls_count := count; final_text := final_text st;
           messages := messages st ++ [ToolMessage (tc_id tc) res] |}
  end.

Inductive flow : Type := Continue | Break.

(** One pass through the body of [while iteration < self.max_iterations];
    a response is taken to have its first choice. *)
Definition loop_body (w : world) (item : nat) (st : agent_state)
    : result (agent_state * flow) :=
  let iteration := iteration st + 1 in
  match response (_call_groq_with_retry (chat_create w item iteration (messages st))) with
  | None =>
      Ok ({| iteration := iteration; total_tokens := total_tokens st;
             tool_calls_count := tool_calls_count st; final_text := final_text st;
             messages := messages st |}, Break)
  | Some resp =>
      let total_tokens :=
        match usage resp with
        | Some u => total_tokens st + (or_zero (prompt_tokens u) + or_zero (completion_tokens u))
        | None => total_tokens st
        end in
      if String.eqb (finish_reason resp) "stop" then
        Ok ({| iteration := iteration; total_tokens := total_tokens;
               tool_calls_count := tool_calls_count st;
               final_text := or_empty (content resp);
               messages := messages st |}, Break)
      else if String.eqb (finish_reason resp) "tool_calls"
              && negb (Nat.eqb (length (tool_calls resp)) 0) then
        let* st' :=
          run_tool_calls w (tool_calls resp)
            {| iteration := iteration; total_tokens := total_tokens;
               tool_calls_count := tool_calls_count st; final_text := final_text st;
               messages := messages st
                 ++ [AssistantMessage (or_empty (content resp)) (tool_calls resp)] |} in
        Ok (st', Continue)
      else
        Ok ({| iteration := iteration; total_tokens := total_tokens;
               tool_calls_count := tool_calls_count st;
               final_text := match content resp with
                             | Some (String c t) => String c t
                             | _ => final_text st
                             end;
               messages := messages st |}, Break)
  end.

(** The [while] loop, with [fuel] passes allowed. *)
Fixpoint agent_loop (w : world) (max_iterations : Z) (item : nat) (fuel : nat)
    (st : agent_state) : result agent_state :=
  match fuel with
  | O => Ok st
  | S fuel' =>
      if (iteration st <? max_iterations)%Z then
        match loop_body w item st with
        | Raise e => Raise e
        | Ok (st', Break) => Ok st'
        | Ok (st', Continue) => agent_loop w max_iterations item fuel' st'
        end
      else Ok st
  end.

Definition user_content (company_name : string) (website_hint : option string)
    (extra_context : list (string * string)) : string :=
  let base := "Research this company thoroughly: " +:+ company_name in
  let base :=
    match website_hint with
    | Some (String c t) =>
        base +:+ String newline ("Website: " +:+ String c t +:+ " — scrape it directly.")
    | _ => base
    end in
  fold_left (fun acc kv => acc +:+ String newline (fst kv +:+ ": " +:+ snd kv))
            extra_context base.

Definition initial_state (cfg : Settings) (company_name : string)
    (website_hint : option string) (extra_context : list (string * string))
    : agent_state :=
  {| iteration := 0; total_tokens := 0; tool_calls_count := 0; final_text := "";
     messages := [SystemMessage (SYSTEM_PROMPT cfg);
                  UserMessage (user_content company_name website_hint extra_context)] |}.

(** The loop of [enrich_company] from its first line to the line before
    [_save_result]; [self.max_iterations] passes always suffice. *)
Definition tool_loop (cfg : Settings) (w : world) (item : nat) (company_name : string)
    (website_hint : option string) (extra_context : list (string * string))
    : result agent_state :=
  agent_loop w (GROQ_MAX_TOOL_ITERATIONS cfg) item
             (Z.to_nat (GROQ_MAX_TOOL_ITERATIONS cfg))
             (initial_state cfg company_name website_hint extra_context).

(** ** The rows ([db/models.py]) *)

Definition UUID : Type := N.

Record InputData : Type := {
  companies : list string;
  websites : gmap string string
}.

Record Job : Type := {
  job_id : UUID;
  organization_id : UUID;
  status : string;
  input_data : InputData;
  total_items : Z;
  completed_items : Z;
  failed_items : Z;
  progress_pct : Q;
  celery_task_id : option string;
  error_message : option string;
  credits_used : Z;
  created_at : Z;
  started_at : option Z;
  completed_at : option Z
}.

(** The columns that the agent fills from the decoded object are kept
    together in [er_data]; three of them are spelled out. *)
Record EnrichmentResult : Type := {
  er_job_id : option UUID;
  er_organization_id : UUID;
  input_name : string;
  er_company_name : string;
  er_founded_year : option Z;
  er_confidence_score : option Z;
  er_data : gmap string pyval;
  er_status : string;
  er_error_message : option string;
  er_model_used : option string;
  er_tokens_used : Z;
  er_tool_calls_made : Z;
  er_enriched_at : Z
}.

Record UsageLog : Type := {
  ul_organization_id : UUID;
  ul_job_id : option UUID;
  ul_action : string;
  ul_credits_consumed : Z;
  ul_tokens_used : Z;
  ul_model_used : string;
  ul_extra_data : gmap string pyval
}.

Record DB : Type := {
  jobs : list Job;
  enrichment_results : list EnrichmentResult;
  usage_logs : list UsageLog
}.

(** [UniqueConstraint("job_id", "input_name", name="uq_results_job_company")]:
    two rows conflict when they agree on both columns; a NULL [job_id]
    conflicts with nothing. *)
Definition uq_conflict (r r' : EnrichmentResult) : bool :=
  match er_job_id r, er_job_id r' with
  | Some j, Some j' => N.eqb j j' && String.eqb (input_name r) (input_name r')
  | _, _ => false
  end.

(** INSERT into [enrichment_results]. *)
Definition insert_result (db : DB) (r : EnrichmentResult) : result DB :=
  if existsb (uq_conflict r) (enrichment_results db)
  then Raise (IntegrityError "duplicate key value violates unique constraint uq_results_job_company")
  else Ok {| jobs := jobs db;
             enrichment_results := enrichment_results db ++ [r];
             usage_logs := usage_logs db |}.

(** INSERT into [usage_logs]. *)
Definition insert_usage (db : DB) (u : UsageLog) : DB :=
  {| jobs := jobs db;
     enrichment_results := enrichment_results db;
     usage_logs := usage_logs db ++ [u] |}.

Definition with_jobs (db : DB) (js : list Job) : DB :=
  {| jobs := js;
     enrichment_results := enrichment_results db;
     usage_logs := usage_logs db |}.

(** [UPDATE jobs SET ... WHERE ...], for a SET clause that cannot fail. *)
Definition sql_update (where_ : Job -> bool) (set_ : Job -> Job) (rows : list Job)
    : list Job :=
  map (fun j => if where_ j then set_ j else j) rows.

(** The same for a SET clause that can raise; the statement then changes
    nothing. *)
Fixpoint sql_update_checked (where_ : Job -> bool) (set_ : Job -> result Job)
    (rows : list Job) : result (list Job) :=
  match rows with
  | [] => Ok []
  | j :: rows' =>
      let* j' := (if where_ j then set_ j else Ok j) in
      let* rest := sql_update_checked where_ set_ rows' in
      Ok (j' :: rest)
  end.

Definition has_id (id : UUID) (j : Job) : bool := N.eqb (job_id j) id.

(** [db.get(Job, id)] *)
Definition get_job (db : DB) (id : UUID) : option Job :=
  List.find (has_id id) (jobs db).

Definition status_in (names : list string) (j : Job) : bool :=
  existsb (String.eqb (status j)) names.

(** ** [EnrichmentAgent._save_result] and the end of [enrich_company] *)

Definition MODEL_BEST : string := "llama-3.3-70b-versatile".

(** [self._safe_int(data.get(key))] *)
Definition _safe_int (w : world) (value : option pyval) : option Z :=
  match value with
  | None => None
  | Some v => py_int w v
  end.

(** [data.get("name") or company_name]: an empty or missing name falls back. *)
Definition name_or (data : gmap string pyval) (company_name : string) : string :=
  match data !! "name" with
  | Some (VStr (String c t)) => String c t
  | Some (VInt n) => if Z.eqb n 0 then company_name else pretty n
  | Some (VOther (String c t)) => String c t
  | _ => company_name
  end.

(** The [try] block of [_save_result]: the decoded object, the status and
    the error message.  What [_extract_json] returns begins with an opening
    brace, so the test for a [dict] never fails. *)
Definition parse_final_text (w : world) (raw_text : string)
    : gmap string pyval * string * option string :=
  match _extract_json raw_text with
  | Some (String c t) =>
      let json_str := String c t in
      if json_is_object json_str
      then (decoded_object w json_str, "completed", None)
      else (∅, "failed", Some "Not a dict")
  | _ => (∅, "failed", Some ("No JSON found. Preview: " +:+ take_chars 200 raw_text))
  end.

Definition result_row (w : world) (now : Z) (job : option UUID) (org : UUID)
    (company_name : string) (parse : gmap string pyval * string * option string)
    (tokens_used tool_calls_made : Z) : EnrichmentResult :=
  let data := fst (fst parse) in
  {| er_job_id := job; er_organization_id := org; input_name := company_name;
     er_company_name := name_or data company_name;
     er_founded_year := _safe_int w (data !! "founded_year");
     er_confidence_score := _safe_int w (data !! "confidence_score");
     er_data := data;
     er_status := snd (fst parse); er_error_message := snd parse;
     er_model_used := Some MODEL_BEST; er_tokens_used := tokens_used;
     er_tool_calls_made := tool_calls_made; er_enriched_at := now |}.

Definition _save_result (w : world) (now : Z) (db : DB) (job : option UUID)
    (org : UUID) (company_name raw_text : string) (tokens_used tool_calls_made : Z)
    : result (DB * EnrichmentResult) :=
  let row := result_row w now job org company_name (parse_final_text w raw_text)
                        tokens_used tool_calls_made in
  let* db' := insert_result db row in
  Ok (db', row).

Definition opt_int (o : option Z) : pyval :=
  match o with
  | Some n => VInt n
  | None => VOther "None"
  end.

(** The whole of [enrich_company]: the database after it, and what it
    returned or raised.  The session is committed on the last line, so a call
    that raises leaves the database as it found it.  The wall-clock latency
    ([processing_time_ms]) is left out of both rows. *)
Definition enrich_company (cfg : Settings) (w : world) (now : Z) (item : nat)
    (db : DB) (job : option UUID) (org : UUID) (company_name : string)
    (website_hint : option string) : DB * result EnrichmentResult :=
  match tool_loop cfg w item company_name website_hint [] with
  | Raise e => (db, Raise e)
  | Ok st =>
      match _save_result w now db job org company_name (final_text st)
                         (total_tokens st) (tool_calls_count st) with
      | Raise e => (db, Raise e)
      | Ok (db', row) =>
          let usage_log :=
            {| ul_organization_id := org; ul_job_id := job;
               ul_action := "enrichment"; ul_credits_consumed := 1;
               ul_tokens_used := total_tokens st; ul_model_used := MODEL_BEST;
               ul_extra_data :=
                 <["company" := VStr company_name]>
                 (<["tool_calls" := VInt (tool_calls_count st)]>
                 (<["iterations" := VInt (iteration st)]>
                 (<["confidence" := opt_int (er_confidence_score row)]>
                 (<["status" := VStr (er_status row)]> ∅)))) |} in
          (insert_usage db' usage_log, Ok row)
      end
  end.

(** ** [services/worker.py]: the job orchestrator *)

Definition set_running (now : Z) (task_id : string) (j : Job) : Job :=
  {| job_id := job_id j; organization_id := organization_id j;
     status := "running"; input_data := input_data j;
     total_items := total_items j; completed_items := completed_items j;
     failed_items := failed_items j; progress_pct := progress_pct j;
     celery_task_id := Some task_id; error_message := error_message j;
     credits_used := credits_used j; created_at := created_at j;
     started_at := Some now; completed_at := completed_at j |}.

(** [x::float / total_items * 100]: Postgres raises on a zero divisor. *)
Definition pct (x total : Z) : result Q :=
  if Z.eqb total 0 then Raise (DataError "division by zero")
  else Ok (inject_Z x / inject_Z total * 100)%Q.

(** SET completed_items = completed_items + 1,
        progress_pct = (completed_items + 1)::float / total_items * 100,
        credits_used = credits_used + 1 *)
Definition set_item_completed (j : Job) : result Job :=
  let* p := pct (completed_items j + 1) (total_items j) in
  Ok {| job_id := job_id j; organization_id := organization_id j;
        status := status j; input_data := input_data j;
        total_items := total_items j; completed_items := completed_items j + 1;
        failed_items := failed_items j; progress_pct := p;
        celery_task_id := celery_task_id j; error_message := error_message j;
        credits_used := credits_used j + 1; created_at := created_at j;
        started_at := started_at j; completed_at := completed_at j |}.

(** SET failed_items = failed_items + 1,
        progress_pct = (completed_items + failed_items + 1)::float / total_items * 100 *)
Definition set_item_failed (j : Job) : result Job :=
  let* p := pct (completed_items j + failed_items j + 1) (total_items j) in
  Ok {| job_id := job_id j; organization_id := organization_id j;
        status := status j; input_data := input_data j;
        total_items := total_items j; completed_items := completed_items j;
        failed_items := failed_items j + 1; progress_pct := p;
        celery_task_id := celery_task_id j; error_message := error_message j;
        credits_used := credits_used j; created_at := created_at j;
        started_at := started_at j; completed_at := completed_at j |}.

(** SET status = 'completed', completed_at = NOW(), progress_pct = 100.0 *)
Definition set_completed (now : Z) (j : Job) : Job :=
  {| job_id := job_id j; organization_id := organization_id j;
     status := "completed"; input_data := input_data j;
     total_items := total_items j; completed_items := completed_items j;
     failed_items := failed_items j; progress_pct := 100;
     celery_task_id := celery_task_id j; error_message := error_message j;
     credits_used := credits_used j; created_at := created_at j;
     started_at := started_at j; completed_at := Some now |}.

(** SET status = s, error_message = msg, completed_at = NOW() *)
Definition set_ended (s msg : string) (now : Z) (j : Job) : Job :=
  {| job_id := job_id j; organization_id := organization_id j;
     status := s; input_data := input_data j;
     total_items := total_items j; completed_items := completed_items j;
     failed_items := failed_items j; progress_pct := progress_pct j;
     celery_task_id := celery_task_id j; error_message := Some msg;
     credits_used := credits_used j; created_at := created_at j;
     started_at := started_at j; completed_at := Some now |}.

(** [a or b] on two optional texts. *)
Definition py_or (a b : option string) : option string :=
  match a with
  | Some (String c t) => a
  | _ => b
  end.

(** The usage row that the orchestrator adds for an item whose agent call
    returned. *)
Definition batch_usage (cfg : Settings) (id org : UUID) (company : string) : UsageLog :=
  {| ul_organization_id := org; ul_job_id := Some id;
     ul_action := "enrichment"; ul_credits_consumed := 1;
     ul_tokens_used := 0; ul_model_used := GROQ_MODEL cfg;
     ul_extra_data := <["company" := VStr company]>
                      (<["source" := VStr "batch_job"]> ∅) |}.

(** The result row that the orchestrator adds for an item whose agent call
    raised [e]. *)
Definition failed_row (now : Z) (id org : UUID) (company : string) (e : exn)
    : EnrichmentResult :=
  {| er_job_id := Some id; er_organization_id := org; input_name := company;
     er_company_name := ""; er_founded_year := None;
     er_confidence_score := None; er_data := ∅;
     er_status := "failed";
     er_error_message := Some (take_chars 500 (str_exn e));
     er_model_used := None; er_tokens_used := 0; er_tool_calls_made := 0;
     er_enriched_at := now |}.

(** The body of [for i, company in enumerate(companies)].  The result is the
    committed database and the exception that left the step, if one did: a
    statement that raises inside the [except] block, or at the commit of the
    session, rolls the step's own statements back and ends the run.  The
    session of the step commits when its [async with] block is left, so the
    batch-commit test inside the block does not change what is stored. *)
Definition process_item (cfg : Settings) (w : world) (now : Z) (db : DB)
    (id org : UUID) (sites : gmap string string) (i : nat) (company : string)
    : DB * option exn :=
  let website_hint := py_or (sites !! company) (sites !! pretty i) in
  match enrich_company cfg w now i db (Some id) org company website_hint with
  | (db1, Ok _) =>
      let db2 := insert_usage db1 (batch_usage cfg id org company) in
      match sql_update_checked (has_id id) set_item_completed (jobs db2) with
      | Ok js => (with_jobs db2 js, None)
      | Raise e => (db1, Some e)
      end
  | (db1, Raise e) =>
      match insert_result db1 (failed_row now id org company e) with
      | Raise e' => (db1, Some e')
      | Ok db2 =>
          match sql_update_checked (has_id id) set_item_failed (jobs db2) with
          | Ok js => (with_jobs db2 js, None)
          | Raise e' => (db1, Some e')
          end
      end
  end.

(** The loop over [enumerate(companies)], from index [i]. *)
Fixpoint process_items (cfg : Settings) (w : world) (now : Z) (db : DB)
    (id org : UUID) (sites : gmap string string) (i : nat) (cs : list string)
    : DB * option exn :=
  match cs with
  | [] => (db, None)
  | company :: cs' =>
      match process_item cfg w now db id org sites i company with
      | (db', None) => process_items cfg w now db' id org sites (S i) cs'
      | (db', Some e) => (db', Some e)
      end
  end.

(** Phase 3 of [_run_job]: UPDATE jobs SET ... WHERE id = :job_id *)
Definition mark_completed (now : Z) (db : DB) (id : UUID) : DB :=
  with_jobs db (sql_update (has_id id) (set_completed now) (jobs db)).

(** Phase 1 of [_run_job], for a job that was found. *)
Definition mark_running (now : Z) (task_id : string) (db : DB) (id : UUID) : DB :=
  with_jobs db (sql_update (has_id id) (set_running now task_id) (jobs db)).

Definition _run_job (cfg : Settings) (w : world) (now : Z) (task_id : string)
    (db : DB) (id org : UUID) : DB * option exn :=
  match get_job db id with
  | None => (db, None)
  | Some job =>
      let db1 := mark_running now task_id db id in
      match process_items cfg w now db1 id org (websites (input_data job)) 0
                          (companies (input_data job)) with
      | (db2, Some e) => (db2, Some e)
      | (db2, None) => (mark_completed now db2 id, None)
      end
  end.

(** ... WHERE id = :job_id AND status IN ('queued', 'running') *)
Definition _mark_job_failed (now : Z) (db : DB) (id : UUID) (error : string) : DB :=
  with_jobs db
    (sql_update (fun j => has_id id j && status_in ["queued"; "running"] j)
                (set_ended "failed" (take_chars 1000 error) now) (jobs db)).

(** ... WHERE id = :job_id AND status = 'running' *)
Definition _mark_job_partial (now : Z) (db : DB) (id : UUID) (msg : string) : DB :=
  with_jobs db
    (sql_update (fun j => has_id id j && String.eqb (status j) "running")
                (set_ended "partial" msg now) (jobs db)).

(** ** [core/job_recovery.py]: the staleness sweep *)

Definition STUCK_THRESHOLD_HOURS : Z := 2.

(** started_at < :cutoff OR (started_at IS NULL AND created_at < :cutoff) *)
Definition is_stale (cutoff : Z) (j : Job) : bool :=
  match started_at j with
  | Some t => Z.ltb t cutoff
  | None => Z.ltb (created_at j) cutoff
  end.

Definition stuck_where (cutoff : Z) (j : Job) : bool :=
  status_in ["running"; "queued"] j && is_stale cutoff j.

(** The database after the sweep and the number of jobs it reset; times are
    in seconds. *)
Definition stuck_job_cleanup (now : Z) (db : DB) : DB * nat :=
  let cutoff := now - STUCK_THRESHOLD_HOURS * 3600 in
  (with_jobs db
     (sql_update (stuck_where cutoff)
        (set_ended "failed"
           "Auto-reset: job exceeded maximum runtime without completing" now)
        (jobs db)),
   length (List.filter (stuck_where cutoff) (jobs db))).

(** ** [api/main.py]: submission and cancellation *)

Inductive http (A : Type) : Type :=
| Returned (a : A)
| HTTPException (code : Z) (detail : string).
Arguments Returned {A} a.
Arguments HTTPException {A} code detail.

Record CreateJobRequest : Type := {
  req_companies : list string;
  req_websites : gmap string string
}.

(** [list(dict.fromkeys(l))]: the keys of the dictionary in insertion order;
    setting a key that is there keeps its place. *)
Definition dict_setdefault (keys : list string) (k : string) : list string :=
  if existsb (String.eqb k) keys then keys else keys ++ [k].

Definition dict_fromkeys (l : list string) : list string :=
  fold_left dict_setdefault l [].

Definition nonempty (s : string) : bool :=
  match s with
  | EmptyString => false
  | _ => true
  end.

(** [list(dict.fromkeys([c.strip() for c in req.companies if c.strip()]))] *)
Definition normalize_companies (raw : list string) : list string :=
  dict_fromkeys (List.filter nonempty (map strip raw)).

Definition count_active (db : DB) (org : UUID) : Z :=
  Z.of_nat (length (List.filter
    (fun j => N.eqb (organization_id j) org && status_in ["queued"; "running"] j)
    (jobs db))).

(** The row that [create_job] stores. *)
Definition new_job (now : Z) (new_id : UUID) (task_id : string) (org : UUID)
    (req : CreateJobRequest) : Job :=
  let cs := normalize_companies (req_companies req) in
  {| job_id := new_id; organization_id := org; status := "queued";
     input_data := {| companies := cs; websites := req_websites req |};
     total_items := Z.of_nat (length cs); completed_items := 0;
     failed_items := 0; progress_pct := 0;
     celery_task_id := Some task_id; error_message := None;
     credits_used := 0; created_at := now;
     started_at := None; completed_at := None |}.

(** [create_job]; [new_id] is the key the row receives and [task_id] the
    identifier returned by the broker. *)
Definition create_job (cfg : Settings) (now : Z) (new_id : UUID) (task_id : string)
    (db : DB) (org : UUID) (req : CreateJobRequest) : http (DB * Job) :=
  match req_companies req with
  | [] => HTTPException 400 "No companies provided"
  | _ =>
      if Z.of_nat (length (req_companies req)) >? 500
      then HTTPException 400 "Max 500 companies per job"
      else if count_active db org >=? MAX_CONCURRENT_JOBS_PER_ORG cfg
      then HTTPException 429
             ("Max " +:+ pretty (MAX_CONCURRENT_JOBS_PER_ORG cfg)
              +:+ " concurrent jobs reached. "
              +:+ "Wait for a job to complete before creating another.")
      else
        let job := new_job now new_id task_id org req in
        Returned (with_jobs db (jobs db ++ [job]), job)
  end.

Definition set_cancelled (now : Z) (j : Job) : Job :=
  {| job_id := job_id j; organization_id := organization_id j;
     status := "cancelled"; input_data := input_data j;
     total_items := total_items j; completed_items := completed_items j;
     failed_items := failed_items j; progress_pct := progress_pct j;
     celery_task_id := celery_task_id j; error_message := error_message j;
     credits_used := credits_used j; created_at := created_at j;
     started_at := started_at j; completed_at := Some now |}.

(** [cancel_job]: only a queued or running job can be cancelled. *)
Definition cancel_job (now : Z) (db : DB) (id org : UUID) : http DB :=
  match get_job db id with
  | None => HTTPException 404 "Job not found"
  | Some job =>
      if negb (N.eqb (organization_id job) org)
      then HTTPException 404 "Job not found"
      else if negb (status_in ["queued"; "running"] job)
      then HTTPException 400 ("Cannot cancel a '" +:+ status job +:+ "' job")
      else Returned (with_jobs db (sql_update (has_id id) (set_cancelled now) (jobs db)))
  end.

(** ** Words of the specification *)

(** The errors after which the wrapper tries again, and the pause it takes
    after one at a given attempt. *)
Definition retryable (o : call_outcome) : bool :=
  match o with
  | RaisesAPITimeoutError | RaisesRateLimitError | RaisesAPIError => true
  | Completed _ | RaisesOther => false
  end.

Definition backoff (attempt : nat) (o : call_outcome) : list Z :=
  match o with
  | RaisesAPITimeoutError | RaisesRateLimitError => [base_delay * 2 ^ Z.of_nat attempt]
  | RaisesAPIError => if (attempt <? 2)%nat then [base_delay] else []
  | Completed _ | RaisesOther => []
  end.

(** The pauses taken after attempts [0 .. k-1]. *)
Fixpoint backoffs (create : nat -> call_outcome) (k : nat) : list Z :=
  match k with
  | O => []
  | S k' => backoffs create k' ++ backoff k' (create k')
  end.

Definition stop_response (text : string) : ChatCompletion :=
  {| usage := None; finish_reason := "stop"; content := Some text; tool_calls := [] |}.

(** The names in [tool_map]. *)
Definition tool_names : list string :=
  ["search_web"; "scrape_website"; "find_company_website"; "get_linkedin_info"].

(** A network on which every request fails. *)
Definition silent_network : network :=
  {| search_web_body := fun _ _ => Raise (OtherException "connection refused");
     scrape_website_body := fun _ _ => Raise (OtherException "connection refused");
     find_company_website_body := fun _ => Raise (OtherException "connection refused") |}.

(** The candidates of [_extract_json] in the order of the specification, and
    the first of them that decodes. *)
Definition candidates (text : string) : list string :=
  let t := strip text in
  (if startswith "{" t then [t] else [])
  ++ option_list (search_fenced t)
  ++ option_list (search_braces t)
  ++ option_list (option_map repair (search_partial t)).

Definition first_parsing (cs : list string) : option string :=
  head (List.filter json_valid cs).

(** JSON texts are written below with apostrophes for the double quotes. *)
Fixpoint js (s : string) : string :=
  match s with
  | EmptyString => EmptyString
  | String c s' => String (if Ascii.eqb c "'" then dquote else c) (js s')
  end.

(** Tool-call arguments that decode to an object, or do not decode at all. *)
Definition arguments_ok (tc : ToolCall) : Prop :=
  json_valid (tc_arguments tc) = true -> json_is_object (tc_arguments tc) = true.

(** The text that the loop holds came from a response received in some pass
    [1 .. cap], or is the empty text it started with. *)
Definition text_seen (w : world) (item : nat) (cap : Z) (text : string) : Prop :=
  text = "" \/
  exists k msgs resp,
    1 <= k <= cap /\
    response (_call_groq_with_retry (chat_create w item k msgs)) = Some resp /\
    content resp = Some text.

(** Two worlds that differ only in what the provider answers. *)
Definition same_but_provider (w w' : world) : Prop :=
  decoded_object w' = decoded_object w /\ py_int w' = py_int w /\ net w' = net w.

(** The defaults of [core/config.py]; the system prompt is cut short. *)
Definition default_settings : Settings :=
  {| GROQ_MODEL := "llama-3.3-70b-versatile";
     GROQ_MAX_TOOL_ITERATIONS := 15;
     MAX_CONCURRENT_JOBS_PER_ORG := 3;
     WORKER_COMMIT_BATCH_SIZE := 10;
     SYSTEM_PROMPT := "You are AgentIQ, an elite business intelligence analyst." |}.

(** A world whose provider answers item [i], pass [k] with [reply i k] at the
    first attempt, and whose network is down. *)
Definition world_of (reply : nat -> Z -> call_outcome) : world :=
  {| chat_create := fun item k _ _ => reply item k;
     decoded_object := fun _ => ∅;
     py_int := fun v => match v with VInt n => Some n | _ => None end;
     net := silent_network |}.

(** A response that asks for one tool with the given arguments. *)
Definition tool_request (arguments : string) : ChatCompletion :=
  {| usage := Some {| prompt_tokens := Some 10; completion_tokens := Some 5 |};
     finish_reason := "tool_calls";
     content := None;
     tool_calls := [ {| tc_id := "call_1"; tc_name := "search_web";
                        tc_arguments := arguments |} ] |}.

Definition always_tools : world :=
  world_of (fun _ _ => Completed (tool_request (js "{'query': 'acme'}"))).

(** Removing duplicates and keeping first occurrences in their order: an
    entry stays exactly when it has not been [seen] earlier. *)
Fixpoint keep_first (seen l : list string) : list string :=
  match l with
  | [] => []
  | x :: l' =>
      if existsb (String.eqb x) seen then keep_first seen l'
      else x :: keep_first (x :: seen) l'
  end.

Definition first_occurrences (l : list string) : list string := keep_first [] l.

(** How the counters of a job row stand after [n] more item steps. *)
Definition progressed (n : nat) (j j' : Job) : Prop :=
  job_id j' = job_id j /\ total_items j' = total_items j /\
  input_data j' = input_data j /\
  completed_items j <= completed_items j' /\
  failed_items j <= failed_items j' /\
  completed_items j' + failed_items j'
    = completed_items j + failed_items j + Z.of_nat n.

(** One item step on a job row: exactly one of the two counters grows, by
    one. *)
Definition one_counter_up (j j' : Job) : Prop :=
  (completed_items j' = completed_items j + 1 /\ failed_items j' = failed_items j) \/
  (completed_items j' = completed_items j /\ failed_items j' = failed_items j + 1).

(** Rows of the job [id] are related by [R]; the other rows are untouched. *)
Definition rows_of (id : UUID) (R : Job -> Job -> Prop) (rows rows' : list Job) : Prop :=
  Forall2 (fun j j' => if has_id id j then R j j' else j' = j) rows rows'.

(** The result rows stored for a job and an input name. *)
Definition rows_for (id : UUID) (name : string) (rows : list EnrichmentResult)
    : list EnrichmentResult :=
  List.filter (fun r => match er_job_id r with
                        | Some j => N.eqb j id && String.eqb (input_name r) name
                        | None => false
                        end) rows.

(** At most one result row for each job and input name. *)
Definition uq_results_job_company (db : DB) : Prop :=
  forall id name, (length (rows_for id name (enrichment_results db)) <= 1)%nat.

Definition empty_db : DB :=
  {| jobs := []; enrichment_results := []; usage_logs := [] |}.

(** A provider that answers every item with a final JSON text at once. *)
Definition always_stop (text : string) : world :=
  world_of (fun _ _ => Completed (stop_response text)).

(** A job row as [create_job] stores it for three names. *)
Definition three_names : CreateJobRequest :=
  {| req_companies := ["Acme"; "Initech"; "Hooli"]; req_websites := ∅ |}.

Definition sample_job : Job := new_job 0 1%N "task-1" 7%N three_names.

Definition sample_db : DB :=
  {| jobs := [sample_job]; enrichment_results := []; usage_logs := [] |}.

(** The terminal statuses of a job. *)
Definition terminal (s : string) : bool :=
  existsb (String.eqb s) ["completed"; "partial"; "failed"; "cancelled"].

(** A statement that leaves every row with a terminal status as it is. *)
Definition keeps_terminal (rows rows' : list Job) : Prop :=
  Forall2 (fun j j' => terminal (status j) = true -> j' = j) rows rows'.

(** A provider whose first two items ask for a tool with arguments that
    decode to a list, and whose later items answer at once. *)
Definition two_bad_items : world :=
  world_of (fun item _ => if (item <? 2)%nat
                          then Completed (tool_request "[1]")
                          else Completed (stop_response "{}")).

(** The text still to be read of a literal holds letters only. *)
Definition is_letter (c : ascii) : bool := ascii_in 65 90 c || ascii_in 97 122 c.

Fixpoint all_letters (s : string) : bool :=
  match s with
  | EmptyString => true
  | String c s' => is_letter c && all_letters s'
  end.

Definition mode_ok (st : jstate) : Prop :=
  match fst st with
  | MLit rest => all_letters rest = true
  | _ => True
  end.

(** The result rows of a job. *)
Definition job_rows (id : UUID) (rows : list EnrichmentResult) : list EnrichmentResult :=
  List.filter (fun r => match er_job_id r with
                        | Some j => N.eqb j id
                        | None => false
                        end) rows.

(** The statements that the system runs against the database, one at a
    time: a submission (the key of the new row is fresh), the first statement
    of a run, one pass of the orchestrator loop for a name of the job, the
    last statement of a run, the failed and partial markers, the staleness
    sweep, a cancellation, and an agent call outside any job.  Runs that are
    delivered again, or that overlap, are sequences of these. *)
Inductive statement (cfg : Settings) : DB -> DB -> Prop :=
| st_create now new_id task_id db org req db' job :
    get_job db new_id = None ->
    create_job cfg now new_id task_id db org req = Returned (db', job) ->
    statement cfg db db'
| st_start now task db id job :
    get_job db id = Some job ->
    statement cfg db (mark_running now task db id)
| st_item w now db id org job i company :
    get_job db id = Some job ->
    companies (input_data job) !! i = Some company ->
    statement cfg db
      (fst (process_item cfg w now db id org (websites (input_data job)) i company))
| st_finish now db id :
    statement cfg db (mark_completed now db id)
| st_failed now db id msg :
    statement cfg db (_mark_job_failed now db id msg)
| st_partial now db id msg :
    statement cfg db (_mark_job_partial now db id msg)
| st_sweep now db :
    statement cfg db (fst (stuck_job_cleanup now db))
| st_cancel now db id org db' :
    cancel_job now db id org = Returned db' ->
    statement cfg db db'
| st_single w now db org company website :
    statement cfg db (fst (enrich_company cfg w now 0 db None org company website)).

(** The databases that the system can be in. *)
Inductive reachable (cfg : Settings) : DB -> Prop :=
| reach_empty : reachable cfg empty_db
| reach_next db db' : reachable cfg db -> statement cfg db db' -> reachable cfg db'.

(** What holds of a job row and the result rows in every such database. *)
Definition job_inv (rows : list EnrichmentResult) (j : Job) : Prop :=
  total_items j = Z.of_nat (length (companies (input_data j))) /\
  0 <= completed_items j /\ 0 <= failed_items j /\
  completed_items j + failed_items j <= Z.of_nat (length (job_rows (job_id j) rows)) /\
  (forall r, In r (job_rows (job_id j) rows) ->
             In (input_name r) (companies (input_data j))) /\
  List.NoDup (companies (input_data j)).

Definition db_inv (db : DB) : Prop :=
  List.NoDup (map job_id (jobs db)) /\
  uq_results_job_company db /\
  (forall r id, In r (enrichment_results db) -> er_job_id r = Some id ->
                exists j, In j (jobs db) /\ job_id j = id) /\
  Forall (job_inv (enrichment_results db)) (jobs db).

(** A statement that writes neither the key, nor the names, nor the
    counters of a row. *)
Definition same_counts (j j' : Job) : Prop :=
  job_id j' = job_id j /\ input_data j' = input_data j /\
  total_items j' = total_items j /\
  completed_items j' = completed_items j /\ failed_items j' = failed_items j.

(** ** [agents/tools.py]: the text helpers of the scraper *)

Definition starts_blank (s : string) : bool :=
  match s with
  | String c _ => py_isspace c
  | EmptyString => false
  end.

(** [re.sub(r'\s+', ' ', text)]: every maximal run of blanks becomes one
    space. *)
Fixpoint collapse_blanks (s : string) : string :=
  match s with
  | EmptyString => EmptyString
  | String c s' =>
      if py_isspace c then
        if starts_blank s' then collapse_blanks s'
        else String " " (collapse_blanks s')
      else String c (collapse_blanks s')
  end.

Definition clean_text (text : string) : string := strip (collapse_blanks text).

(** [text[:n]]: a negative [n] counts from the end. *)
Definition slice_to (n : Z) (text : string) : string :=
  if (n <? 0)%Z then take_chars (String.length text - Z.to_nat (- n))%nat text
  else take_chars (Z.to_nat n) text.

(** [sep.join(parts)] *)
Fixpoint join (sep : string) (parts : list string) : string :=
  match parts with
  | [] => ""
  | [p] => p
  | p :: rest => p +:+ sep +:+ join sep rest
  end.

(** The digest that [scrape_website] builds from a page that was fetched and
    parsed: [selected] holds, for each of the five selectors in turn, the
    text of the first element it selects, if there is one; [page_text] is
    the text of the whole page after the script, style, navigation, footer,
    header, iframe and noscript elements were removed. *)
Definition sections_of (selected : list (option string)) : list string :=
  List.filter (fun t => (100 <? String.length t)%nat)
              (map clean_text (omap id selected)).

Definition scrape_digest (selected : list (option string)) (page_text : string)
    (max_chars : Z) : string :=
  let joined := join " " (sections_of selected) in
  let text := match joined with
              | EmptyString => clean_text page_text
              | _ => joined
              end in
  if (max_chars <? Z.of_nat (String.length text))%Z
  then slice_to max_chars text +:+ "...[truncated]"
  else text.

(** A text in the form that [clean_text] produces: it does not begin with a
    blank, and each of its blanks is a space with a character that is not a
    blank behind it. *)
Fixpoint single_spaced (s : string) : bool :=
  match s with
  | EmptyString => true
  | String c s' =>
      (if py_isspace c
       then Ascii.eqb c " " && nonempty s' && negb (starts_blank s')
       else true) && single_spaced s'
  end.

Definition cleaned (s : string) : bool := negb (starts_blank s) && single_spaced s.

(** The characters of a text that are not blanks. *)
Fixpoint nonblanks (s : string) : string :=
  match s with
  | EmptyString => EmptyString
  | String c s' => if py_isspace c then nonblanks s' else String c (nonblanks s')
  end.

(** Python's [text.split()]: the maximal runs of characters that are not
    blanks. *)
Fixpoint words (s : string) : list string :=
  match s with
  | EmptyString => []
  | String c s' =>
      if py_isspace c then words s'
      else match words s' with
           | w :: ws =>
               if starts_blank s' then String c EmptyString :: w :: ws
               else String c w :: ws
           | [] => [String c EmptyString]
           end
  end.

(** ** [api/main.py]: [POST /enrich/single]

    The agent is called on the session of the request with no job; whatever
    it raises becomes a 500 whose detail carries the error.  The row is
    returned as it was stored. *)
Definition enrich_single (cfg : Settings) (w : world) (now : Z) (db : DB)
    (org : UUID) (company_name : string) (website : option string)
    : DB * http EnrichmentResult :=
  match enrich_company cfg w now 0 db None org company_name website with
  | (db', Ok row) => (db', Returned row)
  | (db', Raise e) => (db', HTTPException 500 ("Enrichment failed: " +:+ str_exn e))
  end.

(** ** [core/job_recovery.py]: the health summary *)

Record JobHealth : Type := {
  queued : Z;
  running : Z;
  stuck : Z;
  failed_24h : Z;
  completed_24h : Z
}.

(** [SELECT count(id) FROM jobs WHERE ...] *)
Definition count_jobs (where_ : Job -> bool) (db : DB) : Z :=
  Z.of_nat (length (List.filter where_ (jobs db))).

(** [column < :t] and [column >= :t] on a column that can be NULL: the
    comparison with NULL is unknown, and the row is not selected. *)
Definition earlier_than (t : Z) (column : option Z) : bool :=
  match column with
  | Some c => (c <? t)%Z
  | None => false
  end.

Definition not_earlier_than (t : Z) (column : option Z) : bool :=
  match column with
  | Some c => (t <=? c)%Z
  | None => false
  end.

Definition has_status (s : string) (j : Job) : bool := String.eqb (status j) s.

(** Times are in seconds, as in [stuck_job_cleanup]. *)
Definition job_health_summary (now : Z) (db : DB) : JobHealth :=
  let cutoff := (now - STUCK_THRESHOLD_HOURS * 3600)%Z in
  let since_24h := (now - 24 * 3600)%Z in
  {| queued := count_jobs (has_status "queued") db;
     running := count_jobs (has_status "running") db;
     stuck := count_jobs (fun j => has_status "running" j
                                   && earlier_than cutoff (started_at j)) db;
     failed_24h := count_jobs (fun j => has_status "failed" j
                                        && not_earlier_than since_24h (completed_at j)) db;
     completed_24h := count_jobs (fun j => has_status "completed" j
                                           && not_earlier_than since_24h (completed_at j)) db |}.

(** ** [services/worker.py]: the Celery tasks *)

(** How the body of a task's [try] block ended: it returned, the scheduler
    raised [SoftTimeLimitExceeded] in it, or it raised something else. *)
Inductive run_end : Type :=
| RunReturned
| RunSoftTimeLimit
| RunRaised (e : exn).

(** How a delivery of a task ended: the task returned, it asked to be
    delivered again ([raise self.retry(exc=exc, countdown=...)]), or it
    raised. *)
Inductive task_end : Type :=
| TaskReturned
| TaskRetry (countdown : Z) (e : exn)
| TaskRaised (e : exn).

(** [enrich_job_task]: [max_retries=3]; [retries] is [self.request.retries]
    and [run] the call [run_async(_run_job(self, job_id, organization_id))]. *)
Definition enrich_job_task (now : Z) (retries : nat) (run : DB -> DB * run_end)
    (db : DB) (id : UUID) : DB * task_end :=
  match run db with
  | (db', RunReturned) => (db', TaskReturned)
  | (db', RunSoftTimeLimit) =>
      (_mark_job_partial now db' id
         ("Time limit exceeded (1 hour). Partial results are saved. "
          +:+ "Re-launch the job with the remaining companies to continue."),
       TaskReturned)
  | (db', RunRaised e) =>
      if (retries <? 3)%nat then (db', TaskRetry 60 e)
      else (_mark_job_failed now db' id (str_exn e), TaskRaised e)
  end.

(** [single_enrich_task]: [max_retries=2]; it writes nothing of its own. *)
Definition single_enrich_task (retries : nat) (run : DB -> DB * run_end) (db : DB)
    : DB * task_end :=
  match run db with
  | (db', RunReturned) => (db', TaskReturned)
  | (db', RunSoftTimeLimit) => (db', TaskReturned)
  | (db', RunRaised e) =>
      if (retries <? 2)%nat then (db', TaskRetry 30 e) else (db', TaskReturned)
  end.

(** The body of the job task, as the orchestrator runs it. *)
Definition job_run (cfg : Settings) (w : world) (now : Z) (task_id : string)
    (id org : UUID) (db : DB) : DB * run_end :=
  match _run_job cfg w now task_id db id org with
  | (db', None) => (db', RunReturned)
  | (db', Some e) => (db', RunRaised e)
  end.

(** [_run_single] as the body of the single task. *)
Definition single_run (cfg : Settings) (w : world) (now : Z) (org : UUID)
    (company_name : string) (website : option string) (db : DB) : DB * run_end :=
  match enrich_company cfg w now 0 db None org company_name website with
  | (db', Ok _) => (db', RunReturned)
  | (db', Raise e) => (db', RunRaised e)
  end.

(** The deliveries of a task, at most [fuel] of them: the broker delivers a
    task that asked for a retry again, with [retries] one higher.  [task k]
    is the delivery with [retries = k].  The result is the database, how the
    last delivery ended if the deliveries came to an end, and the number of
    deliveries. *)
Fixpoint deliveries (fuel retries : nat) (task : nat -> DB -> DB * task_end) (db : DB)
    : DB * option task_end * nat :=
  match fuel with
  | O => (db, None, O)
  | S fuel' =>
      match task retries db with
      | (db', TaskRetry _ _) =>
          match deliveries fuel' (S retries) task db' with
          | (db'', last, n) => (db'', last, S n)
          end
      | (db', last) => (db', Some last, 1%nat)
      end
  end.

(** ** What the statements do to a job row *)

Inductive row_step (j : Job) : Job -> Prop :=
| step_running now task : row_step j (set_running now task j)
| step_item_completed j' : set_item_completed j = Ok j' -> row_step j j'
| step_item_failed j' : set_item_failed j = Ok j' -> row_step j j'
| step_completed now : row_step j (set_completed now j)
| step_failed msg now :
    status_in ["queued"; "running"] j = true ->
    row_step j (set_ended "failed" msg now j)
| step_partial msg now :
    status j = "running" -> row_step j (set_ended "partial" msg now j)
| step_cancelled now :
    status_in ["queued"; "running"] j = true -> row_step j (set_cancelled now j).

(** A row as a submission stored it. *)
Definition submitted (j : Job) : Prop :=
  exists now new_id task_id org req, j = new_job now new_id task_id org req.

(** The statuses of a job. *)
Definition job_statuses : list string :=
  ["queued"; "running"; "completed"; "partial"; "failed"; "cancelled"].

(** ** [api/main.py]: the listings of jobs and results *)

(** [ORDER BY]: the rows in the order [le] of their keys; rows with equal
    keys are kept here in the order in which they are stored (Postgres
    leaves their order open). *)
Fixpoint insert_by {A : Type} (le : A -> A -> bool) (x : A) (l : list A) : list A :=
  match l with
  | [] => [x]
  | y :: l' => if le x y then x :: y :: l' else y :: insert_by le x l'
  end.

Definition order_by {A : Type} (le : A -> A -> bool) (l : list A) : list A :=
  fold_right (insert_by le) [] l.

(** [q.offset(offset).limit(limit)]: Postgres refuses a negative OFFSET and a
    negative LIMIT. *)
Definition offset_limit {A : Type} (offset limit : Z) (rows : list A) : result (list A) :=
  if (offset <? 0)%Z then Raise (DataError "OFFSET must not be negative")
  else if (limit <? 0)%Z then Raise (DataError "LIMIT must not be negative")
  else Ok (take (Z.to_nat limit) (drop (Z.to_nat offset) rows)).

Definition ZeroDivisionError : exn :=
  OtherException "integer division or modulo by zero".

(** [max(1, (total + limit - 1) // limit)] *)
Definition page_count (total limit : Z) : result Z :=
  if (limit =? 0)%Z then Raise ZeroDivisionError
  else Ok (Z.max 1 ((total + limit - 1) / limit)).

(** [if status_filter: q = q.where(column == status_filter)] *)
Definition status_matches (status_filter : option string) (s : string) : bool :=
  match status_filter with
  | Some (String c t) => String.eqb s (String c t)
  | _ => true
  end.

Record Page (A : Type) : Type := {
  page_rows : list A;
  page_total : Z;
  page_number : Z;
  page_pages : Z
}.
Arguments page_rows {A} _.
Arguments page_total {A} _.
Arguments page_number {A} _.
Arguments page_pages {A} _.

(** The rows of a listing, the count of all that match, the page asked for
    and the number of pages; the page query runs before the count query, and
    the number of pages is computed last. *)
Definition paged {A : Type} (cap page limit : Z) (ordered : list A) : result (Page A) :=
  let limit := Z.min limit cap in
  let* rows := offset_limit ((page - 1) * limit) limit ordered in
  let total := Z.of_nat (length ordered) in
  let* pages := page_count total limit in
  Ok {| page_rows := rows; page_total := total; page_number := page; page_pages := pages |}.

(** [GET /jobs]: the jobs of the organization, newest first, at most 100 to
    a page. *)
Definition list_jobs (db : DB) (org : UUID) (page limit : Z)
    (status_filter : option string) : result (Page Job) :=
  paged 100 page limit
    (order_by (fun a b => (created_at b <=? created_at a)%Z)
       (List.filter (fun j => N.eqb (organization_id j) org
                              && status_matches status_filter (status j))
                    (jobs db))).

(** [GET /jobs/{job_id}/results]: the result rows of a job of the
    organization, in the order of their enrichment, at most 500 to a page,
    with the [total_items] of the job. *)
Definition get_job_results (db : DB) (id org : UUID) (page limit : Z)
    (status_filter : option string) : result (http (Page EnrichmentResult * Z)) :=
  match get_job db id with
  | None => Ok (HTTPException 404 "Job not found")
  | Some job =>
      if negb (N.eqb (organization_id job) org)
      then Ok (HTTPException 404 "Job not found")
      else
        let* p := paged 500 page limit
                    (order_by (fun a b => (er_enriched_at a <=? er_enriched_at b)%Z)
                       (List.filter (fun r => status_matches status_filter (er_status r))
                                    (job_rows id (enrichment_results db)))) in
        Ok (Returned (p, total_items job))
  end.

(** ** The conversation that the agent keeps *)

(** The tool message that the loop appends for a tool call. *)
Definition answer (w : world) (tc : ToolCall) : result message :=
  let* args := decode_arguments w (tc_arguments tc) in
  let* res := execute_tool (net w) (tc_name tc) args in
  Ok (ToolMessage (tc_id tc) res).

(** Assistant turns, each followed by the answers to its tool calls: one
    tool message for each call, in the order of the calls. *)
Inductive answered_turns (w : world) : list message -> Prop :=
| turns_end : answered_turns w []
| turns_more text calls answers rest :
    calls <> [] ->
    Forall2 (fun tc m => answer w tc = Ok m) calls answers ->
    answered_turns w rest ->
    answered_turns w (AssistantMessage text calls :: answers ++ rest).

Definition is_tool_message (m : message) : bool :=
  match m with
  | ToolMessage _ _ => true
  | _ => false
  end.

(** ** The provider calls of the tool loop *)

(** The loop of [enrich_company] once more, keeping what each of its calls
    of [_call_groq_with_retry] did, in order. *)
Fixpoint agent_calls (w : world) (max_iterations : Z) (item : nat) (fuel : nat)
    (st : agent_state) : list retry_run :=
  match fuel with
  | O => []
  | S fuel' =>
      if (iteration st <? max_iterations)%Z then
        _call_groq_with_retry (chat_create w item (iteration st + 1) (messages st))
        :: match loop_body w item st with
           | Ok (st', Continue) => agent_calls w max_iterations item fuel' st'
           | _ => []
           end
      else []
  end.

(** The attempts made and the seconds slept in a list of calls. *)
Definition total_attempts (calls : list retry_run) : Z :=
  fold_right (fun r acc => (Z.of_nat (attempts r) + acc)%Z) 0%Z calls.

Definition total_sleep (calls : list retry_run) : Z :=
  fold_right (fun r acc => (fold_right Z.add 0 (sleeps r) + acc)%Z) 0%Z calls.

(** ** The usage rows of a job *)

Definition job_usage (id : UUID) (logs : list UsageLog) : list UsageLog :=
  List.filter (fun u => match ul_job_id u with
                        | Some j => N.eqb j id
                        | None => false
                        end) logs.

(** [sum(l.credits_consumed for l in logs)] *)
Definition total_credits (logs : list UsageLog) : Z :=
  fold_right (fun u acc => (ul_credits_consumed u + acc)%Z) 0%Z logs.

(** What holds of the usage rows in every database that the system can
    reach: each consumed one credit; a row that names a job names a stored
    one; a job has two usage rows for each item it completed. *)
Definition usage_inv (db : DB) : Prop :=
  Forall (fun u => ul_credits_consumed u = 1%Z) (usage_logs db) /\
  (forall u id, In u (usage_logs db) -> ul_job_id u = Some id ->
                In id (map job_id (jobs db))) /\
  Forall (fun j => Z.of_nat (length (job_usage (job_id j) (usage_logs db)))
                   = (2 * completed_items j)%Z) (jobs db).

(** ** Sample data *)

(** An organization at the cap: three queued jobs. *)
Definition busy_db : DB :=
  {| jobs := [new_job 0 1%N "t1" 7%N three_names;
              new_job 0 2%N "t2" 7%N three_names;
              new_job 0 3%N "t3" 7%N three_names];
     enrichment_results := []; usage_logs := [] |}.

(* ===================================================================== *)
(** * Theorems *)
(* ===================================================================== *)

Local Open Scope string_scope.
Local Open Scope Z_scope.
Local Open Scope list_scope.

#[local] Arguments Ascii.eqb : simpl never.

(** ** The retry wrapper *)

Lemma attempts_le_max (create : nat -> call_outcome) :
  (attempts (_call_groq_with_retry create) <= max_retries)%nat.
Proof.
  unfold _call_groq_with_retry, max_retries. simpl.
  destruct (create 0%nat); simpl; try lia;
  destruct (create 1%nat); simpl; try lia;
  destruct (create 2%nat); simpl; lia.
Qed.

(** C8, as stated, fails: after a provider error that is neither a timeout
    nor a rate limit the wrapper does not give up after one retry.  Two such
    errors in a row are followed by a third attempt, whose response is
    returned. *)
Lemma retry_api_error_third_attempt :
  let create := fun n => match n with
                         | 0%nat | 1%nat => RaisesAPIError
                         | _ => Completed (stop_response "{}")
                         end in
  attempts (_call_groq_with_retry create) = 3%nat /\
  response (_call_groq_with_retry create) = Some (stop_response "{}") /\
  sleeps (_call_groq_with_retry create) = [2; 2].
Proof. repeat split. Qed.

(** C8 (amended): the wrapper makes at most three attempts.  It tries again
    after a timeout or a rate limit, pausing [2 * 2^attempt] seconds, and
    after any other provider error, pausing the base delay of 2 seconds, as
    long as attempts remain (a provider error on the third attempt returns at
    once); any other error returns no response at once; the first completed
    call is returned; three failed attempts return no response. *)
Theorem call_groq_with_retry_policy (create : nat -> call_outcome) :
  let r := _call_groq_with_retry create in
  (attempts r <= 3)%nat /\
  (forall k resp, (k < 3)%nat ->
     (forall i, (i < k)%nat -> retryable (create i) = true) ->
     create k = Completed resp ->
     response r = Some resp /\ attempts r = S k /\ sleeps r = backoffs create k) /\
  (forall k, (k < 3)%nat ->
     (forall i, (i < k)%nat -> retryable (create i) = true) ->
     create k = RaisesOther ->
     response r = None /\ attempts r = S k /\ sleeps r = backoffs create k) /\
  ((forall i, (i < 3)%nat -> retryable (create i) = true) ->
     response r = None /\ attempts r = 3%nat /\ sleeps r = backoffs create 3) /\
  ((forall i, (i < 3)%nat -> create i = RaisesAPIError) -> sleeps r = [2; 2]) /\
  ((forall i, (i < 3)%nat ->
      create i = RaisesAPITimeoutError \/ create i = RaisesRateLimitError) ->
     sleeps r = [2; 4; 8]).
Proof.
  cbv zeta. split; [apply attempts_le_max|].
  unfold _call_groq_with_retry, max_retries.
  split; [|split; [|split; [|split]]].
  - intros k resp Hk Hpre Hc.
    destruct k as [|[|[|k]]]; try lia.
    + simpl. rewrite Hc. auto.
    + pose proof (Hpre 0%nat ltac:(lia)) as H0.
      simpl. destruct (create 0%nat); try discriminate H0; rewrite Hc; auto.
    + pose proof (Hpre 0%nat ltac:(lia)) as H0.
      pose proof (Hpre 1%nat ltac:(lia)) as H1.
      simpl. destruct (create 0%nat); try discriminate H0;
        destruct (create 1%nat); try discriminate H1; rewrite Hc; auto.
  - intros k Hk Hpre Hc.
    destruct k as [|[|[|k]]]; try lia.
    + simpl. rewrite Hc. auto.
    + pose proof (Hpre 0%nat ltac:(lia)) as H0.
      simpl. destruct (create 0%nat); try discriminate H0; rewrite Hc; auto.
    + pose proof (Hpre 0%nat ltac:(lia)) as H0.
      pose proof (Hpre 1%nat ltac:(lia)) as H1.
      simpl. destruct (create 0%nat); try discriminate H0;
        destruct (create 1%nat); try discriminate H1; rewrite Hc; auto.
  - intros Hpre.
    pose proof (Hpre 0%nat ltac:(lia)) as H0.
    pose proof (Hpre 1%nat ltac:(lia)) as H1.
    pose proof (Hpre 2%nat ltac:(lia)) as H2.
    simpl. destruct (create 0%nat); try discriminate H0;
      destruct (create 1%nat); try discriminate H1;
      destruct (create 2%nat); try discriminate H2; auto.
  - intros Hall.
    simpl. rewrite !Hall by lia. reflexivity.
  - intros Hall.
    simpl.
    destruct (Hall 0%nat ltac:(lia)) as [-> | ->];
      destruct (Hall 1%nat ltac:(lia)) as [-> | ->];
      destruct (Hall 2%nat ltac:(lia)) as [-> | ->]; reflexivity.
Qed.

Lemma call_groq_with_retry_policy_witness :
  sleeps (_call_groq_with_retry (fun _ => RaisesAPITimeoutError)) = [2; 4; 8] /\
  sleeps (_call_groq_with_retry (fun _ => RaisesAPIError)) = [2; 2].
Proof.
  split.
  - destruct (call_groq_with_retry_policy (fun _ => RaisesAPITimeoutError))
      as (_ & _ & _ & _ & _ & H).
    apply H. intros i _. left. reflexivity.
  - destruct (call_groq_with_retry_policy (fun _ => RaisesAPIError))
      as (_ & _ & _ & _ & H & _).
    apply H. intros i _. reflexivity.
Defined.

(** ** The tool executor *)

Lemma tool_map_unknown (net : network) (name : string) :
  ~ In name tool_names -> tool_map net !! name = None.
Proof.
  intros Hn. unfold tool_map.
  rewrite !lookup_insert_ne; [apply lookup_empty | ..];
    intros <-; apply Hn; simpl; tauto.
Qed.

Lemma execute_tool_returns (net : network) (name : string) (input : gmap string pyval) :
  exists s, execute_tool net name input = Ok s.
Proof.
  unfold execute_tool.
  destruct (tool_map net !! name) as [h|]; [|eauto].
  destruct (h input); simpl; eauto.
Qed.

(** C5: the tool executor returns a text for every tool name and every
    argument mapping and never raises.  An unknown name gives the text
    "Unknown tool: <name>"; whatever the selected handler raises is turned
    into "Tool error (<name>): <error>", and so is the [KeyError] of a
    missing required argument. *)
Theorem execute_tool_never_raises (net : network) (name : string)
    (input : gmap string pyval) :
  (exists s, execute_tool net name input = Ok s) /\
  (~ In name tool_names ->
     execute_tool net name input = Ok ("Unknown tool: " +:+ name)) /\
  (forall h e, tool_map net !! name = Some h -> h input = Raise e ->
     execute_tool net name input
       = Ok ("Tool error (" +:+ name +:+ "): " +:+ str_exn e)) /\
  (forall required,
     In (name, required) [("search_web", "query"); ("scrape_website", "url");
                          ("find_company_website", "company_name");
                          ("get_linkedin_info", "company_name")] ->
     input !! required = None ->
     execute_tool net name input
       = Ok ("Tool error (" +:+ name +:+ "): '" +:+ required +:+ "'")).
Proof.
  split; [apply execute_tool_returns|].
  split; [|split].
  - intros Hn. unfold execute_tool. rewrite (tool_map_unknown net name Hn). reflexivity.
  - intros h e Hh He. unfold execute_tool. rewrite Hh, He. reflexivity.
  - intros required Hin Hmiss. unfold execute_tool, tool_map.
    simpl in Hin.
    destruct Hin as [H | [H | [H | [H | []]]]]; inversion H; subst; clear H.
    + rewrite lookup_insert_eq. unfold getitem. rewrite Hmiss. reflexivity.
    + rewrite lookup_insert_ne by discriminate. rewrite lookup_insert_eq.
      unfold getitem. rewrite Hmiss. reflexivity.
    + rewrite !lookup_insert_ne by discriminate. rewrite lookup_insert_eq.
      unfold getitem. rewrite Hmiss. reflexivity.
    + rewrite !lookup_insert_ne by discriminate. rewrite lookup_insert_eq.
      unfold getitem. rewrite Hmiss. reflexivity.
Qed.

Lemma execute_tool_never_raises_witness :
  execute_tool silent_network "lookup" ∅ = Ok "Unknown tool: lookup" /\
  execute_tool silent_network "scrape_website" ∅ = Ok "Tool error (scrape_website): 'url'" /\
  execute_tool silent_network "scrape_website" {["url" := VInt 7]}
    = Ok "Tool error (scrape_website): object has no attribute 'startswith'".
Proof.
  split; [|split].
  - destruct (execute_tool_never_raises silent_network "lookup" ∅) as (_ & H & _).
    apply H. simpl. intros [H1 | [H1 | [H1 | [H1 | []]]]]; discriminate H1.
  - destruct (execute_tool_never_raises silent_network "scrape_website" ∅)
      as (_ & _ & _ & H).
    apply (H "url"); [simpl; tauto | apply lookup_empty].
  - destruct (execute_tool_never_raises silent_network "scrape_website"
                {["url" := VInt 7]}) as (_ & _ & H & _).
    eapply (H _ (AttributeError "object has no attribute 'startswith'")).
    + unfold tool_map. rewrite lookup_insert_ne by discriminate.
      apply lookup_insert_eq.
    + unfold getitem. rewrite lookup_singleton_eq. reflexivity.
Defined.

(** ** The tool-calling loop *)

Lemma retry_ext (create create' : nat -> call_outcome) :
  (forall attempt, create' attempt = create attempt) ->
  _call_groq_with_retry create' = _call_groq_with_retry create.
Proof.
  intros H. unfold _call_groq_with_retry.
  generalize 0%nat. induction max_retries as [|n IH]; intros a; simpl.
  - reflexivity.
  - rewrite H. destruct (create a); try reflexivity; rewrite IH; reflexivity.
Qed.

Lemma run_tool_calls_keeps (w : world) (tcs : list ToolCall) (st st' : agent_state) :
  run_tool_calls w tcs st = Ok st' ->
  iteration st' = iteration st /\ final_text st' = final_text st /\
  total_tokens st' = total_tokens st /\
  tool_calls_count st' = tool_calls_count st + Z.of_nat (length tcs).
Proof.
  revert st. induction tcs as [|tc tcs IH]; intros st H; simpl in H.
  - inversion H; subst. simpl. repeat split; lia.
  - destruct (decode_arguments w (tc_arguments tc)) as [args|e]; simpl in H; [|discriminate].
    destruct (execute_tool (net w) (tc_name tc) args) as [res|e]; simpl in H; [|discriminate].
    apply IH in H. simpl in H. destruct H as (H1 & H2 & H3 & H4).
    repeat split; try assumption. rewrite H4. simpl length. lia.
Qed.

Lemma run_tool_calls_returns (w : world) (tcs : list ToolCall) (st : agent_state) :
  Forall arguments_ok tcs -> exists st', run_tool_calls w tcs st = Ok st'.
Proof.
  intros Hok. revert st. induction Hok as [|tc tcs Htc _ IH]; intros st; simpl.
  - eauto.
  - unfold decode_arguments. unfold arguments_ok in Htc.
    destruct (json_valid (tc_arguments tc)) eqn:Hv.
    + rewrite (Htc eq_refl). simpl.
      destruct (execute_tool_returns (net w) (tc_name tc)
                  (decoded_object w (tc_arguments tc))) as [s Hs].
      rewrite Hs. simpl. apply IH.
    + simpl.
      destruct (execute_tool_returns (net w) (tc_name tc) ∅) as [s Hs].
      rewrite Hs. simpl. apply IH.
Qed.

Lemma loop_body_iteration (w : world) (item : nat) (st st' : agent_state) (f : flow) :
  loop_body w item st = Ok (st', f) -> iteration st' = iteration st + 1.
Proof.
  intros H. unfold loop_body in H.
  destruct (response _) as [resp|]; [|inversion H; reflexivity].
  destruct (String.eqb (finish_reason resp) "stop"); [inversion H; reflexivity|].
  destruct (_ && _).
  - match type of H with
    | bind ?r _ = _ => destruct r as [st2|e] eqn:Hrun; simpl in H; [|discriminate]
    end.
    inversion H; subst. apply run_tool_calls_keeps in Hrun. simpl in Hrun. tauto.
  - inversion H; reflexivity.
Qed.

Lemma loop_body_text (w : world) (item : nat) (cap : Z) (st st' : agent_state) (f : flow) :
  0 <= iteration st < cap ->
  text_seen w item cap (final_text st) ->
  loop_body w item st = Ok (st', f) ->
  text_seen w item cap (final_text st') /\
  (f = Continue -> final_text st' = final_text st).
Proof.
  intros Hit Hseen H. unfold loop_body in H.
  destruct (response (_call_groq_with_retry
              (chat_create w item (iteration st + 1) (messages st)))) as [resp|] eqn:Hresp.
  - destruct (String.eqb (finish_reason resp) "stop").
    + inversion H; subst; clear H. simpl. split; [|discriminate].
      destruct (content resp) as [t|] eqn:Hc; simpl; [|left; reflexivity].
      right. exists (iteration st + 1), (messages st), resp. repeat split; auto; lia.
    + destruct (String.eqb (finish_reason resp) "tool_calls"
                && negb (Nat.eqb (length (tool_calls resp)) 0)).
      * match type of H with
        | bind ?r _ = _ => destruct r as [st2|e] eqn:Hrun; simpl in H; [|discriminate]
        end.
        inversion H; subst; clear H.
        apply run_tool_calls_keeps in Hrun. simpl in Hrun.
        destruct Hrun as (H1 & H2 & _ & _).
        rewrite H2. split; auto.
      * inversion H; subst; clear H. simpl. split; [|discriminate].
        destruct (content resp) as [[|c t]|] eqn:Hc; auto.
        right. exists (iteration st + 1), (messages st), resp. repeat split; auto; lia.
  - inversion H; subst; clear H. simpl. split; auto; discriminate.
Qed.

Lemma agent_loop_bound (w : world) (item : nat) (cap : Z) (fuel : nat)
    (st st' : agent_state) :
  0 <= iteration st <= Z.max 0 cap ->
  text_seen w item cap (final_text st) ->
  agent_loop w cap item fuel st = Ok st' ->
  0 <= iteration st' <= Z.max 0 cap /\ text_seen w item cap (final_text st').
Proof.
  revert st. induction fuel as [|fuel IH]; intros st Hit Hseen H; simpl in H.
  - inversion H; subst. split; auto.
  - destruct (iteration st <? cap)%Z eqn:Hlt.
    + apply Z.ltb_lt in Hlt.
      destruct (loop_body w item st) as [[st1 [|]]|e] eqn:Hbody; [| |discriminate].
      * pose proof (loop_body_iteration _ _ _ _ _ Hbody) as Hi.
        destruct (loop_body_text w item cap st st1 Continue ltac:(lia) Hseen Hbody)
          as (Ht & _).
        apply (IH st1); auto. lia.
      * inversion H; subst; clear H.
        pose proof (loop_body_iteration _ _ _ _ _ Hbody) as Hi.
        destruct (loop_body_text w item cap st st' Break ltac:(lia) Hseen Hbody)
          as (Ht & _).
        split; auto. lia.
    + inversion H; subst. split; auto.
Qed.

(** The loop leaves by its own test or by a [break]: passes beyond
    [cap - iteration] are never used. *)
Lemma agent_loop_fuel (w : world) (item : nat) (cap : Z) (fuel extra : nat)
    (st : agent_state) :
  cap - iteration st <= Z.of_nat fuel ->
  agent_loop w cap item (fuel + extra) st = agent_loop w cap item fuel st.
Proof.
  revert st. induction fuel as [|fuel IH]; intros st Hf.
  - simpl. destruct extra; simpl; [reflexivity|].
    destruct (iteration st <? cap)%Z eqn:Hlt; [|reflexivity].
    apply Z.ltb_lt in Hlt. lia.
  - simpl. destruct (iteration st <? cap)%Z eqn:Hlt; [|reflexivity].
    destruct (loop_body w item st) as [[st1 [|]]|e] eqn:Hbody; try reflexivity.
    apply IH. pose proof (loop_body_iteration _ _ _ _ _ Hbody). lia.
Qed.

Lemma run_tool_calls_provider (w w' : world) (tcs : list ToolCall) (st : agent_state) :
  same_but_provider w w' -> run_tool_calls w' tcs st = run_tool_calls w tcs st.
Proof.
  intros (Hd & _ & Hn). revert st. induction tcs as [|tc tcs IH]; intros st; simpl.
  - reflexivity.
  - unfold decode_arguments. rewrite Hd, Hn.
    destruct (json_valid (tc_arguments tc)); [destruct (json_is_object (tc_arguments tc))|];
      simpl; try reflexivity;
      destruct (execute_tool (net w) (tc_name tc) _); simpl; auto.
Qed.

(** The provider is asked in passes [1 .. cap] only. *)
Lemma agent_loop_provider (w w' : world) (item : nat) (cap : Z) (fuel : nat)
    (st : agent_state) :
  same_but_provider w w' ->
  (forall k msgs attempt, 1 <= k <= cap ->
     chat_create w' item k msgs attempt = chat_create w item k msgs attempt) ->
  0 <= iteration st ->
  agent_loop w' cap item fuel st = agent_loop w cap item fuel st.
Proof.
  intros Hsame Hagree. revert st. induction fuel as [|fuel IH]; intros st Hit; simpl.
  - reflexivity.
  - destruct (iteration st <? cap)%Z eqn:Hlt; [|reflexivity].
    apply Z.ltb_lt in Hlt.
    assert (Hbody : loop_body w' item st = loop_body w item st).
    { unfold loop_body.
      rewrite (retry_ext (chat_create w item (iteration st + 1) (messages st))
                         (chat_create w' item (iteration st + 1) (messages st)))
        by (intros a; apply Hagree; lia).
      destruct (response _) as [resp|]; [|reflexivity].
      destruct (String.eqb (finish_reason resp) "stop"); [reflexivity|].
      destruct (_ && _); [|reflexivity].
      rewrite (run_tool_calls_provider w w') by assumption. reflexivity. }
    rewrite Hbody.
    destruct (loop_body w item st) as [[st1 [|]]|e] eqn:Hb; try reflexivity.
    apply IH. pose proof (loop_body_iteration _ _ _ _ _ Hb). lia.
Qed.

(** A provider that asks for tools in every pass keeps the loop going to
    the cap, and the text stays empty. *)
Lemma agent_loop_never_stops (w : world) (item : nat) (cap : Z) (fuel : nat)
    (st : agent_state) :
  (forall k msgs, 1 <= k <= cap ->
     exists resp,
       response (_call_groq_with_retry (chat_create w item k msgs)) = Some resp /\
       finish_reason resp = "tool_calls" /\ tool_calls resp <> [] /\
       Forall arguments_ok (tool_calls resp)) ->
  0 <= iteration st <= Z.max 0 cap ->
  Z.max 0 cap - iteration st <= Z.of_nat fuel ->
  exists st', agent_loop w cap item fuel st = Ok st' /\
              iteration st' = Z.max 0 cap /\ final_text st' = final_text st.
Proof.
  intros Hreq. revert st. induction fuel as [|fuel IH]; intros st Hit Hf; simpl.
  - exists st. repeat split; auto. lia.
  - destruct (iteration st <? cap)%Z eqn:Hlt.
    + apply Z.ltb_lt in Hlt.
      destruct (Hreq (iteration st + 1) (messages st) ltac:(lia))
        as (resp & Hresp & Hfin & Hne & Hargs).
      unfold loop_body. rewrite Hresp, Hfin. simpl String.eqb.
      destruct (tool_calls resp) as [|tc tcs] eqn:Htcs; [congruence|].
      cbn [length Nat.eqb negb andb].
      match goal with
      | |- context [run_tool_calls w ?l ?s] =>
          destruct (run_tool_calls_returns w l s) as [st2 Hst2]; [assumption|];
          pose proof (run_tool_calls_keeps _ _ _ _ Hst2) as Hk; simpl in Hk;
          rewrite Hst2
      end.
      simpl. destruct Hk as (Hk1 & Hk2 & _).
      destruct (IH st2) as (st' & Hrun & Hi & Ht); [lia | lia |].
      exists st'. rewrite Hrun. repeat split; auto. congruence.
    + apply Z.ltb_ge in Hlt. exists st. repeat split; auto. lia.
Qed.

(** The loop raises only where [args.keys()] does. *)
Lemma run_tool_calls_raises (w : world) (tcs : list ToolCall) (st : agent_state) (e : exn) :
  run_tool_calls w tcs st = Raise e ->
  e = AttributeError "object has no attribute 'keys'".
Proof.
  revert st. induction tcs as [|tc tcs IH]; intros st H; simpl in H; [discriminate|].
  unfold decode_arguments in H.
  destruct (json_valid (tc_arguments tc)).
  - destruct (json_is_object (tc_arguments tc)); simpl in H.
    + destruct (execute_tool_returns (net w) (tc_name tc)
                  (decoded_object w (tc_arguments tc))) as [s Hs].
      rewrite Hs in H. simpl in H. eapply IH, H.
    + inversion H. reflexivity.
  - simpl in H.
    destruct (execute_tool_returns (net w) (tc_name tc) ∅) as [s Hs].
    rewrite Hs in H. simpl in H. eapply IH, H.
Qed.

Lemma agent_loop_raises (w : world) (item : nat) (cap : Z) (fuel : nat)
    (st : agent_state) (e : exn) :
  agent_loop w cap item fuel st = Raise e ->
  e = AttributeError "object has no attribute 'keys'".
Proof.
  revert st. induction fuel as [|fuel IH]; intros st H; simpl in H; [discriminate|].
  destruct (iteration st <? cap)%Z; [|discriminate].
  destruct (loop_body w item st) as [[st1 [|]]|e'] eqn:Hbody.
  - eapply IH, H.
  - discriminate.
  - inversion H; subst e'. clear H. unfold loop_body in Hbody.
    destruct (response _) as [resp|]; [|discriminate].
    destruct (String.eqb (finish_reason resp) "stop"); [discriminate|].
    destruct (_ && _); [|discriminate].
    match type of Hbody with
    | bind ?r _ = _ => destruct r as [st2|e2] eqn:Hrun; simpl in Hbody; [discriminate|]
    end.
    inversion Hbody; subst. eapply run_tool_calls_raises, Hrun.
Qed.

(** With arguments that decode to objects, or not at all, the loop returns. *)
Lemma agent_loop_returns (w : world) (item : nat) (cap : Z) (fuel : nat)
    (st : agent_state) :
  (forall k msgs resp,
     response (_call_groq_with_retry (chat_create w item k msgs)) = Some resp ->
     Forall arguments_ok (tool_calls resp)) ->
  exists st', agent_loop w cap item fuel st = Ok st'.
Proof.
  intros Hargs. revert st. induction fuel as [|fuel IH]; intros st; simpl; [eauto|].
  destruct (iteration st <? cap)%Z; [|eauto].
  unfold loop_body.
  destruct (response _) as [resp|] eqn:Hresp; [|eauto].
  destruct (String.eqb (finish_reason resp) "stop"); [eauto|].
  destruct (_ && _); [|eauto].
  match goal with
  | |- context [run_tool_calls w ?l ?s] =>
      destruct (run_tool_calls_returns w l s (Hargs _ _ _ Hresp)) as [st2 Hst2];
      rewrite Hst2
  end.
  simpl. apply IH.
Qed.



Example tool_loop_runs :
  match tool_loop default_settings always_tools 0 "Acme" None [] with
  | Ok st => (iteration st, tool_calls_count st, total_tokens st, length (messages st))
  | Raise _ => (0, 0, 0, 0%nat)
  end = (15, 15, 225, 32%nat).
Proof. vm_compute. reflexivity. Qed.

(** ** Batch submission *)

Lemma existsb_eqb_In (x : string) (l : list string) :
  existsb (String.eqb x) l = true <-> In x l.
Proof.
  rewrite existsb_exists. split.
  - intros (y & Hy & Heq). apply String.eqb_eq in Heq. subst. exact Hy.
  - intros H. exists x. split; [exact H | apply String.eqb_refl].
Qed.

Lemma existsb_same (x : string) (l l' : list string) :
  (forall y, In y l <-> In y l') ->
  existsb (String.eqb x) l = existsb (String.eqb x) l'.
Proof.
  intros H. destruct (existsb (String.eqb x) l) eqn:E, (existsb (String.eqb x) l') eqn:E';
    try reflexivity.
  - apply existsb_eqb_In, H, existsb_eqb_In in E. congruence.
  - apply existsb_eqb_In, H, existsb_eqb_In in E'. congruence.
Qed.

Lemma fromkeys_keep_first (l keys seen : list string) :
  (forall y, In y seen <-> In y keys) ->
  fold_left dict_setdefault l keys = keys ++ keep_first seen l.
Proof.
  revert keys seen. induction l as [|x l IH]; intros keys seen Hs; simpl.
  - symmetry. apply app_nil_r.
  - unfold dict_setdefault at 2.
    rewrite (existsb_same x seen keys Hs).
    destruct (existsb (String.eqb x) keys) eqn:E.
    + apply IH, Hs.
    + rewrite (IH (keys ++ [x]) (x :: seen)).
      * rewrite <- app_assoc. reflexivity.
      * intros y. simpl. rewrite in_app_iff, Hs. simpl. tauto.
Qed.

Lemma dict_fromkeys_first_occurrences (l : list string) :
  dict_fromkeys l = first_occurrences l.
Proof.
  unfold dict_fromkeys, first_occurrences.
  rewrite (fromkeys_keep_first l [] []); [reflexivity | tauto].
Qed.

Lemma keep_first_In (seen l : list string) (x : string) :
  In x (keep_first seen l) <-> In x l /\ ~ In x seen.
Proof.
  revert seen. induction l as [|y l IH]; intros seen; simpl.
  - tauto.
  - destruct (existsb (String.eqb y) seen) eqn:E.
    + apply existsb_eqb_In in E. rewrite IH. split.
      * tauto.
      * intros [[-> | H] Hn]; tauto.
    + assert (Hy : ~ In y seen).
      { intros H. apply existsb_eqb_In in H. congruence. }
      simpl. rewrite IH. simpl. split.
      * intros [-> | [H Hn]]; [tauto|]. split; [tauto|]. intros Hs. apply Hn. tauto.
      * intros [[-> | H] Hn]; [tauto|].
        destruct (string_dec y x) as [-> | Hne]; [tauto|]. right. split; [exact H|].
        intros [Heq | Hs]; tauto.
Qed.

Lemma keep_first_NoDup (seen l : list string) : List.NoDup (keep_first seen l).
Proof.
  revert seen. induction l as [|y l IH]; intros seen; simpl.
  - constructor.
  - destruct (existsb (String.eqb y) seen); [apply IH|].
    constructor; [|apply IH].
    rewrite keep_first_In. simpl. tauto.
Qed.

Lemma keep_first_length (seen l : list string) :
  (length (keep_first seen l) <= length l)%nat.
Proof.
  revert seen. induction l as [|y l IH]; intros seen; simpl.
  - lia.
  - destruct (existsb (String.eqb y) seen); simpl.
    + specialize (IH seen). lia.
    + specialize (IH (y :: seen)). lia.
Qed.

Lemma filter_length_le {A} (p : A -> bool) (l : list A) :
  (length (List.filter p l) <= length l)%nat.
Proof.
  induction l as [|a l IH]; simpl; [lia|]. destruct (p a); simpl; lia.
Qed.

Lemma normalize_length (raw : list string) :
  (length (normalize_companies raw) <= length raw)%nat.
Proof.
  unfold normalize_companies. rewrite dict_fromkeys_first_occurrences.
  unfold first_occurrences.
  etransitivity; [apply keep_first_length|].
  etransitivity; [apply filter_length_le|].
  rewrite length_map. lia.
Qed.

Lemma normalize_In (raw : list string) (c : string) :
  In c (normalize_companies raw) <-> c <> "" /\ exists r, In r raw /\ strip r = c.
Proof.
  unfold normalize_companies. rewrite dict_fromkeys_first_occurrences.
  unfold first_occurrences. rewrite keep_first_In, filter_In, in_map_iff.
  split.
  - intros [[(r & Hr & Hin) Hne] _]. split.
    + intros ->. discriminate Hne.
    + exists r. tauto.
  - intros [Hne (r & Hin & Hr)]. split; [|simpl; tauto]. split.
    + exists r. tauto.
    + destruct c; [congruence | reflexivity].
Qed.



Example create_job_shrinks :
  match create_job default_settings 0 1%N "task-1"
          {| jobs := []; enrichment_results := []; usage_logs := [] |} 7%N
          {| req_companies := [" Acme"; "Initech"; "  "; "Acme "; "Initech"];
             req_websites := ∅ |} with
  | Returned (_, job) => (companies (input_data job), total_items job)
  | HTTPException _ _ => ([], 0)
  end = (["Acme"; "Initech"], 2).
Proof. vm_compute. reflexivity. Qed.

(** ** What an agent call and an item step store *)

Lemma insert_result_ok (db db' : DB) (r : EnrichmentResult) :
  insert_result db r = Ok db' ->
  jobs db' = jobs db /\ usage_logs db' = usage_logs db /\
  enrichment_results db' = enrichment_results db ++ [r] /\
  existsb (uq_conflict r) (enrichment_results db) = false.
Proof.
  unfold insert_result. destruct (existsb _ _) eqn:E; [discriminate|].
  intros H. inversion H; subst. simpl. auto.
Qed.

(** An agent call that returns has stored one result row, for the job and
    name it was given, and one usage row; a call that raises has stored
    nothing.  The [jobs] table is not written. *)
Lemma enrich_company_stores (cfg : Settings) (w : world) (now : Z) (item : nat)
    (db : DB) (job : option UUID) (org : UUID) (company : string)
    (hint : option string) :
  match enrich_company cfg w now item db job org company hint with
  | (db', Ok row) =>
      jobs db' = jobs db /\
      enrichment_results db' = enrichment_results db ++ [row] /\
      er_job_id row = job /\ input_name row = company /\
      existsb (uq_conflict row) (enrichment_results db) = false /\
      exists u, usage_logs db' = usage_logs db ++ [u] /\
                ul_job_id u = job /\ ul_credits_consumed u = 1 /\
                ul_extra_data u !! "source" = None
  | (db', Raise _) => db' = db
  end.
Proof.
  unfold enrich_company.
  destruct (tool_loop cfg w item company hint []) as [st|e]; [|reflexivity].
  unfold _save_result. cbv zeta.
  destruct (insert_result db _) as [db1|e] eqn:Hins; simpl; [|reflexivity].
  apply insert_result_ok in Hins. destruct Hins as (Hj & Hu & Hr & Hc).
  repeat split; auto.
  eexists. repeat split; [rewrite Hu; reflexivity | reflexivity..].
Qed.

Lemma sql_update_checked_rows (id : UUID) (f : Job -> result Job)
    (R : Job -> Job -> Prop) (rows rows' : list Job) :
  (forall j j', f j = Ok j' -> R j j') ->
  sql_update_checked (has_id id) f rows = Ok rows' ->
  rows_of id R rows rows'.
Proof.
  intros Hf. revert rows'. induction rows as [|j rows IH]; intros rows' H; simpl in H.
  - inversion H. constructor.
  - destruct (has_id id j) eqn:Hid.
    + destruct (f j) as [j'|e] eqn:Hfj; simpl in H; [|discriminate].
      destruct (sql_update_checked (has_id id) f rows) as [rest|e]; simpl in H; [|discriminate].
      inversion H; subst. constructor; [|apply IH; reflexivity].
      rewrite Hid. apply Hf, Hfj.
    + simpl in H.
      destruct (sql_update_checked (has_id id) f rows) as [rest|e]; simpl in H; [|discriminate].
      inversion H; subst. constructor; [|apply IH; reflexivity].
      rewrite Hid. reflexivity.
Qed.

Lemma sql_update_rows (id : UUID) (f : Job -> Job) (R : Job -> Job -> Prop)
    (rows : list Job) :
  (forall j, R j (f j)) -> rows_of id R rows (sql_update (has_id id) f rows).
Proof.
  intros Hf. induction rows as [|j rows IH]; simpl; constructor; auto.
  destruct (has_id id j); auto.
Qed.

Lemma set_item_completed_step (j j' : Job) :
  set_item_completed j = Ok j' ->
  progressed 1 j j' /\ one_counter_up j j' /\ total_items j <> 0 /\
  progress_pct j' = (inject_Z (completed_items j + 1) / inject_Z (total_items j) * 100)%Q.
Proof.
  unfold set_item_completed, pct.
  destruct (Z.eqb_spec (total_items j) 0) as [Hz|Hz]; simpl; [discriminate|].
  intros H. inversion H; subst; clear H.
  unfold progressed, one_counter_up. simpl. repeat split; auto; lia.
Qed.

Lemma set_item_failed_step (j j' : Job) :
  set_item_failed j = Ok j' ->
  progressed 1 j j' /\ one_counter_up j j' /\ total_items j <> 0 /\
  progress_pct j'
    = (inject_Z (completed_items j + failed_items j + 1) / inject_Z (total_items j) * 100)%Q.
Proof.
  unfold set_item_failed, pct.
  destruct (Z.eqb_spec (total_items j) 0) as [Hz|Hz]; simpl; [discriminate|].
  intros H. inversion H; subst; clear H.
  unfold progressed, one_counter_up. simpl. repeat split; auto; lia.
Qed.

(** What one step of the orchestrator loop stores. *)
Lemma process_item_stores (cfg : Settings) (w : world) (now : Z) (db : DB)
    (id org : UUID) (sites : gmap string string) (i : nat) (company : string) :
  match process_item cfg w now db id org sites i company with
  | (db', None) =>
      rows_of id (fun j j' => progressed 1 j j' /\ one_counter_up j j')
              (jobs db) (jobs db') /\
      exists row,
        enrichment_results db' = enrichment_results db ++ [row] /\
        er_job_id row = Some id /\ input_name row = company /\
        existsb (uq_conflict row) (enrichment_results db) = false /\
        ((exists u, usage_logs db' = usage_logs db ++ [u; batch_usage cfg id org company] /\
                    ul_job_id u = Some id /\ ul_extra_data u !! "source" = None) \/
         (usage_logs db' = usage_logs db /\ er_status row = "failed"))
  | (db', Some _) =>
      jobs db' = jobs db /\
      (db' = db \/
       exists row u,
         enrichment_results db' = enrichment_results db ++ [row] /\
         er_job_id row = Some id /\ input_name row = company /\
         existsb (uq_conflict row) (enrichment_results db) = false /\
         usage_logs db' = usage_logs db ++ [u])
  end.
Proof.
  unfold process_item.
  pose proof (enrich_company_stores cfg w now i db (Some id) org company
                (py_or (sites !! company) (sites !! pretty i))) as Hag.
  destruct (enrich_company cfg w now i db (Some id) org company _) as [db1 [row|e]].
  - destruct Hag as (Hj & Hr & Hid & Hn & Hc & u & Hu & Huj & _ & Hsrc).
    destruct (sql_update_checked (has_id id) set_item_completed _) as [js|e] eqn:Hup.
    + simpl. split.
      * rewrite <- Hj.
        eapply sql_update_checked_rows; [|exact Hup].
        intros j j' H. apply set_item_completed_step in H. tauto.
      * exists row. repeat split; auto. left. exists u.
        rewrite Hu, <- app_assoc. auto.
    + split; [exact Hj|]. right. exists row, u. auto.
  - subst db1.
    destruct (insert_result db (failed_row now id org company e)) as [db2|e'] eqn:Hins.
    + apply insert_result_ok in Hins. destruct Hins as (Hj & Hu & Hr & Hc).
      destruct (sql_update_checked (has_id id) set_item_failed (jobs db2)) as [js|e'] eqn:Hup.
      * simpl. split.
        -- rewrite <- Hj.
           eapply sql_update_checked_rows; [|exact Hup].
           intros j j' H. apply set_item_failed_step in H. tauto.
        -- exists (failed_row now id org company e). repeat split; auto.
      * split; auto.
    + split; auto.
Qed.

(** ** Usage rows *)

(** C3, as stated, fails: for a batch item whose agent call returns, the
    agent stores its usage row and the orchestrator stores another one.  A
    batch of one name ends with one result row and two usage rows. *)
Lemma usage_rows_doubled :
  let step := process_item default_settings (always_stop (js "{'name': 'Acme'}")) 0
                sample_db 1%N 7%N ∅ 0 "Acme" in
  snd step = None /\
  length (enrichment_results (fst step)) = 1%nat /\
  length (usage_logs (fst step)) = 2%nat /\
  map ul_credits_consumed (usage_logs (fst step)) = [1; 1].
Proof. vm_compute. repeat split. Qed.

(** C3 (amended): an agent call that returns stores exactly one result row
    and exactly one usage row, and one that raises stores nothing.  A step of
    the orchestrator that completes stores exactly one result row for its
    item; if the agent call returned, the orchestrator appends a usage row of
    its own after the agent's, so the item has two usage rows; if the agent
    call raised, the item has the orchestrator's failed result row and no
    usage row. *)
Theorem usage_rows_per_item (cfg : Settings) (w : world) (now : Z) (db : DB)
    (id org : UUID) (sites : gmap string string) (i : nat) (company : string) :
  (forall job hint,
     match enrich_company cfg w now i db job org company hint with
     | (db', Ok row) =>
         enrichment_results db' = enrichment_results db ++ [row] /\
         exists u, usage_logs db' = usage_logs db ++ [u]
     | (db', Raise _) => db' = db
     end) /\
  (forall db', process_item cfg w now db id org sites i company = (db', None) ->
     exists row,
       enrichment_results db' = enrichment_results db ++ [row] /\
       er_job_id row = Some id /\ input_name row = company /\
       match snd (enrich_company cfg w now i db (Some id) org company
                    (py_or (sites !! company) (sites !! pretty i))) with
       | Ok row' =>
           row = row' /\
           exists u, usage_logs db' = usage_logs db ++ [u; batch_usage cfg id org company]
       | Raise e =>
           row = failed_row now id org company e /\ usage_logs db' = usage_logs db
       end).
Proof.
  split.
  - intros job hint.
    pose proof (enrich_company_stores cfg w now i db job org company hint) as H.
    destruct (enrich_company cfg w now i db job org company hint) as [db' [row|e]]; auto.
    destruct H as (_ & Hr & _ & _ & _ & u & Hu & _). eauto.
  - intros db' H. unfold process_item in H.
    pose proof (enrich_company_stores cfg w now i db (Some id) org company
                  (py_or (sites !! company) (sites !! pretty i))) as Hag.
    destruct (enrich_company cfg w now i db (Some id) org company _) as [db1 [row|e]];
      simpl.
    + destruct Hag as (Hj & Hr & Hid & Hn & Hc & u & Hu & _).
      destruct (sql_update_checked (has_id id) set_item_completed _) as [js|e];
        inversion H; subst; clear H. simpl.
      exists row. repeat split; auto. exists u. rewrite Hu, <- app_assoc. reflexivity.
    + subst db1.
      destruct (insert_result db (failed_row now id org company e)) as [db2|e'] eqn:Hins;
        [|discriminate].
      apply insert_result_ok in Hins. destruct Hins as (Hj & Hu & Hr & Hc).
      destruct (sql_update_checked (has_id id) set_item_failed (jobs db2)) as [js|e'];
        inversion H; subst; clear H. simpl.
      exists (failed_row now id org company e). repeat split; auto.
Qed.

Lemma usage_rows_per_item_witness :
  exists row u,
    enrichment_results
      (fst (process_item default_settings (always_stop (js "{'name': 'Acme'}")) 0
              sample_db 1%N 7%N ∅ 0 "Acme")) = [row] /\
    usage_logs
      (fst (process_item default_settings (always_stop (js "{'name': 'Acme'}")) 0
              sample_db 1%N 7%N ∅ 0 "Acme"))
      = [u; batch_usage default_settings 1%N 7%N "Acme"].
Proof.
  destruct (usage_rows_per_item default_settings (always_stop (js "{'name': 'Acme'}")) 0
              sample_db 1%N 7%N ∅ 0 "Acme") as (_ & H).
  destruct (process_item default_settings (always_stop (js "{'name': 'Acme'}")) 0
              sample_db 1%N 7%N ∅ 0 "Acme") as [db' ab] eqn:Hstep.
  assert (Hab : ab = None).
  { change ab with (snd (db', ab)). rewrite <- Hstep. vm_compute. reflexivity. }
  subst ab.
  destruct (H db' eq_refl) as (row & Hr & _ & _ & Hm).
  destruct (snd (enrich_company _ _ _ _ _ _ _ _ _)) as [row'|e] eqn:Hag.
  - destruct Hm as (_ & u & Hu). exists row, u. simpl. split; assumption.
  - exfalso. revert Hag. vm_compute. discriminate.
Defined.

(** ** Progress counters *)

Lemma rows_of_refl (id : UUID) (R : Job -> Job -> Prop) (rows : list Job) :
  (forall j, R j j) -> rows_of id R rows rows.
Proof.
  intros HR. induction rows as [|j rows IH]; constructor; auto.
  destruct (has_id id j); auto.
Qed.

Lemma rows_of_impl (id : UUID) (R R' : Job -> Job -> Prop) (rows rows' : list Job) :
  (forall j j', R j j' -> R' j j') -> rows_of id R rows rows' -> rows_of id R' rows rows'.
Proof.
  intros HR H. induction H as [|j j' rows rows' Hj _ IH]; constructor; auto.
  destruct (has_id id j); auto.
Qed.

Lemma rows_of_trans (id : UUID) (R1 R2 R : Job -> Job -> Prop) (a b c : list Job) :
  (forall j j', R1 j j' -> job_id j' = job_id j) ->
  (forall j j' j'', R1 j j' -> R2 j' j'' -> R j j'') ->
  rows_of id R1 a b -> rows_of id R2 b c -> rows_of id R a c.
Proof.
  intros Hid HR Hab. revert c. induction Hab as [|j j' a b Hj _ IH]; intros c Hbc.
  - inversion Hbc. constructor.
  - inversion Hbc as [|? j'' ? c' Hj' Hbc']; subst. constructor; [|apply IH, Hbc'].
    unfold has_id in *. destruct (N.eqb (job_id j) id) eqn:E.
    + rewrite (Hid _ _ Hj), E in Hj'. eapply HR; eauto.
    + subst j'. rewrite E in Hj'. exact Hj'.
Qed.

Lemma rows_of_find (id : UUID) (R : Job -> Job -> Prop) (rows rows' : list Job) :
  (forall j j', R j j' -> job_id j' = job_id j) ->
  rows_of id R rows rows' ->
  match List.find (has_id id) rows with
  | Some j => exists j', List.find (has_id id) rows' = Some j' /\ R j j'
  | None => List.find (has_id id) rows' = None
  end.
Proof.
  intros Hid H. induction H as [|j j' rows rows' Hj _ IH]; simpl; [reflexivity|].
  destruct (has_id id j) eqn:E.
  - assert (E' : has_id id j' = true).
    { unfold has_id in *. rewrite (Hid _ _ Hj). exact E. }
    rewrite E'. eauto.
  - subst j'. rewrite E. exact IH.
Qed.

Lemma progressed_id (n : nat) (j j' : Job) : progressed n j j' -> job_id j' = job_id j.
Proof. unfold progressed. tauto. Qed.

Lemma progressed_zero (j : Job) : progressed 0 j j.
Proof. unfold progressed. repeat split; lia. Qed.

Lemma progressed_add (n m : nat) (j j' j'' : Job) :
  progressed n j j' -> progressed m j' j'' -> progressed (n + m) j j''.
Proof.
  unfold progressed. intros (A1 & A2 & A3 & A4 & A5 & A6) (B1 & B2 & B3 & B4 & B5 & B6).
  repeat split; try congruence; lia.
Qed.

(** After the loop has gone through [cs], every row of the job has moved
    [n] steps, where [n] is the length of [cs] unless an exception ended the
    run before. *)
Lemma process_items_progress (cfg : Settings) (w : world) (now : Z)
    (id org : UUID) (sites : gmap string string) (cs : list string) :
  forall (db : DB) (i : nat),
    exists n, (n <= length cs)%nat /\
      (snd (process_items cfg w now db id org sites i cs) = None -> n = length cs) /\
      rows_of id (progressed n) (jobs db)
              (jobs (fst (process_items cfg w now db id org sites i cs))).
Proof.
  induction cs as [|c cs IH]; intros db i; simpl.
  - exists 0%nat. repeat split; auto. apply rows_of_refl, progressed_zero.
  - pose proof (process_item_stores cfg w now db id org sites i c) as Hst.
    destruct (process_item cfg w now db id org sites i c) as [db1 [e|]].
    + exists 0%nat. simpl. repeat split; [lia | discriminate |].
      destruct Hst as [-> _]. apply rows_of_refl, progressed_zero.
    + destruct Hst as [Hrows _].
      destruct (IH db1 (S i)) as (n & Hn & Hall & Hrows').
      exists (S n). repeat split; [lia | intros H; rewrite (Hall H); reflexivity |].
      eapply (rows_of_trans id _ _ _ _ _ _ _ _ Hrows Hrows').
      Unshelve.
      * intros j j' [H _]. apply (progressed_id _ _ _ H).
      * intros j j' j'' [H1 _] H2. apply (progressed_add 1 n _ _ _ H1 H2).
Qed.

Lemma find_app_fresh (id : UUID) (rows : list Job) (j : Job) :
  List.find (has_id id) rows = None -> job_id j = id ->
  List.find (has_id id) (rows ++ [j]) = Some j.
Proof.
  intros Hnone Hj. induction rows as [|r rows IH]; simpl in *.
  - unfold has_id. rewrite Hj, N.eqb_refl. reflexivity.
  - destruct (has_id id r); [discriminate|]. auto.
Qed.

Lemma create_job_row (cfg : Settings) (now : Z) (new_id : UUID) (task_id : string)
    (db db0 : DB) (org : UUID) (req : CreateJobRequest) (job : Job) :
  get_job db new_id = None ->
  create_job cfg now new_id task_id db org req = Returned (db0, job) ->
  job = new_job now new_id task_id org req /\
  get_job db0 new_id = Some job /\
  enrichment_results db0 = enrichment_results db.
Proof.
  intros Hfresh H. unfold create_job in H.
  destruct (req_companies req); [discriminate|].
  destruct (_ >? 500)%Z; [discriminate|].
  destruct (_ >=? _)%Z; [discriminate|].
  inversion H; subst; clear H. repeat split.
  unfold get_job. simpl. apply find_app_fresh; auto.
Qed.

Lemma set_running_keeps (now : Z) (task : string) (j : Job) :
  progressed 0 j (set_running now task j).
Proof. unfold progressed. simpl. repeat split; lia. Qed.

Lemma set_completed_keeps (now : Z) (j : Job) :
  progressed 0 j (set_completed now j) /\ status (set_completed now j) = "completed".
Proof. unfold progressed. simpl. repeat split; lia. Qed.

Lemma mark_running_rows (now : Z) (task : string) (db : DB) (id : UUID) :
  rows_of id (progressed 0) (jobs db) (jobs (mark_running now task db id)).
Proof. apply sql_update_rows. intros j. apply set_running_keeps. Qed.

Lemma mark_completed_rows (now : Z) (db : DB) (id : UUID) :
  rows_of id (fun j j' => progressed 0 j j' /\ status j' = "completed")
          (jobs db) (jobs (mark_completed now db id)).
Proof. apply sql_update_rows. intros j. apply set_completed_keeps. Qed.

(** The rows of a job after [Phase 1] and the loop over [cs]. *)
Lemma run_prefix_rows (cfg : Settings) (w : world) (now : Z) (task : string)
    (db : DB) (id org : UUID) (sites : gmap string string) (cs : list string) :
  exists n, (n <= length cs)%nat /\
    (snd (process_items cfg w now (mark_running now task db id) id org sites 0 cs) = None ->
     n = length cs) /\
    rows_of id (progressed n) (jobs db)
      (jobs (fst (process_items cfg w now (mark_running now task db id) id org sites 0 cs))).
Proof.
  destruct (process_items_progress cfg w now id org sites cs
              (mark_running now task db id) 0%nat) as (n & Hn & Hall & Hrows).
  exists n. repeat split; auto.
  eapply (rows_of_trans id (progressed 0) (progressed n)).
  - apply progressed_id.
  - intros j j' j'' H1 H2. apply (progressed_add 0 n _ _ _ H1 H2).
  - apply mark_running_rows.
  - exact Hrows.
Qed.

(** The first run of a job as [create_job] stores it: after any prefix
    [pre] of its names the two counters add up to the number of names gone
    through, and after the run to [total_items]. *)
Lemma first_run_counters (cfg : Settings) (w : world) (now : Z)
    (new_id : UUID) (task_id run_task : string) (db db0 : DB) (org : UUID)
    (req : CreateJobRequest) (job : Job) (pre post : list string) :
  get_job db new_id = None ->
  create_job cfg now new_id task_id db org req = Returned (db0, job) ->
  companies (input_data job) = pre ++ post ->
  let during := process_items cfg w now (mark_running now run_task db0 new_id)
                  new_id org (websites (input_data job)) 0 pre in
  let after := _run_job cfg w now run_task db0 new_id org in
  total_items job = Z.of_nat (length (companies (input_data job))) /\
  (exists j, get_job (fst during) new_id = Some j /\
     total_items j = total_items job /\
     0 <= completed_items j /\ 0 <= failed_items j /\
     completed_items j + failed_items j <= Z.of_nat (length pre) <= total_items j /\
     (snd during = None ->
      completed_items j + failed_items j = Z.of_nat (length pre))) /\
  (exists j, get_job (fst after) new_id = Some j /\
     total_items j = total_items job /\
     0 <= completed_items j /\ 0 <= failed_items j /\
     completed_items j + failed_items j <= total_items j /\
     (snd after = None ->
      completed_items j + failed_items j = total_items j /\ status j = "completed")) /\
  (forall db1 i company db2 j,
     process_item cfg w now db1 new_id org (websites (input_data job)) i company
       = (db2, None) ->
     get_job db1 new_id = Some j ->
     exists j', get_job db2 new_id = Some j' /\ one_counter_up j j').
Proof.
  intros Hfresh Hcreate Hsplit. cbv zeta.
  destruct (create_job_row _ _ _ _ _ _ _ _ _ Hfresh Hcreate) as (Hjob & Hget & _).
  assert (Htotal : total_items job = Z.of_nat (length (companies (input_data job)))).
  { subst job. reflexivity. }
  assert (Hzero : completed_items job = 0 /\ failed_items job = 0).
  { subst job. split; reflexivity. }
  split; [exact Htotal|]. split; [|split].
  - destruct (run_prefix_rows cfg w now run_task db0 new_id org
                (websites (input_data job)) pre) as (n & Hn & Hall & Hrows).
    pose proof (rows_of_find new_id _ _ _ (progressed_id n) Hrows) as Hfind.
    unfold get_job in *. rewrite Hget in Hfind.
    destruct Hfind as (j & Hj & Hp). exists j.
    destruct Hp as (_ & Ht & _ & Hc & Hf & Hsum).
    destruct Hzero as [Hz1 Hz2]. rewrite Hz1, Hz2 in *.
    split_and!; auto; try lia.
    + rewrite Ht, Htotal, Hsplit, length_app. lia.
    + intros Hnone. rewrite (Hall Hnone) in Hsum. lia.
  - unfold _run_job. rewrite Hget.
    destruct (run_prefix_rows cfg w now run_task db0 new_id org
                (websites (input_data job)) (companies (input_data job)))
      as (n & Hn & Hall & Hrows).
    destruct (process_items cfg w now (mark_running now run_task db0 new_id) new_id org
                (websites (input_data job)) 0 (companies (input_data job)))
      as [db2 [e|]]; simpl in *.
    + pose proof (rows_of_find new_id _ _ _ (progressed_id n) Hrows) as Hfind.
      unfold get_job in *. rewrite Hget in Hfind.
      destruct Hfind as (j & Hj & Hp). exists j.
      destruct Hp as (_ & Ht & _ & Hc & Hf & Hsum).
      destruct Hzero as [Hz1 Hz2]. rewrite Hz1, Hz2 in *.
      split_and!; auto; try lia. discriminate.
    + assert (Hrows2 : rows_of new_id
                (fun j j' => progressed n j j' /\ status j' = "completed")
                (jobs db0) (jobs (mark_completed now db2 new_id))).
      { eapply (rows_of_trans new_id (progressed n)
                  (fun j j' => progressed 0 j j' /\ status j' = "completed")).
        - apply progressed_id.
        - intros j j' j'' H1 [H2 H3]. split; [|exact H3].
          replace n with (n + 0)%nat by lia. apply (progressed_add _ _ _ _ _ H1 H2).
        - exact Hrows.
        - apply mark_completed_rows. }
      pose proof (rows_of_find new_id _ _ _
                    (fun j j' H => progressed_id n j j' (proj1 H)) Hrows2) as Hfind.
      unfold get_job in *. rewrite Hget in Hfind.
      destruct Hfind as (j & Hj & Hp & Hs). exists j.
      destruct Hp as (_ & Ht & _ & Hc & Hf & Hsum).
      destruct Hzero as [Hz1 Hz2]. rewrite Hz1, Hz2 in *.
      rewrite (Hall eq_refl) in Hsum.
      split_and!; auto; try lia. intros _. split; [lia | exact Hs].
  - intros db1 i company db2 j Hstep Hj.
    pose proof (process_item_stores cfg w now db1 new_id org
                  (websites (input_data job)) i company) as Hst.
    rewrite Hstep in Hst. destruct Hst as [Hrows _].
    pose proof (rows_of_find new_id _ _ _
                  (fun j j' H => progressed_id 1 j j' (proj1 H)) Hrows) as Hfind.
    unfold get_job in *. rewrite Hj in Hfind.
    destruct Hfind as (j' & Hj' & _ & Hup). eauto.
Qed.

(** C2 fails on the code: the two counters never decrease, but the progress
    fraction does.  The statement for a completed item sets it from
    [completed_items] alone, the statement for a failed item from both
    counters, so a success after two failures takes it from 200/3 back to
    100/3. *)
Theorem progress_pct_drops :
  let after cs :=
    jobs (fst (process_items default_settings two_bad_items 0
                 (mark_running 0 "run-1" sample_db 1%N) 1%N 7%N ∅ 0 cs)) in
  map (fun j => (completed_items j, failed_items j, progress_pct j))
      (after ["Acme"; "Initech"]) = [(0, 2, (200 # 3)%Q)] /\
  map (fun j => (completed_items j, failed_items j, progress_pct j))
      (after ["Acme"; "Initech"; "Hooli"]) = [(1, 2, (100 # 3)%Q)] /\
  (100 # 3 < 200 # 3)%Q.
Proof. vm_compute. repeat split. Qed.

(** The two counters themselves only grow, whatever the items do. *)
Lemma counters_never_decrease (cfg : Settings) (w : world) (now : Z) (db : DB)
    (id org : UUID) (sites : gmap string string) (i : nat) (cs : list string) (j : Job) :
  get_job db id = Some j ->
  exists j', get_job (fst (process_items cfg w now db id org sites i cs)) id = Some j' /\
             completed_items j <= completed_items j' /\
             failed_items j <= failed_items j'.
Proof.
  intros Hj.
  destruct (process_items_progress cfg w now id org sites cs db i) as (n & _ & _ & Hrows).
  pose proof (rows_of_find id _ _ _ (progressed_id n) Hrows) as Hfind.
  unfold get_job in *. rewrite Hj in Hfind.
  destruct Hfind as (j' & Hj' & Hp). exists j'.
  unfold progressed in Hp. tauto.
Qed.

(** ** Terminal statuses *)

Lemma sql_update_keeps_terminal (where_ : Job -> bool) (set_ : Job -> Job)
    (rows : list Job) :
  (forall j, where_ j = true -> terminal (status j) = false) ->
  keeps_terminal rows (sql_update where_ set_ rows).
Proof.
  intros Hw. induction rows as [|j rows IH]; simpl; constructor; auto.
  destruct (where_ j) eqn:E; [|reflexivity].
  intros Ht. rewrite (Hw j E) in Ht. discriminate.
Qed.

Lemma status_in_active_not_terminal (j : Job) :
  (status_in ["queued"; "running"] j = true \/ status_in ["running"; "queued"] j = true) ->
  terminal (status j) = false.
Proof.
  unfold status_in, terminal. simpl.
  intros [H | H];
    repeat (apply orb_prop in H; destruct H as [H | H]); try discriminate H;
    apply String.eqb_eq in H; rewrite H; reflexivity.
Qed.

(** The guarded statements (the failed and partial markers and the
    staleness sweep) leave a terminal row as it is, and a terminal job cannot
    be cancelled. *)
Lemma guarded_updates_keep_terminal (now : Z) (db : DB) (id org : UUID) (msg : string) :
  keeps_terminal (jobs db) (jobs (_mark_job_failed now db id msg)) /\
  keeps_terminal (jobs db) (jobs (_mark_job_partial now db id msg)) /\
  keeps_terminal (jobs db) (jobs (fst (stuck_job_cleanup now db))) /\
  (forall j, get_job db id = Some j -> terminal (status j) = true ->
             exists code detail, cancel_job now db id org = HTTPException code detail).
Proof.
  split_and!.
  - apply sql_update_keeps_terminal. intros j H.
    apply andb_prop in H. destruct H as [_ H].
    apply status_in_active_not_terminal. auto.
  - apply sql_update_keeps_terminal. intros j H.
    apply andb_prop in H. destruct H as [_ H].
    apply String.eqb_eq in H. unfold terminal. rewrite H. reflexivity.
  - apply sql_update_keeps_terminal. intros j H.
    apply andb_prop in H. destruct H as [H _].
    apply status_in_active_not_terminal. auto.
  - intros j Hj Ht. unfold cancel_job. rewrite Hj.
    destruct (negb (N.eqb (organization_id j) org)); [eauto|].
    destruct (status_in ["queued"; "running"] j) eqn:E; simpl; [|eauto].
    rewrite (status_in_active_not_terminal j (or_introl E)) in Ht. discriminate.
Qed.

(** C1 fails on the code: the last statement of a run sets
    [status = 'completed'] with no condition on the status.  A job that was
    cancelled while its run went on is completed by that run; the guarded
    statements leave the cancelled row alone.  A run delivered again for the
    cancelled job sets it to running in its first statement. *)
Theorem completion_overwrites_terminal_status :
  let w := always_stop "{}" in
  let started := mark_running 1 "run-1" sample_db 1%N in
  let first := fst (process_items default_settings w 2 started 1%N 7%N ∅ 0 ["Acme"]) in
  let cancelled := match cancel_job 3 first 1%N 7%N with
                   | Returned db => db
                   | HTTPException _ _ => first
                   end in
  let rest := fst (process_items default_settings w 4 cancelled 1%N 7%N ∅ 1
                     ["Initech"; "Hooli"]) in
  map status (jobs cancelled) = ["cancelled"] /\
  map status (jobs rest) = ["cancelled"] /\
  map status (jobs (mark_completed 5 rest 1%N)) = ["completed"] /\
  map status (jobs (_mark_job_failed 5 rest 1%N "boom")) = ["cancelled"] /\
  map status (jobs (_mark_job_partial 5 rest 1%N "time limit")) = ["cancelled"] /\
  map status (jobs (fst (stuck_job_cleanup 100000 rest))) = ["cancelled"] /\
  map status (jobs (fst (_run_job default_settings w 6 "run-2" cancelled 1%N 7%N)))
    = ["running"].
Proof. vm_compute. repeat split. Qed.

(** ** One result row for a job and a name *)

Lemma uq_grow (rows : list EnrichmentResult) (row : EnrichmentResult) :
  (forall id name, (length (rows_for id name rows) <= 1)%nat) ->
  existsb (uq_conflict row) rows = false ->
  forall id name, (length (rows_for id name (rows ++ [row])) <= 1)%nat.
Proof.
  intros Huq Hc id name. unfold rows_for in *. rewrite List.filter_app, length_app. simpl.
  destruct (er_job_id row) as [j|] eqn:Hj; [|simpl; specialize (Huq id name); lia].
  destruct (N.eqb j id && String.eqb (input_name row) name) eqn:Hm;
    [|simpl; specialize (Huq id name); lia].
  apply andb_prop in Hm. destruct Hm as [Hid Hname].
  apply N.eqb_eq in Hid. apply String.eqb_eq in Hname. subst j name.
  match goal with |- (length ?l + _ <= _)%nat => destruct l as [|r' l'] eqn:Hl end;
    [simpl; lia|].
  exfalso.
  assert (Hin : In r' (List.filter
            (fun r => match er_job_id r with
                      | Some j => N.eqb j id && String.eqb (input_name r) (input_name row)
                      | None => false
                      end) rows)) by (rewrite Hl; left; reflexivity).
  apply filter_In in Hin. destruct Hin as [Hin Hp].
  assert (Hex : existsb (uq_conflict row) rows = true).
  { apply existsb_exists. exists r'. split; [exact Hin|].
    unfold uq_conflict. rewrite Hj.
    destruct (er_job_id r') as [j'|]; [|discriminate].
    apply andb_prop in Hp. destruct Hp as [Hp1 Hp2].
    apply N.eqb_eq in Hp1. apply String.eqb_eq in Hp2. subst j'.
    rewrite N.eqb_refl, Hp2, String.eqb_refl. reflexivity. }
  congruence.
Qed.

Lemma process_item_unique (cfg : Settings) (w : world) (now : Z) (db : DB)
    (id org : UUID) (sites : gmap string string) (i : nat) (company : string) :
  uq_results_job_company db ->
  uq_results_job_company (fst (process_item cfg w now db id org sites i company)).
Proof.
  intros Huq.
  pose proof (process_item_stores cfg w now db id org sites i company) as H.
  destruct (process_item cfg w now db id org sites i company) as [db' [e|]]; simpl.
  - destruct H as [_ [-> | (row & u & Hr & _ & _ & Hc & _)]]; [exact Huq|].
    unfold uq_results_job_company. rewrite Hr. apply uq_grow; assumption.
  - destruct H as [_ (row & Hr & _ & _ & Hc & _)].
    unfold uq_results_job_company. rewrite Hr. apply uq_grow; assumption.
Qed.

Lemma process_items_unique (cfg : Settings) (w : world) (now : Z)
    (id org : UUID) (sites : gmap string string) (cs : list string) :
  forall (db : DB) (i : nat),
    uq_results_job_company db ->
    uq_results_job_company (fst (process_items cfg w now db id org sites i cs)).
Proof.
  induction cs as [|c cs IH]; intros db i Huq; simpl; [exact Huq|].
  pose proof (process_item_unique cfg w now db id org sites i c Huq) as H.
  destruct (process_item cfg w now db id org sites i c) as [db' [e|]]; simpl in *.
  - exact H.
  - apply IH, H.
Qed.


(** ** JSON extraction *)

(** *** Texts *)

Lemma append_cons (x : ascii) (a b : string) : String x a +:+ b = String x (a +:+ b).
Proof. reflexivity. Qed.

Lemma append_nil_l (b : string) : "" +:+ b = b.
Proof. reflexivity. Qed.

Ltac simpl_append := rewrite ?append_cons, ?append_nil_l; simpl.

Lemma append_assoc (a b c : string) : (a +:+ b) +:+ c = a +:+ (b +:+ c).
Proof.
  induction a as [|x a IH]; [reflexivity|].
  rewrite !append_cons, IH. reflexivity.
Qed.

Lemma append_nil_r (a : string) : a +:+ "" = a.
Proof.
  induction a as [|x a IH]; [reflexivity|].
  rewrite append_cons, IH. reflexivity.
Qed.

Lemma rstrip_where_head (p : ascii -> bool) (c : ascii) (s : string) :
  p c = false -> exists r, rstrip_where p (String c s) = String c r.
Proof.
  intros Hc. simpl. destruct (rstrip_where p s); [rewrite Hc|]; eauto.
Qed.

Lemma rstrip_where_idem (p : ascii -> bool) (s : string) :
  rstrip_where p (rstrip_where p s) = rstrip_where p s.
Proof.
  induction s as [|c s IH]; simpl; [reflexivity|].
  destruct (rstrip_where p s) as [|c' r] eqn:E.
  - destruct (p c) eqn:Hc; simpl; [reflexivity | rewrite Hc; reflexivity].
  - change (rstrip_where p (String c (String c' r)) = String c (String c' r)).
    cbn [rstrip_where]. cbn [rstrip_where] in IH. rewrite IH. reflexivity.
Qed.

Lemma rstrip_where_app (p : ascii -> bool) (a b : string) :
  rstrip_where p b <> "" -> rstrip_where p (a +:+ b) = a +:+ rstrip_where p b.
Proof.
  intros Hb. induction a as [|c a IH]; simpl_append; [reflexivity|].
  rewrite IH. destruct (a +:+ rstrip_where p b) eqn:E; [|reflexivity].
  destruct a; [rewrite append_nil_l in E; contradiction|].
  rewrite append_cons in E. discriminate.
Qed.

Lemma rstrip_where_snoc (p : ascii -> bool) (s : string) (c : ascii) :
  p c = true -> rstrip_where p (s +:+ String c "") = rstrip_where p s.
Proof.
  intros Hc. induction s as [|x s IH]; simpl_append; [rewrite Hc; reflexivity|].
  rewrite IH. reflexivity.
Qed.

Lemma rstrip_where_fixed (p : ascii -> bool) (s : string) :
  rstrip_where p s = s \/ exists s' c, s = s' +:+ String c "" /\ p c = true.
Proof.
  induction s as [|x s IH]; simpl; [left; reflexivity|].
  destruct IH as [IH | (s' & c & -> & Hc)].
  - rewrite IH. destruct s as [|y s].
    + destruct (p x) eqn:Hx; [|left; reflexivity].
      right. exists "", x. auto.
    + left. reflexivity.
  - right. exists (String x s'), c. auto.
Qed.

Lemma startswith_brace (s : string) :
  startswith "{" s = true <-> exists r, s = String "{" r.
Proof.
  split.
  - destruct s as [|c s]; simpl; [discriminate|].
    destruct (Ascii.eqb_spec "{" c) as [<-|]; [eauto | discriminate].
  - intros [r ->]. reflexivity.
Qed.

Lemma search_partial_head (s u : string) :
  search_partial s = Some u -> exists r, u = String "{" r.
Proof.
  induction s as [|c s IH]; simpl; [discriminate|].
  destruct (Ascii.eqb_spec c "{") as [-> | _]; [|exact IH].
  intros H. inversion H. eauto.
Qed.

Lemma search_partial_app (pre u : string) :
  search_partial pre = None -> startswith "{" u = true ->
  search_partial (pre +:+ u) = Some u.
Proof.
  intros Hpre Hu. induction pre as [|c pre IH]; simpl_append.
  - apply startswith_brace in Hu. destruct Hu as [r ->]. reflexivity.
  - simpl in Hpre. destruct (Ascii.eqb c "{"); [discriminate | auto].
Qed.

Lemma upto_last_close_head (c : ascii) (s g : string) :
  upto_last_close (String c s) = Some g -> c <> "}"%char -> exists r, g = String c r.
Proof.
  simpl. destruct (upto_last_close s).
  - intros H _. inversion H. eauto.
  - destruct (Ascii.eqb_spec c "}"); [congruence | discriminate].
Qed.

Lemma lazy_object_head (c : ascii) (s g : string) :
  lazy_object (String c s) = Some g -> c <> "}"%char -> exists r, g = String c r.
Proof.
  simpl. destruct (Ascii.eqb_spec c "}"); [congruence|]. simpl.
  destruct (lazy_object s); simpl; [|discriminate].
  intros H _. inversion H. eauto.
Qed.

Lemma search_fenced_head (s g : string) :
  search_fenced s = Some g -> startswith "{" g = true.
Proof.
  induction s as [|c s IH].
  - simpl. discriminate.
  - cbn [search_fenced].
    destruct (fenced_here (String c s)) as [g'|] eqn:E; [|exact IH].
    intros H. inversion H; subst g'. clear H.
    unfold fenced_here in E.
    destruct (startswith fence (String c s)); [|discriminate].
    match type of E with
    | (if startswith "{" ?r then _ else _) = _ =>
        destruct (startswith "{" r) eqn:Hr; [|discriminate];
        apply startswith_brace in Hr; destruct Hr as [r' Hr]; rewrite Hr in E
    end.
    apply lazy_object_head in E; [|discriminate].
    apply startswith_brace. exact E.
Qed.

Lemma search_braces_head (s g : string) :
  search_braces s = Some g -> startswith "{" g = true.
Proof.
  unfold search_braces. destruct (search_partial s) as [u|] eqn:E; [|discriminate].
  apply search_partial_head in E. destruct E as [r ->].
  intros H. apply upto_last_close_head in H; [|discriminate].
  apply startswith_brace. exact H.
Qed.

Lemma repair_head (r : string) : startswith "{" (repair (String "{" r)) = true.
Proof.
  unfold repair, rstrip.
  destruct (rstrip_where_head py_isspace "{" r eq_refl) as [r1 ->].
  destruct (rstrip_where_head is_comma "{" r1 eq_refl) as [r2 ->].
  reflexivity.
Qed.

(** *** The recogniser *)

Lemma jrun_app (q : jstate) (a b : string) :
  jrun q (a +:+ b) = match jrun q a with
                     | Some q' => jrun q' b
                     | None => None
                     end.
Proof.
  revert q. induction a as [|c a IH]; intros q; simpl_append; [reflexivity|].
  destruct (jstep q c); [apply IH | reflexivity].
Qed.

Lemma start_value_ok (stack : list frame) (c : ascii) (q : jstate) :
  start_value stack c = Some q -> mode_ok q.
Proof.
  unfold start_value.
  repeat match goal with
         | |- (if ?b then _ else _) = _ -> _ => destruct b
         end; intros H; inversion H; subst; exact I || reflexivity.
Qed.

Lemma after_value_ok (stack : list frame) (c : ascii) (q : jstate) :
  after_value stack c = Some q -> mode_ok q.
Proof.
  unfold after_value.
  repeat match goal with
         | |- (if ?b then _ else _) = _ -> _ => destruct b
         | |- match ?s with _ => _ end = _ -> _ => destruct s as [|[] ?]
         end; intros H; inversion H; subst; exact I.
Qed.

Lemma all_letters_tail (c : ascii) (s : string) :
  all_letters (String c s) = true -> is_letter c = true /\ all_letters s = true.
Proof. simpl. intros H. apply andb_prop in H. exact H. Qed.

Lemma jstep_ok (q q' : jstate) (c : ascii) :
  mode_ok q -> jstep q c = Some q' -> mode_ok q'.
Proof.
  destruct q as [m stack]. intros Hok H. unfold jstep in H.
  destruct m as [| | | | | |k|k|k n|rest| | | | | | | |];
    try destruct k;
    try (destruct rest as [|c' [|c'' rest]];
         [discriminate H
         |destruct (Ascii.eqb c c'); [inversion H; subst; exact I | discriminate H]
         |destruct (Ascii.eqb c c'); [|discriminate H];
          inversion H; subst;
          apply all_letters_tail in Hok; exact (proj2 Hok)]);
    repeat match type of H with
           | (if ?b then _ else _) = _ => destruct b
           | match ?s with _ => _ end = _ => is_var s; destruct s
           | start_value _ _ = _ => apply start_value_ok in H; exact H
           | after_value _ _ = _ => apply after_value_ok in H; exact H
           end;
    try discriminate H; try (inversion H; subst; exact I || reflexivity).
Qed.

Lemma jrun_ok (s : string) (q q' : jstate) :
  mode_ok q -> jrun q s = Some q' -> mode_ok q'.
Proof.
  revert q. induction s as [|c s IH]; intros q Hok H; simpl in H.
  - inversion H; subst. exact Hok.
  - destruct (jstep q c) as [q1|] eqn:E; [|discriminate].
    eapply IH; [|exact H]. eapply jstep_ok; eauto.
Qed.

Lemma letter_not_close (c : ascii) :
  is_letter c = true -> Ascii.eqb "}" c = false /\ Ascii.eqb "," c = false
                        /\ Ascii.eqb newline c = false.
Proof.
  intros H. split_and!;
    match goal with
    | |- Ascii.eqb ?x c = false =>
        destruct (Ascii.eqb_spec x c) as [<-|]; [discriminate H | reflexivity]
    end.
Qed.

(** A closing brace that ends the text can be moved to a line of its own. *)
Lemma close_on_new_line (q q' : jstate) :
  mode_ok q -> jstep q "}" = Some q' -> jaccepting q' = true ->
  exists q1 q2, jstep q newline = Some q1 /\ jstep q1 "}" = Some q2 /\
                jaccepting q2 = true.
Proof.
  destruct q as [m stack]. intros Hok H Hacc.
  destruct m as [| | | | | |k|k|k n|rest| | | | | | | |];
    try destruct k.
  all: try solve
    [ destruct rest as [|c' rest]; [discriminate H|];
      apply all_letters_tail in Hok; destruct Hok as [Hl _];
      apply letter_not_close in Hl; destruct Hl as [Hl _];
      unfold jstep in H; rewrite Hl in H; discriminate H ].
  all: destruct stack as [|[] [|f stack]];
    vm_compute in H; try discriminate H;
    inversion H; subst; try discriminate Hacc;
    do 2 eexists; split_and!; vm_compute; reflexivity.
Qed.

(** No text that decodes ends in a comma and a closing brace. *)
Lemma comma_then_close (q q1 q2 : jstate) :
  mode_ok q -> jstep q "," = Some q1 -> jstep q1 "}" = Some q2 ->
  jaccepting q2 = false.
Proof.
  destruct q as [m stack]. intros Hok H1 H2.
  destruct m as [| | | | | |k|k|k n|rest| | | | | | | |];
    try destruct k.
  all: try solve
    [ destruct rest as [|c' rest]; [discriminate H1|];
      apply all_letters_tail in Hok; destruct Hok as [Hl _];
      apply letter_not_close in Hl; destruct Hl as (_ & Hl & _);
      unfold jstep in H1; rewrite Hl in H1; discriminate H1 ].
  all: destruct stack as [|[] stack];
    vm_compute in H1; try discriminate H1;
    inversion H1; subst;
    vm_compute in H2; try discriminate H2;
    inversion H2; subst; reflexivity.
Qed.

Lemma mode_ok_start : mode_ok (MValue, []).
Proof. exact I. Qed.

Lemma valid_close_on_new_line (o : string) :
  json_valid (o +:+ "}") = true -> json_valid (o +:+ String newline "}") = true.
Proof.
  unfold json_valid. rewrite !jrun_app.
  destruct (jrun (MValue, []) o) as [q|] eqn:Hq; [|discriminate].
  pose proof (jrun_ok _ _ _ mode_ok_start Hq) as Hok.
  cbn [jrun].
  destruct (jstep q "}") as [q'|] eqn:Hstep; [|discriminate].
  intros Hacc.
  destruct (close_on_new_line q q' Hok Hstep Hacc) as (q1 & q2 & H1 & H2 & H3).
  rewrite H1, H2. exact H3.
Qed.

Lemma is_comma_eq (c : ascii) : is_comma c = true -> c = ","%char.
Proof. unfold is_comma. intros H. apply Ascii.eqb_eq in H. exact H. Qed.

Lemma valid_no_trailing_comma (o : string) :
  json_valid (o +:+ "}") = true -> rstrip_where is_comma o = o.
Proof.
  intros Hv. destruct (rstrip_where_fixed is_comma o) as [H | (s & c & -> & Hc)]; [exact H|].
  exfalso. apply is_comma_eq in Hc. subst c.
  unfold json_valid in Hv. rewrite !jrun_app in Hv.
  destruct (jrun (MValue, []) s) as [q|] eqn:Hq; [|discriminate].
  pose proof (jrun_ok _ _ _ mode_ok_start Hq) as Hok.
  cbn [jrun] in Hv.
  destruct (jstep q ",") as [q1|] eqn:H1; [|discriminate].
  destruct (jstep q1 "}") as [q2|] eqn:H2; [|discriminate].
  rewrite (comma_then_close q q1 q2 Hok H1 H2) in Hv. discriminate.
Qed.

(** *** The candidates *)

Lemma parsed_valid (c : option string) (g : string) :
  parsed c = Some g -> c = Some g /\ json_valid g = true.
Proof.
  destruct c as [g'|]; simpl; [|discriminate].
  destruct (json_valid g') eqn:E; [|discriminate].
  intros H. inversion H; subst. auto.
Qed.

Lemma extract_json_first_parsing (text : string) :
  _extract_json text = first_parsing (candidates text).
Proof.
  destruct text as [|c0 text0]; [reflexivity|].
  unfold _extract_json, candidates, first_parsing. cbv zeta.
  set (t := strip (String c0 text0)).
  destruct (startswith "{" t).
  - simpl. destruct (json_valid t); [reflexivity|]. simpl.
    rewrite !List.filter_app.
    destruct (search_fenced t) as [g1|]; simpl;
      [destruct (json_valid g1); [reflexivity|] |];
      (destruct (search_braces t) as [g0|]; simpl;
       [destruct (json_valid g0); [reflexivity|] |];
       (destruct (search_partial t) as [u|]; simpl;
        [destruct (json_valid (repair u)); reflexivity | reflexivity])).
  - simpl. rewrite !List.filter_app.
    destruct (search_fenced t) as [g1|]; simpl;
      [destruct (json_valid g1); [reflexivity|] |];
      (destruct (search_braces t) as [g0|]; simpl;
       [destruct (json_valid g0); [reflexivity|] |];
       (destruct (search_partial t) as [u|]; simpl;
        [destruct (json_valid (repair u)); reflexivity | reflexivity])).
Qed.

Lemma candidates_head (text c : string) :
  In c (candidates text) -> startswith "{" c = true.
Proof.
  unfold candidates. cbv zeta. rewrite !in_app_iff.
  intros [H | [H | [H | H]]].
  - destruct (startswith "{" (strip text)) eqn:E; [|contradiction].
    destruct H as [<- | []]. exact E.
  - destruct (search_fenced (strip text)) as [g|] eqn:E; [|contradiction].
    destruct H as [<- | []]. eapply search_fenced_head, E.
  - destruct (search_braces (strip text)) as [g|] eqn:E; [|contradiction].
    destruct H as [<- | []]. eapply search_braces_head, E.
  - destruct (search_partial (strip text)) as [u|] eqn:E; [|contradiction].
    destruct H as [<- | []]. apply search_partial_head in E. destruct E as [r ->].
    apply repair_head.
Qed.

Lemma first_parsing_some (cs : list string) (c : string) :
  first_parsing cs = Some c -> In c cs /\ json_valid c = true.
Proof.
  unfold first_parsing. intros H.
  destruct (List.filter json_valid cs) as [|c' l] eqn:E; [discriminate|].
  inversion H; subst c'.
  assert (Hin : In c (List.filter json_valid cs)) by (rewrite E; left; reflexivity).
  apply filter_In in Hin. exact Hin.
Qed.

Lemma first_parsing_in (cs : list string) (c : string) :
  In c cs -> json_valid c = true -> exists c', first_parsing cs = Some c'.
Proof.
  intros Hin Hv. unfold first_parsing.
  destruct (List.filter json_valid cs) as [|c' l] eqn:E; [|simpl; eauto].
  assert (H : In c (List.filter json_valid cs)) by (apply filter_In; auto).
  rewrite E in H. contradiction.
Qed.

Lemma object_of_head (c : string) :
  json_valid c = true -> startswith "{" c = true -> json_is_object c = true.
Proof.
  intros Hv Hs. unfold json_is_object. rewrite Hv. simpl.
  apply startswith_brace in Hs. destruct Hs as [r ->]. reflexivity.
Qed.

Lemma extract_json_object (text c : string) :
  _extract_json text = Some c -> json_is_object c = true.
Proof.
  rewrite extract_json_first_parsing. intros H.
  apply first_parsing_some in H. destruct H as [Hin Hv].
  apply object_of_head; [exact Hv|]. eapply candidates_head, Hin.
Qed.

Lemma strip_rstrip (text : string) : rstrip (strip text) = strip text.
Proof. unfold strip, rstrip. apply rstrip_where_idem. Qed.

(** A truncated object that begins at the first opening brace of the text
    is repaired into a candidate that decodes. *)
Lemma truncated_is_candidate (text pre o tail : string) :
  strip text = pre +:+ o +:+ tail ->
  search_partial pre = None ->
  startswith "{" o = true ->
  tail = "" \/ tail = "," ->
  json_valid (o +:+ "}") = true ->
  In (o +:+ String newline "}") (candidates text) /\
  json_valid (o +:+ String newline "}") = true.
Proof.
  intros Hstrip Hpre Ho Htail Hv.
  split; [|apply valid_close_on_new_line, Hv].
  assert (Hu : startswith "{" (o +:+ tail) = true).
  { apply startswith_brace in Ho. destruct Ho as [r ->].
    rewrite append_cons. reflexivity. }
  assert (Hsearch : search_partial (strip text) = Some (o +:+ tail)).
  { rewrite Hstrip. apply search_partial_app; assumption. }
  assert (Hr : rstrip (o +:+ tail) = o +:+ tail).
  { pose proof (strip_rstrip text) as H. rewrite Hstrip in H.
    unfold rstrip in *. rewrite rstrip_where_app in H.
    - apply (inj (String.app pre)) in H. exact H.
    - apply startswith_brace in Hu. destruct Hu as [r ->].
      destruct (rstrip_where_head py_isspace "{" r eq_refl) as [r' ->]. discriminate. }
  assert (Hrepair : repair (o +:+ tail) = o +:+ String newline "}").
  { unfold repair. rewrite Hr. f_equal.
    destruct Htail as [-> | ->].
    - rewrite append_nil_r. apply valid_no_trailing_comma, Hv.
    - rewrite rstrip_where_snoc by reflexivity. apply valid_no_trailing_comma, Hv. }
  unfold candidates. cbv zeta. rewrite Hsearch. simpl option_map.
  rewrite Hrepair, !in_app_iff. right. right. right. left. reflexivity.
Qed.




(** The recogniser on texts that [json.loads] accepts and rejects. *)
Example json_valid_accepts :
  forallb json_valid
    [js "{'a': 1}"; "-Infinity"; js "'\u12af'"; " 12 "; js "{'a' : [ ] , 'b':{}}";
     "-0"; "0e1"; "1E+5"; "NaN"; js "'\/'"; "[[], {}]"; "true"; "null"] = true.
Proof. vm_compute. reflexivity. Qed.

Example json_valid_rejects :
  existsb json_valid
    ["[01]"; js "{'a': 1,}"; "1.e5"; "nul"; ""; js "'\u+1a2'"; "-"; "1e"; "[1,]";
     js "{'a':1}x"; "-NaN"; "Infinityx"; js "'\x'"; "00"; "-01"; "2."; ".5"; "[,]";
     "{,}"; "1 2"; "true false"; js "{'a' 1}"; js "{a: 1}"] = false.
Proof. vm_compute. reflexivity. Qed.

Example extract_json_samples :
  _extract_json (js "{'a': 1}") = Some (js "{'a': 1}") /\
  _extract_json (js "Here: ```json {'a': [1, 2.5e3, true]} ``` done")
    = Some (js "{'a': [1, 2.5e3, true]}") /\
  _extract_json (js "The profile is {'name': 'Acme'} as asked.")
    = Some (js "{'name': 'Acme'}") /\
  _extract_json (js "x {'a': {'b': 'c'}, 'd': -0.5,")
    = Some (js "{'a': {'b': 'c'}, 'd': -0.5" +:+ String newline "}") /\
  _extract_json "" = None /\ _extract_json "no object here" = None.
Proof. vm_compute. repeat split. Qed.

(** ** What holds in every reachable database *)

Lemma job_rows_app (id : UUID) (rows : list EnrichmentResult) (r : EnrichmentResult) :
  job_rows id (rows ++ [r])
  = job_rows id rows ++ (if match er_job_id r with
                            | Some j => N.eqb j id
                            | None => false
                            end then [r] else []).
Proof. unfold job_rows. rewrite List.filter_app. reflexivity. Qed.

Lemma rows_for_job_rows (id : UUID) (name : string) (rows : list EnrichmentResult) :
  rows_for id name rows
  = List.filter (fun r => String.eqb (input_name r) name) (job_rows id rows).
Proof.
  unfold rows_for, job_rows. induction rows as [|r rows IH]; simpl; [reflexivity|].
  destruct (er_job_id r) as [j|]; [|exact IH].
  destruct (N.eqb j id); simpl; [|exact IH].
  destruct (String.eqb (input_name r) name); rewrite IH; reflexivity.
Qed.

Lemma names_nodup (l : list EnrichmentResult) :
  (forall name,
     (length (List.filter (fun r => String.eqb (input_name r) name) l) <= 1)%nat) ->
  List.NoDup (map input_name l).
Proof.
  induction l as [|r l IH]; intros H; simpl; constructor.
  - intros Hin. apply in_map_iff in Hin. destruct Hin as (r' & Hn & Hin).
    specialize (H (input_name r)). simpl in H. rewrite String.eqb_refl in H. simpl in H.
    assert (Hf : In r' (List.filter (fun x => String.eqb (input_name x) (input_name r)) l)).
    { apply filter_In. split; [exact Hin|]. rewrite Hn. apply String.eqb_refl. }
    destruct (List.filter _ l); [contradiction | simpl in H; lia].
  - apply IH. intros name. specialize (H name). simpl in H.
    destruct (String.eqb (input_name r) name); simpl in H; lia.
Qed.

Lemma job_rows_bound (db : DB) (id : UUID) (cs : list string) :
  uq_results_job_company db ->
  (forall r, In r (job_rows id (enrichment_results db)) -> In (input_name r) cs) ->
  (length (job_rows id (enrichment_results db)) <= length cs)%nat.
Proof.
  intros Huq Hin.
  rewrite <- (length_map input_name).
  apply List.NoDup_incl_length.
  - apply names_nodup. intros name. rewrite <- rows_for_job_rows. apply Huq.
  - intros n Hn. apply in_map_iff in Hn. destruct Hn as (r & <- & Hr). apply Hin, Hr.
Qed.

Lemma find_has_id (id : UUID) (rows : list Job) (j : Job) :
  List.find (has_id id) rows = Some j -> In j rows /\ job_id j = id.
Proof.
  intros H. apply find_some in H. destruct H as [Hin Hid].
  split; [exact Hin|]. apply N.eqb_eq. exact Hid.
Qed.

Lemma find_unique (rows : list Job) (j : Job) :
  List.NoDup (map job_id rows) -> In j rows ->
  List.find (has_id (job_id j)) rows = Some j.
Proof.
  induction rows as [|r rows IH]; intros Hnd Hin; simpl in *; [contradiction|].
  inversion Hnd as [|? ? Hnotin Hnd']; subst.
  destruct Hin as [-> | Hin].
  - unfold has_id. rewrite N.eqb_refl. reflexivity.
  - unfold has_id at 1. destruct (N.eqb_spec (job_id r) (job_id j)) as [E|_]; [|auto].
    exfalso. apply Hnotin. rewrite E. apply in_map, Hin.
Qed.

Lemma same_counts_refl (j : Job) : same_counts j j.
Proof. unfold same_counts. auto. Qed.

Lemma sql_update_same_counts (where_ : Job -> bool) (set_ : Job -> Job) (rows : list Job) :
  (forall j, same_counts j (set_ j)) ->
  Forall2 same_counts rows (sql_update where_ set_ rows).
Proof.
  intros H. induction rows as [|j rows IH]; simpl; constructor; auto.
  destruct (where_ j); [apply H | apply same_counts_refl].
Qed.

Lemma forall2_ids (R : Job -> Job -> Prop) (rows rows' : list Job) :
  (forall j j', R j j' -> job_id j' = job_id j) ->
  Forall2 R rows rows' -> map job_id rows' = map job_id rows.
Proof.
  intros HR H. induction H as [|j j' rows rows' Hj _ IH]; simpl; [reflexivity|].
  rewrite (HR _ _ Hj), IH. reflexivity.
Qed.

Lemma forall2_in_r (R : Job -> Job -> Prop) (rows rows' : list Job) (j' : Job) :
  Forall2 R rows rows' -> In j' rows' -> exists j, In j rows /\ R j j'.
Proof.
  intros H. induction H as [|j0 j0' rows rows' Hj _ IH]; simpl; [contradiction|].
  intros [<- | Hin]; [eauto|]. destruct (IH Hin) as (j & Hj' & HR). eauto.
Qed.

Lemma forall2_in_l (R : Job -> Job -> Prop) (rows rows' : list Job) (j : Job) :
  Forall2 R rows rows' -> In j rows -> exists j', In j' rows' /\ R j j'.
Proof.
  intros H. induction H as [|j0 j0' rows rows' Hj _ IH]; simpl; [contradiction|].
  intros [<- | Hin]; [eauto|]. destruct (IH Hin) as (j' & Hj' & HR). eauto.
Qed.

(** Statements that write no counter and no result row keep the invariant. *)
Lemma inv_same_counts (db : DB) (rows' : list Job) :
  db_inv db -> Forall2 same_counts (jobs db) rows' -> db_inv (with_jobs db rows').
Proof.
  intros (Hnd & Huq & Hfk & Hjobs) H2. unfold db_inv. simpl. split_and!.
  - rewrite (forall2_ids same_counts _ _ (fun j j' H => proj1 H) H2). exact Hnd.
  - exact Huq.
  - intros r id Hr Hid. destruct (Hfk r id Hr Hid) as (j & Hj & Hjid).
    destruct (forall2_in_l _ _ _ j H2 Hj) as (j' & Hj' & Hs).
    exists j'. split; [exact Hj'|]. destruct Hs as [-> _]. exact Hjid.
  - apply List.Forall_forall. intros j' Hj'.
    destruct (forall2_in_r _ _ _ j' H2 Hj') as (j & Hj & (E1 & E2 & E3 & E4 & E5)).
    rewrite List.Forall_forall in Hjobs. specialize (Hjobs j Hj).
    unfold job_inv in *. rewrite E1, E2, E3, E4, E5. exact Hjobs.
Qed.

Lemma rows_of_ids (id : UUID) (n : nat) (rows rows' : list Job) :
  rows_of id (progressed n) rows rows' -> map job_id rows' = map job_id rows.
Proof.
  apply forall2_ids. intros j j' H.
  destruct (has_id id j); [apply (progressed_id n), H | subst; reflexivity].
Qed.

(** A result row added for a name of the job, with at most one step of its
    counters, keeps the invariant. *)
Lemma inv_grow (db db' : DB) (id : UUID) (job : Job) (row : EnrichmentResult) (n : nat) :
  db_inv db ->
  get_job db id = Some job ->
  In (input_name row) (companies (input_data job)) ->
  (n <= 1)%nat ->
  rows_of id (progressed n) (jobs db) (jobs db') ->
  enrichment_results db' = enrichment_results db ++ [row] ->
  er_job_id row = Some id ->
  existsb (uq_conflict row) (enrichment_results db) = false ->
  db_inv db'.
Proof.
  intros (Hnd & Huq & Hfk & Hjobs) Hget Hname Hn Hrows Hres Hid Hc.
  destruct (find_has_id _ _ _ Hget) as [Hjob_in Hjob_id].
  unfold db_inv. split_and!.
  - rewrite (rows_of_ids _ _ _ _ Hrows). exact Hnd.
  - unfold uq_results_job_company. rewrite Hres. apply uq_grow; assumption.
  - intros r id' Hr Hid'. rewrite Hres in Hr. apply in_app_iff in Hr.
    assert (Hsame : forall j, In j (jobs db) -> exists j', In j' (jobs db') /\ job_id j' = job_id j).
    { intros j Hj. destruct (forall2_in_l _ _ _ j Hrows Hj) as (j' & Hj' & HR).
      exists j'. split; [exact Hj'|].
      destruct (has_id id j); [apply (progressed_id n), HR | subst; reflexivity]. }
    destruct Hr as [Hr | [<- | []]].
    + destruct (Hfk r id' Hr Hid') as (j & Hj & Hjid).
      destruct (Hsame j Hj) as (j' & Hj' & E). exists j'. split; [exact Hj' | congruence].
    + destruct (Hsame job Hjob_in) as (j' & Hj' & E). exists j'.
      split; [exact Hj' | congruence].
  - apply List.Forall_forall. intros j' Hj'.
    destruct (forall2_in_r _ _ _ j' Hrows Hj') as (j & Hj & HR).
    rewrite List.Forall_forall in Hjobs. specialize (Hjobs j Hj).
    destruct Hjobs as (Ht & Hc0 & Hf0 & Hsum & Hnames & Hdistinct).
    rewrite Hres. unfold job_inv.
    destruct (has_id id j) eqn:Hh.
    + assert (Hjid : job_id j = id) by (apply N.eqb_eq; exact Hh).
      assert (Hjj : j = job).
      { pose proof (find_unique _ _ Hnd Hj) as Hf. rewrite Hjid in Hf.
        unfold get_job in Hget. congruence. }
      destruct HR as (E1 & E2 & E3 & E4 & E5 & E6).
      rewrite E1, E2, E3, Hjid, job_rows_app, Hid, N.eqb_refl, length_app.
      rewrite Hjid in Hsum, Hnames. simpl length.
      split_and!; try lia; try assumption.
      intros r Hr. apply in_app_iff in Hr. destruct Hr as [Hr | [<- | []]].
      * apply Hnames, Hr.
      * rewrite Hjj. exact Hname.
    + subst j'.
      assert (Hne : N.eqb id (job_id j) = false).
      { unfold has_id in Hh. rewrite N.eqb_sym. exact Hh. }
      rewrite job_rows_app, Hid, Hne, app_nil_r.
      split_and!; assumption.
Qed.

(** A result row outside any job keeps the invariant. *)
Lemma inv_grow_single (db db' : DB) (row : EnrichmentResult) :
  db_inv db ->
  jobs db' = jobs db ->
  enrichment_results db' = enrichment_results db ++ [row] ->
  er_job_id row = None ->
  existsb (uq_conflict row) (enrichment_results db) = false ->
  db_inv db'.
Proof.
  intros (Hnd & Huq & Hfk & Hjobs) Hj Hres Hid Hc.
  unfold db_inv. rewrite Hj, Hres. split_and!.
  - exact Hnd.
  - unfold uq_results_job_company. rewrite Hres. apply uq_grow; assumption.
  - intros r id Hr Hrid. apply in_app_iff in Hr. destruct Hr as [Hr | [<- | []]].
    + apply (Hfk r id Hr Hrid).
    + congruence.
  - eapply List.Forall_impl; [|exact Hjobs].
    intros j Hinv. unfold job_inv in *. rewrite job_rows_app, Hid, app_nil_r. exact Hinv.
Qed.

Lemma inv_create (cfg : Settings) (now : Z) (new_id : UUID) (task_id : string)
    (db db' : DB) (org : UUID) (req : CreateJobRequest) (job : Job) :
  db_inv db ->
  get_job db new_id = None ->
  create_job cfg now new_id task_id db org req = Returned (db', job) ->
  db_inv db'.
Proof.
  intros (Hnd & Huq & Hfk & Hjobs) Hfresh Hcreate.
  assert (Hnew : forall j, In j (jobs db) -> job_id j <> new_id).
  { intros j Hj E. unfold get_job in Hfresh.
    pose proof (find_none _ _ Hfresh j Hj) as H. unfold has_id in H.
    rewrite E, N.eqb_refl in H. discriminate. }
  assert (Hdb' : db' = with_jobs db (jobs db ++ [new_job now new_id task_id org req])).
  { unfold create_job in Hcreate.
    destruct (req_companies req); [discriminate|].
    destruct (_ >? 500)%Z; [discriminate|].
    destruct (_ >=? _)%Z; [discriminate|].
    inversion Hcreate. reflexivity. }
  subst db'. unfold db_inv. simpl. split_and!.
  - rewrite map_app. simpl. apply List.NoDup_app.
    + exact Hnd.
    + constructor; [intros [] | constructor].
    + intros x Hx Hx'.
      apply in_map_iff in Hx. destruct Hx as (j & <- & Hj).
      destruct Hx' as [E | []]. apply (Hnew j Hj). symmetry. exact E.
  - exact Huq.
  - intros r id Hr Hid. destruct (Hfk r id Hr Hid) as (j & Hj & E).
    exists j. split; [apply in_app_iff; left; exact Hj | exact E].
  - apply List.Forall_app. split; [exact Hjobs|]. constructor; [|constructor].
    assert (Hnone : job_rows new_id (enrichment_results db) = []).
    { destruct (job_rows new_id (enrichment_results db)) as [|r l] eqn:E; [reflexivity|].
      exfalso.
      assert (Hr : In r (job_rows new_id (enrichment_results db))) by (rewrite E; left; reflexivity).
      apply filter_In in Hr. destruct Hr as [Hr Hm].
      destruct (er_job_id r) as [j|] eqn:Hj; [|discriminate].
      apply N.eqb_eq in Hm. subst j.
      destruct (Hfk r new_id Hr Hj) as (j & Hjin & Hjid). apply (Hnew j Hjin Hjid). }
    unfold job_inv, new_job. simpl. rewrite Hnone. simpl.
    split_and!; try lia; try reflexivity.
    unfold normalize_companies. rewrite dict_fromkeys_first_occurrences.
    apply keep_first_NoDup.
Qed.

Lemma set_running_same (now : Z) (task : string) (j : Job) :
  same_counts j (set_running now task j).
Proof. unfold same_counts. simpl. auto. Qed.

Lemma set_completed_same (now : Z) (j : Job) : same_counts j (set_completed now j).
Proof. unfold same_counts. simpl. auto. Qed.

Lemma set_ended_same (s msg : string) (now : Z) (j : Job) :
  same_counts j (set_ended s msg now j).
Proof. unfold same_counts. simpl. auto. Qed.

Lemma set_cancelled_same (now : Z) (j : Job) : same_counts j (set_cancelled now j).
Proof. unfold same_counts. simpl. auto. Qed.

Lemma lookup_In (l : list string) (i : nat) (x : string) : l !! i = Some x -> In x l.
Proof.
  revert i. induction l as [|y l IH]; intros [|i] H; simpl in *; try discriminate.
  - inversion H. auto.
  - right. eapply IH, H.
Qed.

Lemma statement_inv (cfg : Settings) (db db' : DB) :
  db_inv db -> statement cfg db db' -> db_inv db'.
Proof.
  intros Hinv Hst. destruct Hst.
  - eapply inv_create; eauto.
  - apply inv_same_counts; [exact Hinv|].
    apply sql_update_same_counts, set_running_same.
  - pose proof (process_item_stores cfg w now db id org (websites (input_data job))
                  i company) as Hs.
    pose proof (lookup_In _ _ _ H0) as Hin.
    destruct (process_item cfg w now db id org (websites (input_data job)) i company)
      as [db1 [e|]]; simpl.
    + destruct Hs as [Hj [-> | (row & u & Hr & Hid & Hn & Hc & _)]]; [exact Hinv|].
      eapply (inv_grow db db1 id job row 0); eauto.
      * rewrite Hn. exact Hin.
      * rewrite Hj. apply rows_of_refl, progressed_zero.
    + destruct Hs as [Hrows (row & Hr & Hid & Hn & Hc & _)].
      eapply (inv_grow db db1 id job row 1); eauto.
      * rewrite Hn. exact Hin.
      * eapply rows_of_impl; [|exact Hrows]. intros j j' [Hp _]. exact Hp.
  - apply inv_same_counts; [exact Hinv|].
    apply sql_update_same_counts, set_completed_same.
  - apply inv_same_counts; [exact Hinv|].
    apply sql_update_same_counts, set_ended_same.
  - apply inv_same_counts; [exact Hinv|].
    apply sql_update_same_counts, set_ended_same.
  - apply inv_same_counts; [exact Hinv|].
    apply sql_update_same_counts, set_ended_same.
  - unfold cancel_job in H.
    destruct (get_job db id) as [job|]; [|discriminate].
    destruct (negb _); [discriminate|].
    destruct (negb _); [discriminate|].
    inversion H; subst.
    apply inv_same_counts; [exact Hinv|].
    apply sql_update_same_counts, set_cancelled_same.
  - pose proof (enrich_company_stores cfg w now 0 db None org company website) as Hs.
    destruct (enrich_company cfg w now 0 db None org company website) as [db1 [row|e]];
      simpl.
    + destruct Hs as (Hj & Hr & Hid & _ & Hc & _).
      eapply inv_grow_single; eauto.
    + subst db1. exact Hinv.
Qed.

Lemma empty_inv : db_inv empty_db.
Proof.
  unfold db_inv, empty_db. simpl. split_and!.
  - constructor.
  - intros id name. simpl. lia.
  - intros r id [].
  - constructor.
Qed.

Lemma reachable_inv (cfg : Settings) (db : DB) : reachable cfg db -> db_inv db.
Proof.
  induction 1 as [|db db' _ IH Hst]; [apply empty_inv|].
  eapply statement_inv; eauto.
Qed.

(** The bound that the invariant gives. *)
Lemma inv_bound (db : DB) (j : Job) :
  db_inv db -> In j (jobs db) ->
  total_items j = Z.of_nat (length (companies (input_data j))) /\
  0 <= completed_items j /\ 0 <= failed_items j /\
  completed_items j + failed_items j <= total_items j.
Proof.
  intros (Hnd & Huq & Hfk & Hjobs) Hj.
  rewrite List.Forall_forall in Hjobs.
  destruct (Hjobs j Hj) as (Ht & Hc & Hf & Hsum & Hnames & _).
  pose proof (job_rows_bound db (job_id j) (companies (input_data j)) Huq Hnames).
  split_and!; auto; lia.
Qed.

(** *** A run is a sequence of statements *)

Lemma process_items_reachable (cfg : Settings) (w : world) (now : Z)
    (id org : UUID) (job : Job) (cs : list string) :
  forall (db : DB) (i : nat) (j : Job),
    reachable cfg db ->
    get_job db id = Some j -> input_data j = input_data job ->
    (forall k c, cs !! k = Some c -> companies (input_data job) !! (i + k)%nat = Some c) ->
    reachable cfg
      (fst (process_items cfg w now db id org (websites (input_data job)) i cs)).
Proof.
  induction cs as [|c cs IH]; intros db i j Hreach Hget Hdata Hcs; simpl; [exact Hreach|].
  assert (Hst : statement cfg db
            (fst (process_item cfg w now db id org (websites (input_data job)) i c))).
  { rewrite <- Hdata. eapply st_item; [exact Hget|].
    rewrite Hdata. rewrite <- (Nat.add_0_r i). apply Hcs. reflexivity. }
  pose proof (process_item_stores cfg w now db id org (websites (input_data job)) i c)
    as Hs.
  destruct (process_item cfg w now db id org (websites (input_data job)) i c)
    as [db1 [e|]]; simpl in *.
  - eapply reach_next; eauto.
  - destruct Hs as [Hrows _].
    pose proof (rows_of_find id _ _ _
                  (fun j j' H => progressed_id 1 j j' (proj1 H)) Hrows) as Hfind.
    unfold get_job in Hget. rewrite Hget in Hfind.
    destruct Hfind as (j1 & Hj1 & (Hp & _)).
    apply (IH db1 (S i) j1).
    + eapply reach_next; eauto.
    + exact Hj1.
    + destruct Hp as (_ & _ & Hd & _). congruence.
    + intros k c' Hk. replace (S i + k)%nat with (i + S k)%nat by lia.
      apply Hcs. exact Hk.
Qed.

Lemma run_prefix_reachable (cfg : Settings) (w : world) (now : Z) (task : string)
    (db : DB) (id org : UUID) (job : Job) (pre post : list string) :
  reachable cfg db ->
  get_job db id = Some job ->
  companies (input_data job) = pre ++ post ->
  reachable cfg
    (fst (process_items cfg w now (mark_running now task db id) id org
            (websites (input_data job)) 0 pre)).
Proof.
  intros Hreach Hget Hsplit.
  pose proof (rows_of_find id _ _ _ (progressed_id 0) (mark_running_rows now task db id))
    as Hfind.
  unfold get_job in Hget. rewrite Hget in Hfind. destruct Hfind as (j1 & Hj1 & Hp).
  eapply (process_items_reachable cfg w now id org job pre _ 0%nat j1).
  - eapply reach_next; [exact Hreach|]. eapply st_start. exact Hget.
  - exact Hj1.
  - destruct Hp as (_ & _ & Hd & _). exact Hd.
  - intros k c Hk. simpl. rewrite Hsplit. apply lookup_app_l_Some. exact Hk.
Qed.

Lemma run_job_reachable (cfg : Settings) (w : world) (now : Z) (task : string)
    (db : DB) (id org : UUID) :
  reachable cfg db -> reachable cfg (fst (_run_job cfg w now task db id org)).
Proof.
  intros Hreach. unfold _run_job.
  destruct (get_job db id) as [job|] eqn:Hget; [|exact Hreach].
  pose proof (run_prefix_reachable cfg w now task db id org job
                (companies (input_data job)) [] Hreach Hget
                (eq_sym (app_nil_r _))) as H.
  destruct (process_items cfg w now (mark_running now task db id) id org _ 0 _)
    as [db2 [e|]]; simpl in *; [exact H|].
  eapply reach_next; [exact H | apply st_finish].
Qed.

(** ** The two invariants of the data model *)

(** C4: in every database that the system can reach (after any sequence of
    submissions, runs, delivered once or again, markers, sweeps and
    cancellations, and at every point of the orchestrator loop of a run)
    every job has [completed_items + failed_items <= total_items], where
    [total_items] is the number of its input names; the points of a run are
    such databases; and a pass of the loop that completes raises exactly one
    of the two counters by exactly one. *)
Theorem counters_within_total (cfg : Settings) (db : DB) :
  reachable cfg db ->
  (forall j, In j (jobs db) ->
     total_items j = Z.of_nat (length (companies (input_data j))) /\
     0 <= completed_items j /\ 0 <= failed_items j /\
     completed_items j + failed_items j <= total_items j) /\
  (forall w now task id org job pre post,
     get_job db id = Some job ->
     companies (input_data job) = pre ++ post ->
     reachable cfg
       (fst (process_items cfg w now (mark_running now task db id) id org
               (websites (input_data job)) 0 pre)) /\
     reachable cfg (fst (_run_job cfg w now task db id org))) /\
  (forall w now id org sites i company db' j,
     process_item cfg w now db id org sites i company = (db', None) ->
     get_job db id = Some j ->
     exists j', get_job db' id = Some j' /\ one_counter_up j j').
Proof.
  intros Hreach. split_and!.
  - intros j Hj. apply (inv_bound db j (reachable_inv cfg db Hreach) Hj).
  - intros w now task id org job pre post Hget Hsplit. split.
    + eapply run_prefix_reachable; eauto.
    + apply run_job_reachable, Hreach.
  - intros w now id org sites i company db' j Hstep Hj.
    pose proof (process_item_stores cfg w now db id org sites i company) as Hst.
    rewrite Hstep in Hst. destruct Hst as [Hrows _].
    pose proof (rows_of_find id _ _ _
                  (fun j j' H => progressed_id 1 j j' (proj1 H)) Hrows) as Hfind.
    unfold get_job in *. rewrite Hj in Hfind.
    destruct Hfind as (j' & Hj' & _ & Hup). eauto.
Qed.

Lemma sample_db_reachable : reachable default_settings sample_db.
Proof.
  eapply reach_next; [apply reach_empty|].
  eapply (st_create default_settings 0 1%N "task-1" empty_db 7%N three_names);
    reflexivity.
Qed.

Lemma counters_within_total_witness :
  Forall (fun j => completed_items j + failed_items j <= total_items j)
    (jobs (fst (_run_job default_settings (always_stop "{}") 0 "run-1"
                  sample_db 1%N 7%N))).
Proof.
  destruct (counters_within_total default_settings sample_db sample_db_reachable)
    as (_ & Hrun & _).
  destruct (Hrun (always_stop "{}") 0 "run-1" 1%N 7%N sample_job
              ["Acme"; "Initech"; "Hooli"] [] eq_refl eq_refl) as [_ Hreach].
  destruct (counters_within_total default_settings _ Hreach) as (Hbound & _).
  apply List.Forall_forall. intros j Hj. apply (Hbound j Hj).
Defined.

(** C9: in every database that the system can reach at most one result row
    exists for a job and an input name.  The names that a job holds are
    distinct, because [create_job] keeps the first occurrence of each, so a
    name submitted twice is gone through once; and every insertion into
    [enrichment_results] is checked against the constraint on
    [(job_id, input_name)], so no agent call, no pass of the orchestrator
    and no run, delivered once or again, leaves two rows for one job and
    name. *)
Theorem one_result_per_job_and_name (cfg : Settings) (db : DB) :
  reachable cfg db ->
  (forall id name, (length (rows_for id name (enrichment_results db)) <= 1)%nat) /\
  (forall j, In j (jobs db) -> List.NoDup (companies (input_data j))) /\
  (forall row db', insert_result db row = Ok db' -> uq_results_job_company db') /\
  (forall w now task id org,
     uq_results_job_company (fst (_run_job cfg w now task db id org))).
Proof.
  intros Hreach.
  pose proof (reachable_inv cfg db Hreach) as (Hnd & Huq & Hfk & Hjobs).
  split_and!.
  - exact Huq.
  - intros j Hj. rewrite List.Forall_forall in Hjobs.
    destruct (Hjobs j Hj) as (_ & _ & _ & _ & _ & H). exact H.
  - intros row db' H. apply insert_result_ok in H. destruct H as (_ & _ & Hr & Hc).
    unfold uq_results_job_company. rewrite Hr. apply uq_grow; assumption.
  - intros w now task id org.
    apply (reachable_inv cfg _ (run_job_reachable cfg w now task db id org Hreach)).
Qed.

Lemma one_result_per_job_and_name_witness :
  (length (rows_for 1%N "Acme"
     (enrichment_results
        (fst (_run_job default_settings (always_stop "{}") 0 "run-1"
                sample_db 1%N 7%N)))) <= 1)%nat.
Proof.
  destruct (one_result_per_job_and_name default_settings sample_db sample_db_reachable)
    as (_ & _ & _ & H).
  apply H.
Defined.

Example run_stores_one_row_each :
  let db := fst (_run_job default_settings (always_stop "{}") 0 "run-1" sample_db 1%N 7%N) in
  map input_name (enrichment_results db) = ["Acme"; "Initech"; "Hooli"] /\
  map (fun j => (status j, completed_items j, failed_items j)) (jobs db)
    = [("completed", 3, 0)] /\
  length (usage_logs db) = 6%nat.
Proof. vm_compute. repeat split. Qed.

(** A name submitted twice is stored and gone through once. *)
Example duplicate_names_one_row :
  let req := {| req_companies := ["Acme"; " Acme "; "Acme"]; req_websites := ∅ |} in
  let db0 := {| jobs := [new_job 0 1%N "task-1" 7%N req];
                enrichment_results := []; usage_logs := [] |} in
  let db := fst (_run_job default_settings (always_stop "{}") 0 "run-1" db0 1%N 7%N) in
  map input_name (enrichment_results db) = ["Acme"] /\
  map (fun j => (status j, total_items j, completed_items j)) (jobs db)
    = [("completed", 1, 1)].
Proof. vm_compute. repeat split. Qed.

(** A run delivered again after the first has finished stops at the
    constraint and leaves the rows and the counters as they were. *)
Example second_run_stops :
  let db1 := fst (_run_job default_settings (always_stop "{}") 0 "run-1" sample_db 1%N 7%N) in
  let again := _run_job default_settings (always_stop "{}") 9 "run-2" db1 1%N 7%N in
  map input_name (enrichment_results (fst again)) = ["Acme"; "Initech"; "Hooli"] /\
  map (fun j => (status j, completed_items j, failed_items j)) (jobs (fst again))
    = [("running", 3, 0)] /\
  match snd again with
  | Some (IntegrityError _) => True
  | _ => False
  end.
Proof. vm_compute. repeat split. Qed.

(** ** The text helpers of the scraper *)

Lemma rstrip_keeps_head (p : ascii -> bool) (s : string) (a : ascii) (r : string) :
  rstrip_where p s = String a r -> exists t, s = String a t.
Proof.
  destruct s as [|c s']; simpl; [discriminate|].
  destruct (rstrip_where p s'); [destruct (p c)|]; intros H; inversion H; eauto.
Qed.

Lemma lstrip_collapse (s : string) :
  lstrip (collapse_blanks s) = collapse_blanks (lstrip s).
Proof.
  induction s as [|c s' IH]; [reflexivity|].
  simpl. destruct (py_isspace c) eqn:Ec.
  - destruct (starts_blank s'); [exact IH|].
    simpl. exact IH.
  - simpl. rewrite Ec. reflexivity.
Qed.

Lemma words_nonempty (s : string) : Forall (fun w => w <> "") (words s).
Proof.
  induction s as [|c s' IH]; simpl; [constructor|].
  destruct (py_isspace c); [exact IH|].
  destruct (words s') as [|w ws]; [repeat constructor; discriminate|].
  inversion IH; subst.
  destruct (starts_blank s'); repeat constructor; auto; discriminate.
Qed.

Lemma join_cons_nonempty (sep w : string) (ws : list string) :
  w <> "" -> join sep (w :: ws) <> "".
Proof.
  intros Hw. destruct w as [|a w']; [congruence|].
  destruct ws; simpl; discriminate.
Qed.

Lemma join_cons_head (sep : string) (c : ascii) (w : string) (ws : list string) :
  join sep (String c w :: ws) = String c (join sep (w :: ws)).
Proof. destruct ws; reflexivity. Qed.

Lemma words_lstrip (s : string) : words (lstrip s) = words s.
Proof.
  induction s as [|c s' IH]; [reflexivity|].
  simpl. destruct (py_isspace c) eqn:Ec; [exact IH|].
  simpl. rewrite Ec. reflexivity.
Qed.

Lemma lstrip_not_blank (s : string) : starts_blank (lstrip s) = false.
Proof.
  induction s as [|c s' IH]; [reflexivity|].
  simpl. destruct (py_isspace c) eqn:Ec; [exact IH|]. simpl. exact Ec.
Qed.

(** What is left of the collapsed text once the blanks at its end are
    stripped: the words with one space between them, after one space if the
    text began with a blank. *)
Lemma rstrip_cons (p : ascii -> bool) (c : ascii) (s : string) :
  rstrip_where p (String c s)
  = match rstrip_where p s with
    | EmptyString => if p c then "" else String c ""
    | r => String c r
    end.
Proof. reflexivity. Qed.

Lemma rstrip_collapse (s : string) :
  rstrip (collapse_blanks s)
  = (if starts_blank s && negb (Nat.eqb (length (words s)) 0) then " " else "")
    +:+ join " " (words s).
Proof.
  unfold rstrip.
  induction s as [|c s' IH]; [reflexivity|].
  pose proof (words_nonempty s') as Hne.
  cbn [collapse_blanks words starts_blank]. destruct (py_isspace c) eqn:Ec.
  - destruct (starts_blank s') eqn:Eb; [exact IH|].
    rewrite rstrip_cons, IH. clear IH.
    destruct (words s') as [|w ws]; [reflexivity|].
    inversion Hne; subst.
    change (false && negb (Nat.eqb (length (w :: ws)) 0)) with false.
    change (true && negb (Nat.eqb (length (w :: ws)) 0)) with true.
    cbv iota. rewrite !append_nil_l.
    destruct (join " " (w :: ws)) eqn:Ej;
      [exfalso; eapply join_cons_nonempty; eauto|]. reflexivity.
  - rewrite rstrip_cons, IH, Ec. clear IH. cbn [andb]. rewrite append_nil_l.
    destruct (words s') as [|w ws].
    + rewrite andb_false_r. reflexivity.
    + inversion Hne; subst.
      change (negb (Nat.eqb (length (w :: ws)) 0)) with true.
      rewrite andb_true_r.
      destruct (starts_blank s') eqn:Eb.
      * rewrite append_cons, append_nil_l. reflexivity.
      * rewrite append_nil_l, join_cons_head.
        destruct (join " " (w :: ws)) eqn:Ej;
          [exfalso; eapply join_cons_nonempty; eauto|]. reflexivity.
Qed.

Lemma clean_text_words (text : string) : clean_text text = join " " (words text).
Proof.
  unfold clean_text, strip. rewrite lstrip_collapse, rstrip_collapse.
  rewrite lstrip_not_blank, words_lstrip. reflexivity.
Qed.

Lemma join_words_cleaned (s : string) :
  single_spaced (join " " (words s)) = true /\
  starts_blank (join " " (words s)) = false.
Proof.
  induction s as [|c s' [IH1 IH2]]; [split; reflexivity|].
  pose proof (words_nonempty s') as Hne.
  cbn [words]. destruct (py_isspace c) eqn:Ec; [split; assumption|].
  destruct (words s') as [|w ws].
  - cbn. rewrite Ec. split; reflexivity.
  - inversion Hne; subst.
    assert (Hj : nonempty (join " " (w :: ws)) = true).
    { destruct (join " " (w :: ws)) eqn:Ej;
        [exfalso; eapply join_cons_nonempty; eauto | reflexivity]. }
    destruct (starts_blank s').
    + change (join " " (String c "" :: w :: ws))
        with (String c (String " " (join " " (w :: ws)))).
      cbn [single_spaced starts_blank]. rewrite Ec, IH1, IH2, Hj. split; reflexivity.
    + rewrite join_cons_head. cbn [single_spaced starts_blank].
      rewrite Ec, IH1. split; reflexivity.
Qed.

Lemma single_spaced_collapse (s : string) :
  single_spaced s = true -> collapse_blanks s = s.
Proof.
  induction s as [|c s' IH]; [reflexivity|].
  cbn [single_spaced collapse_blanks]. intros H.
  apply andb_prop in H. destruct H as [Hc Hs]. rewrite (IH Hs).
  destruct (py_isspace c); [|reflexivity].
  apply andb_prop in Hc. destruct Hc as [Hc Hb].
  apply andb_prop in Hc. destruct Hc as [Hc _].
  apply negb_true_iff in Hb. rewrite Hb.
  apply Ascii.eqb_eq in Hc. subst c. reflexivity.
Qed.

Lemma single_spaced_rstrip (s : string) : single_spaced s = true -> rstrip s = s.
Proof.
  unfold rstrip. induction s as [|c s' IH]; [reflexivity|].
  cbn [single_spaced]. intros H.
  apply andb_prop in H. destruct H as [Hc Hs].
  rewrite rstrip_cons, (IH Hs).
  destruct s' as [|c' s'']; [|reflexivity].
  destruct (py_isspace c); [|reflexivity].
  rewrite andb_false_r in Hc. discriminate.
Qed.

Lemma cleaned_fixed (s : string) : cleaned s = true -> clean_text s = s.
Proof.
  unfold cleaned, clean_text, strip. intros H.
  apply andb_prop in H. destruct H as [Hb Hs].
  rewrite (single_spaced_collapse s Hs).
  apply negb_true_iff in Hb.
  assert (Hl : lstrip s = s).
  { destruct s as [|c s']; [reflexivity|]. simpl in Hb. simpl. rewrite Hb. reflexivity. }
  rewrite Hl. apply single_spaced_rstrip, Hs.
Qed.

Lemma clean_text_cleaned (text : string) : cleaned (clean_text text) = true.
Proof.
  rewrite clean_text_words. unfold cleaned.
  destruct (join_words_cleaned text) as [H1 H2]. rewrite H1, H2. reflexivity.
Qed.

Lemma join_words_nonblanks (s : string) :
  nonblanks (join " " (words s)) = nonblanks s.
Proof.
  induction s as [|c s' IH]; [reflexivity|].
  cbn [words nonblanks]. destruct (py_isspace c) eqn:Ec; [exact IH|].
  destruct (words s') as [|w ws].
  - cbn. rewrite Ec. simpl in IH. rewrite <- IH. reflexivity.
  - destruct (starts_blank s').
    + change (join " " (String c "" :: w :: ws))
        with (String c (String " " (join " " (w :: ws)))).
      cbn [nonblanks]. rewrite Ec.
      change (py_isspace " ") with true. cbv iota. rewrite IH. reflexivity.
    + rewrite join_cons_head. cbn [nonblanks]. rewrite Ec, IH. reflexivity.
Qed.

Lemma join_words_length (s : string) :
  (String.length (join " " (words s)) + (if starts_blank s then 1 else 0)
   <= String.length s)%nat.
Proof.
  induction s as [|c s' IH]; [simpl; lia|].
  cbn [words starts_blank String.length]. destruct (py_isspace c) eqn:Ec.
  - destruct (starts_blank s'); lia.
  - destruct (words s') as [|w ws].
    + cbn. lia.
    + destruct (starts_blank s').
      * change (join " " (String c "" :: w :: ws))
          with (String c (String " " (join " " (w :: ws)))).
        cbn [String.length]. lia.
      * rewrite join_cons_head. cbn [String.length]. lia.
Qed.



Example clean_text_samples :
  clean_text (String newline "  Acme   Corp" +:+ String newline " ") = "Acme Corp" /\
  clean_text "   " = "" /\ clean_text "" = "" /\
  words " a  bc d " = ["a"; "bc"; "d"].
Proof. vm_compute. repeat split. Qed.

Lemma length_append (a b : string) :
  String.length (a +:+ b) = (String.length a + String.length b)%nat.
Proof. induction a as [|c a IH]; simpl; [reflexivity|]. f_equal. exact IH. Qed.

Lemma take_chars_length (n : nat) (s : string) :
  String.length (take_chars n s) = Nat.min n (String.length s).
Proof.
  revert s. induction n as [|n IH]; intros [|c s]; simpl; try reflexivity.
  f_equal. apply IH.
Qed.

Lemma single_spaced_append (a b : string) :
  single_spaced a = true -> nonempty b = true -> cleaned b = true ->
  single_spaced (a +:+ String " " b) = true.
Proof.
  intros Ha Hb Hc. unfold cleaned in Hc.
  apply andb_prop in Hc. destruct Hc as [Hc1 Hc2].
  induction a as [|c a IH].
  - rewrite append_nil_l. cbn [single_spaced].
    change (py_isspace " ") with true. cbv iota.
    rewrite Hb, Hc1, Hc2. reflexivity.
  - rewrite append_cons. cbn [single_spaced] in *.
    apply andb_prop in Ha. destruct Ha as [Hca Hsa].
    rewrite (IH Hsa), andb_true_r.
    destruct (py_isspace c); [|reflexivity].
    apply andb_prop in Hca. destruct Hca as [Hca Hba].
    apply andb_prop in Hca. destruct Hca as [Hca Hna].
    rewrite Hca. destruct a as [|c' a']; [discriminate|].
    rewrite append_cons. exact Hba.
Qed.

Lemma join_cleaned (parts : list string) :
  Forall (fun p => cleaned p = true /\ nonempty p = true) parts ->
  cleaned (join " " parts) = true /\
  (parts <> [] -> nonempty (join " " parts) = true).
Proof.
  induction 1 as [|p parts [Hp Hn] Hall [IH1 IH2]]; [split; [reflexivity | congruence]|].
  destruct parts as [|q parts]; [simpl; auto|].
  change (join " " (p :: q :: parts)) with (p +:+ String " " (join " " (q :: parts))).
  split.
  - unfold cleaned in Hp |- *. apply andb_prop in Hp. destruct Hp as [Hp1 Hp2].
    assert (Hs : single_spaced (p +:+ String " " (join " " (q :: parts))) = true).
    { apply single_spaced_append; [exact Hp2 | apply IH2; discriminate | exact IH1]. }
    rewrite Hs, andb_true_r.
    destruct p as [|c p]; [discriminate|].
    rewrite append_cons. exact Hp1.
  - intros _. destruct p as [|c p]; [discriminate|]. rewrite append_cons. reflexivity.
Qed.

Lemma sections_cleaned (selected : list (option string)) :
  Forall (fun p => cleaned p = true /\ nonempty p = true) (sections_of selected).
Proof.
  unfold sections_of. apply List.Forall_forall. intros p Hp.
  apply List.filter_In in Hp. destruct Hp as [Hin Hlen].
  apply List.in_map_iff in Hin. destruct Hin as (t & Ht & _). subst p.
  split; [apply clean_text_cleaned|].
  destruct (clean_text t); [discriminate | reflexivity].
Qed.



(** ** Extraction and the stored row *)

Lemma ends_close_rstrip (a : string) : rstrip (a +:+ "}") = a +:+ "}".
Proof. unfold rstrip. rewrite rstrip_where_app; [reflexivity | discriminate]. Qed.

Lemma lazy_object_ends (s g : string) :
  lazy_object s = Some g -> exists a, g = a +:+ "}".
Proof.
  revert g. induction s as [|c s IH]; intros g; cbn [lazy_object]; [discriminate|].
  destruct (Ascii.eqb c "}" && startswith fence (lstrip s)) eqn:E.
  - intros H. inversion H; subst. apply andb_prop in E. destruct E as [E _].
    apply Ascii.eqb_eq in E. subst c. exists "". reflexivity.
  - destruct (lazy_object s) as [g'|]; simpl; [|discriminate].
    intros H. inversion H; subst. destruct (IH g' eq_refl) as [a Ha]. subst g'.
    exists (String c a). reflexivity.
Qed.

Lemma search_fenced_ends (s g : string) :
  search_fenced s = Some g -> exists a, g = a +:+ "}".
Proof.
  induction s as [|c s IH].
  - simpl. unfold fenced_here. simpl. discriminate.
  - cbn [search_fenced]. destruct (fenced_here (String c s)) as [g'|] eqn:E.
    + intros H. inversion H; subst. unfold fenced_here in E.
      destruct (startswith fence (String c s)); [|discriminate].
      destruct (startswith "{" _); [|discriminate].
      eapply lazy_object_ends, E.
    + exact IH.
Qed.

Lemma upto_last_close_ends (s g : string) :
  upto_last_close s = Some g -> exists a, g = a +:+ "}".
Proof.
  revert g. induction s as [|c s IH]; intros g; simpl; [discriminate|].
  destruct (upto_last_close s) as [r|].
  - intros H. inversion H; subst. destruct (IH r eq_refl) as [a Ha]. subst r.
    exists (String c a). reflexivity.
  - destruct (Ascii.eqb c "}") eqn:E; [|discriminate].
    intros H. inversion H; subst. apply Ascii.eqb_eq in E. subst c.
    exists "". reflexivity.
Qed.

Lemma lstrip_brace (c : string) : startswith "{" c = true -> lstrip c = c.
Proof.
  intros H. apply startswith_brace in H. destruct H as [r ->]. reflexivity.
Qed.

Lemma strip_idem (text : string) : strip (strip text) = strip text.
Proof.
  unfold strip at 1.
  assert (H : lstrip (strip text) = strip text).
  { unfold strip, rstrip.
    pose proof (lstrip_not_blank text) as Hb.
    destruct (lstrip text) as [|c r] eqn:E; [reflexivity|].
    simpl in Hb.
    destruct (rstrip_where_head py_isspace c r Hb) as [r' Hr]. rewrite Hr.
    simpl. rewrite Hb. reflexivity. }
  rewrite H. apply strip_rstrip.
Qed.

Lemma candidates_stripped (text c : string) : In c (candidates text) -> strip c = c.
Proof.
  intros Hin. pose proof (candidates_head text c Hin) as Hhead.
  unfold strip. rewrite (lstrip_brace c Hhead).
  unfold candidates in Hin. cbv zeta in Hin.
  rewrite !in_app_iff in Hin. destruct Hin as [H | [H | [H | H]]].
  - destruct (startswith "{" (strip text)); [|destruct H].
    destruct H as [<- | []]. apply strip_rstrip.
  - destruct (search_fenced (strip text)) as [g|] eqn:E; [|destruct H].
    destruct H as [<- | []]. destruct (search_fenced_ends _ _ E) as [a ->].
    apply ends_close_rstrip.
  - unfold search_braces in H.
    destruct (search_partial (strip text)) as [u|]; [|destruct H].
    destruct (upto_last_close u) as [g|] eqn:E; [|destruct H].
    destruct H as [<- | []]. destruct (upto_last_close_ends _ _ E) as [a ->].
    apply ends_close_rstrip.
  - destruct (search_partial (strip text)) as [u|]; [|destruct H].
    destruct H as [<- | []]. unfold repair.
    change (String newline "}") with (String newline "" +:+ "}").
    rewrite <- append_assoc. apply ends_close_rstrip.
Qed.

Lemma extract_json_of_object (c : string) :
  strip c = c -> startswith "{" c = true -> json_valid c = true ->
  _extract_json c = Some c.
Proof.
  intros Hs Hh Hv. unfold _extract_json.
  destruct c as [|a r]; [discriminate|].
  cbv zeta. rewrite Hs, Hh. simpl parsed. rewrite Hv. reflexivity.
Qed.

Lemma extract_json_strip (text : string) :
  _extract_json (strip text) = _extract_json text.
Proof.
  unfold _extract_json. cbv zeta. rewrite strip_idem.
  destruct text as [|a r]; [reflexivity|].
  destruct (strip (String a r)) as [|b t] eqn:E; [|reflexivity].
  reflexivity.
Qed.



Lemma parse_final_text_cases (w : world) (raw : string) :
  match _extract_json raw with
  | Some c => parse_final_text w raw = (decoded_object w c, "completed", None)
  | None => parse_final_text w raw
            = (∅, "failed", Some ("No JSON found. Preview: " +:+ take_chars 200 raw))
  end.
Proof.
  unfold parse_final_text.
  destruct (_extract_json raw) as [c|] eqn:E; [|reflexivity].
  pose proof (extract_json_object raw c E) as Ho.
  destruct c as [|a r]; [discriminate|]. rewrite Ho. reflexivity.
Qed.

Lemma insert_result_raises (db : DB) (r : EnrichmentResult) (e : exn) :
  insert_result db r = Raise e ->
  exists id r', er_job_id r = Some id /\ In r' (enrichment_results db) /\
                er_job_id r' = Some id /\ input_name r' = input_name r.
Proof.
  unfold insert_result.
  destruct (existsb (uq_conflict r) (enrichment_results db)) eqn:E; [|discriminate].
  intros _. apply existsb_exists in E. destruct E as (r' & Hin & Hc).
  unfold uq_conflict in Hc.
  destruct (er_job_id r) as [j|]; [|discriminate].
  destruct (er_job_id r') as [j'|] eqn:Ej; [|discriminate].
  apply andb_prop in Hc. destruct Hc as [Hj Hn].
  apply N.eqb_eq in Hj. apply String.eqb_eq in Hn. subst j'.
  exists j, r'. auto.
Qed.




Example enrich_single_twice :
  let w := always_stop (js "{'name': 'Acme Corp'}") in
  let once := fst (enrich_single default_settings w 1 empty_db 7%N "Acme" None) in
  let twice := fst (enrich_single default_settings w 2 once 7%N "Acme" None) in
  map input_name (enrichment_results twice) = ["Acme"; "Acme"] /\
  map er_status (enrichment_results twice) = ["completed"; "completed"] /\
  length (usage_logs twice) = 2%nat /\
  fst (enrich_single default_settings two_bad_items 1 empty_db 7%N "Acme" None)
    = empty_db.
Proof. vm_compute. repeat split. Qed.

(** ** The staleness sweep and the health summary *)

Lemma with_jobs_same (db : DB) : with_jobs db (jobs db) = db.
Proof. destruct db; reflexivity. Qed.

Lemma sql_update_nowhere (where_ : Job -> bool) (set_ : Job -> Job) (rows : list Job) :
  Forall (fun j => where_ j = false) rows -> sql_update where_ set_ rows = rows.
Proof.
  induction 1 as [|j rows Hj _ IH]; [reflexivity|].
  unfold sql_update in *. simpl. rewrite Hj, IH. reflexivity.
Qed.

Lemma filter_nowhere (where_ : Job -> bool) (rows : list Job) :
  Forall (fun j => where_ j = false) rows -> List.filter where_ rows = [].
Proof.
  induction 1 as [|j rows Hj _ IH]; [reflexivity|]. simpl. rewrite Hj. exact IH.
Qed.

Lemma swept_not_stuck (cutoff now : Z) (msg : string) (rows : list Job) :
  Forall (fun j => stuck_where cutoff j = false)
         (sql_update (stuck_where cutoff) (set_ended "failed" msg now) rows).
Proof.
  induction rows as [|j rows IH]; [constructor|].
  unfold sql_update in *. simpl. constructor; [|exact IH].
  destruct (stuck_where cutoff j) eqn:E; [reflexivity | exact E].
Qed.

(** X7: the staleness sweep.  It changes a job only if its status is queued
    or running and its start (its creation, if it never started) lies more
    than two hours back; such a job becomes failed with the auto-reset
    message and the time of the sweep as its completion time, and keeps its
    names and counters.  The number returned is the number of these jobs.
    After the sweep no job is both active and that old, so a second sweep at
    the same time resets nothing and changes nothing.  Result and usage rows
    are not written. *)
Theorem sweep_resets_stale_jobs (now : Z) (db : DB) :
  let cutoff := now - STUCK_THRESHOLD_HOURS * 3600 in
  let db' := fst (stuck_job_cleanup now db) in
  Forall2 (fun j j' =>
             if status_in ["running"; "queued"] j && is_stale cutoff j
             then status j' = "failed" /\
                  error_message j'
                  = Some "Auto-reset: job exceeded maximum runtime without completing" /\
                  completed_at j' = Some now /\ same_counts j j' /\
                  started_at j' = started_at j /\ progress_pct j' = progress_pct j
             else j' = j)
          (jobs db) (jobs db') /\
  snd (stuck_job_cleanup now db)
    = length (List.filter (fun j => status_in ["running"; "queued"] j
                                    && is_stale cutoff j) (jobs db)) /\
  Forall (fun j => status_in ["running"; "queued"] j && is_stale cutoff j = false)
         (jobs db') /\
  stuck_job_cleanup now db' = (db', 0%nat) /\
  enrichment_results db' = enrichment_results db /\
  usage_logs db' = usage_logs db.
Proof.
  cbv zeta. unfold stuck_job_cleanup. cbn [fst snd].
  split_and!; try reflexivity.
  - unfold with_jobs. cbn [jobs]. induction (jobs db) as [|j rows IH]; [constructor|].
    unfold sql_update in *. simpl map. constructor; [|exact IH].
    unfold stuck_where.
    destruct (status_in ["running"; "queued"] j && is_stale _ j); [|reflexivity].
    simpl. split_and!; try reflexivity. apply set_ended_same.
  - apply swept_not_stuck.
  - pose proof (swept_not_stuck (now - STUCK_THRESHOLD_HOURS * 3600) now
                  "Auto-reset: job exceeded maximum runtime without completing"
                  (jobs db)) as H.
    set (rows' := sql_update _ _ (jobs db)) in *.
    change (jobs (with_jobs db rows')) with rows'.
    rewrite (sql_update_nowhere _ _ _ H), (filter_nowhere _ _ H). reflexivity.
Qed.

Lemma tally_cons (p : Job -> bool) (j : Job) (rows : list Job) :
  Z.of_nat (length (List.filter p (j :: rows)))
  = Z.b2z (p j) + Z.of_nat (length (List.filter p rows)).
Proof. simpl. destruct (p j); simpl length; simpl Z.b2z; lia. Qed.

(** What the sweep does to the five counts, row by row. *)
Lemma swept_row_counts (now : Z) (msg : string) (j : Job) :
  let cutoff := now - STUCK_THRESHOLD_HOURS * 3600 in
  let since := now - 24 * 3600 in
  let j' := if stuck_where cutoff j then set_ended "failed" msg now j else j in
  let reset := Z.b2z (stuck_where cutoff j) in
  Z.b2z (has_status "running" j' && earlier_than cutoff (started_at j')) = 0 /\
  Z.b2z (has_status "running" j && earlier_than cutoff (started_at j)) <= reset /\
  Z.b2z (has_status "queued" j') + Z.b2z (has_status "running" j')
    = Z.b2z (has_status "queued" j) + Z.b2z (has_status "running" j) - reset /\
  Z.b2z (has_status "failed" j' && not_earlier_than since (completed_at j'))
    = Z.b2z (has_status "failed" j && not_earlier_than since (completed_at j)) + reset /\
  Z.b2z (has_status "completed" j' && not_earlier_than since (completed_at j'))
    = Z.b2z (has_status "completed" j && not_earlier_than since (completed_at j)).
Proof.
  cbv zeta. unfold stuck_where, status_in, has_status, is_stale, earlier_than.
  cbn [existsb].
  destruct (String.eqb (status j) "running") eqn:E1;
    destruct (String.eqb (status j) "queued") eqn:E2;
    destruct (String.eqb (status j) "failed") eqn:E3;
    destruct (String.eqb (status j) "completed") eqn:E4;
    try (apply String.eqb_eq in E1; rewrite E1 in *; discriminate);
    try (apply String.eqb_eq in E2; rewrite E2 in *; discriminate);
    try (apply String.eqb_eq in E3; rewrite E3 in *; discriminate);
    cbn [orb andb];
    destruct (started_at j) as [t|] eqn:Es;
    try destruct (t <? now - STUCK_THRESHOLD_HOURS * 3600) eqn:Et;
    try destruct (created_at j <? now - STUCK_THRESHOLD_HOURS * 3600) eqn:Ec;
    cbn [set_ended status started_at completed_at String.eqb Ascii.eqb Bool.eqb
         andb orb not_earlier_than Z.b2z];
    rewrite ?E1, ?E2, ?E3, ?E4, ?Es, ?Et; cbn [andb orb Z.b2z];
    try (replace (now - 24 * 3600 <=? now) with true by (symmetry; apply Z.leb_le; lia));
    cbn [andb orb Z.b2z];
    repeat split; try lia;
    repeat match goal with
           | |- context [not_earlier_than ?a ?b] => destruct (not_earlier_than a b)
           end;
    simpl; lia.
Qed.

(** X8: the health summary before and after a staleness sweep at the same
    time.  After the sweep no job counts as stuck; every job that counted as
    stuck was reset (the sweep also resets queued jobs, which the summary
    never counts as stuck); the jobs that were reset have left the queued and
    running counts and have joined the count of jobs failed in the last 24
    hours exactly; the count of completed jobs is as before. *)
Theorem health_after_sweep (now : Z) (db : DB) :
  let before := job_health_summary now db in
  let after := job_health_summary now (fst (stuck_job_cleanup now db)) in
  let reset := Z.of_nat (snd (stuck_job_cleanup now db)) in
  stuck after = 0 /\
  0 <= stuck before <= reset /\
  stuck before <= running before /\
  queued after + running after = queued before + running before - reset /\
  failed_24h after = failed_24h before + reset /\
  completed_24h after = completed_24h before.
Proof.
  cbv zeta. unfold job_health_summary, stuck_job_cleanup, count_jobs.
  cbn [fst snd stuck running queued failed_24h completed_24h].
  change (jobs (with_jobs db ?r)) with r.
  induction (jobs db) as [|j rows IH].
  - simpl. lia.
  - unfold sql_update in *. cbn [map]. rewrite !tally_cons.
    pose proof (swept_row_counts now
                  "Auto-reset: job exceeded maximum runtime without completing" j)
      as Hrow.
    cbv zeta in Hrow.
    destruct Hrow as (H1 & H2 & H3 & H4 & H5).
    destruct IH as (I1 & I2 & I3 & I4 & I5 & I6).
    rewrite H1, H4, H5, I1, I5, I6.
    assert (0 <= Z.b2z (has_status "running" j
                        && earlier_than (now - STUCK_THRESHOLD_HOURS * 3600) (started_at j))
            <= Z.b2z (has_status "running" j)).
    { destruct (has_status "running" j);
        destruct (earlier_than (now - STUCK_THRESHOLD_HOURS * 3600) (started_at j));
        cbn [andb Z.b2z]; lia. }
    split_and!; lia.
Qed.

Example health_sample :
  let j := set_running 100 "run-1" sample_job in
  let db := {| jobs := [j]; enrichment_results := []; usage_logs := [] |} in
  map (fun now => (stuck (job_health_summary now db),
                   running (job_health_summary now db),
                   snd (stuck_job_cleanup now db),
                   failed_24h (job_health_summary now (fst (stuck_job_cleanup now db)))))
      [7300; 7301]
  = [(0, 1, 0%nat, 0); (1, 1, 1%nat, 1)].
Proof. vm_compute. reflexivity. Qed.

(** ** Cancellation and the cap on concurrent jobs *)

Lemma find_none_nowhere (id : UUID) (rows : list Job) :
  ~ In id (map job_id rows) -> Forall (fun j => has_id id j = false) rows.
Proof.
  induction rows as [|j rows IH]; [constructor|].
  simpl. intros H. constructor.
  - unfold has_id. apply N.eqb_neq. intros E. apply H. left. exact E.
  - apply IH. intros E. apply H. right. exact E.
Qed.

Lemma active_cancelled (now : Z) (org : UUID) (j : Job) :
  N.eqb (organization_id (set_cancelled now j)) org
  && status_in ["queued"; "running"] (set_cancelled now j) = false.
Proof. apply andb_false_r. Qed.

(** The rows after a cancellation, and the count of active jobs of each
    organization. *)
Lemma cancel_rows (now : Z) (id : UUID) (job : Job) (rows : list Job) :
  List.NoDup (map job_id rows) ->
  List.find (has_id id) rows = Some job ->
  status_in ["queued"; "running"] job = true ->
  let rows' := sql_update (has_id id) (set_cancelled now) rows in
  List.find (has_id id) rows' = Some (set_cancelled now job) /\
  (forall id', id' <> id -> List.find (has_id id') rows' = List.find (has_id id') rows) /\
  (forall org,
     Z.of_nat (length (List.filter
       (fun j => N.eqb (organization_id j) org && status_in ["queued"; "running"] j) rows'))
     = Z.of_nat (length (List.filter
       (fun j => N.eqb (organization_id j) org && status_in ["queued"; "running"] j) rows))
       - Z.b2z (N.eqb (organization_id job) org)).
Proof.
  cbv zeta. unfold sql_update.
  induction rows as [|j rows IH]; [discriminate|].
  intros Hnd Hfind Hact. inversion Hnd as [|? ? Hnotin Hnd']; subst.
  cbn [List.find map] in *.
  destruct (has_id id j) eqn:Ej.
  - inversion Hfind; subst job. clear Hfind.
    unfold has_id in Ej. apply N.eqb_eq in Ej.
    assert (Hrest : Forall (fun j' => has_id id j' = false) rows).
    { apply find_none_nowhere. rewrite <- Ej. exact Hnotin. }
    pose proof (sql_update_nowhere (has_id id) (set_cancelled now) rows Hrest) as Hsame.
    unfold sql_update in Hsame. rewrite Hsame.
    split_and!.
    + unfold has_id at 1. simpl job_id. rewrite Ej, N.eqb_refl. reflexivity.
    + intros id' Hne. unfold has_id at 1 3. simpl job_id.
      assert (E : N.eqb (job_id j) id' = false) by (apply N.eqb_neq; congruence).
      rewrite E. reflexivity.
    + intros org. rewrite !tally_cons, active_cancelled, Hact, andb_true_r.
      simpl Z.b2z at 1. lia.
  - destruct (IH Hnd' Hfind Hact) as (H1 & H2 & H3).
    split_and!.
    + rewrite Ej. exact H1.
    + intros id' Hne. rewrite (H2 id' Hne). reflexivity.
    + intros org. rewrite !tally_cons, H3. lia.
Qed.

Lemma cancel_job_returned (now : Z) (db db' : DB) (id org : UUID) :
  List.NoDup (map job_id (jobs db)) ->
  cancel_job now db id org = Returned db' ->
  exists job,
    get_job db id = Some job /\ organization_id job = org /\
    status_in ["queued"; "running"] job = true /\
    get_job db' id = Some (set_cancelled now job) /\
    (forall id', id' <> id -> get_job db' id' = get_job db id') /\
    count_active db' org = count_active db org - 1 /\
    (forall org', org' <> org -> count_active db' org' = count_active db org') /\
    enrichment_results db' = enrichment_results db /\
    usage_logs db' = usage_logs db.
Proof.
  unfold cancel_job. intros Hnd.
  destruct (get_job db id) as [job|] eqn:Hj; [|discriminate].
  destruct (N.eqb (organization_id job) org) eqn:Ho; cbn [negb]; [|discriminate].
  destruct (status_in ["queued"; "running"] job) eqn:Hs; cbn [negb]; [|discriminate].
  intros H. inversion H; subst db'. clear H.
  apply N.eqb_eq in Ho.
  destruct (cancel_rows now id job (jobs db) Hnd Hj Hs) as (H1 & H2 & H3).
  exists job. unfold get_job, count_active, with_jobs. cbn [jobs enrichment_results usage_logs].
  split_and!; auto.
  - rewrite H3, Ho, N.eqb_refl. reflexivity.
  - intros org' Hne. rewrite H3, Ho.
    assert (E : N.eqb org org' = false) by (apply N.eqb_neq; congruence).
    rewrite E. simpl. lia.
Qed.

(** X9: cancellation.  A job that is missing and a job of another
    organization are refused alike with 404 "Job not found", and a job that
    is neither queued nor running with 400.  An accepted cancellation sets
    the status and the completion time of that one job and keeps its names
    and counters; the other jobs and the result and usage rows are as
    before; the organization has one active job less, so one more can be
    submitted, and the counts of the other organizations do not change. *)
Theorem cancel_job_frees_a_slot (now : Z) (db : DB) (id org : UUID) :
  (get_job db id = None ->
     cancel_job now db id org = HTTPException 404 "Job not found") /\
  (forall job, get_job db id = Some job -> organization_id job <> org ->
     cancel_job now db id org = HTTPException 404 "Job not found") /\
  (forall job, get_job db id = Some job -> organization_id job = org ->
     status_in ["queued"; "running"] job = false ->
     cancel_job now db id org
     = HTTPException 400 ("Cannot cancel a '" +:+ status job +:+ "' job")) /\
  (forall db', List.NoDup (map job_id (jobs db)) ->
     cancel_job now db id org = Returned db' ->
     exists job,
       get_job db id = Some job /\ organization_id job = org /\
       status_in ["queued"; "running"] job = true /\
       get_job db' id = Some (set_cancelled now job) /\
       same_counts job (set_cancelled now job) /\
       (forall id', id' <> id -> get_job db' id' = get_job db id') /\
       count_active db' org = count_active db org - 1 /\
       (forall org', org' <> org -> count_active db' org' = count_active db org') /\
       enrichment_results db' = enrichment_results db /\
       usage_logs db' = usage_logs db).
Proof.
  unfold cancel_job. split_and!.
  - intros ->. reflexivity.
  - intros job -> Hne. apply N.eqb_neq in Hne. rewrite Hne. reflexivity.
  - intros job -> Ho Hs. apply N.eqb_eq in Ho. rewrite Ho, Hs. reflexivity.
  - intros db' Hnd H.
    destruct (cancel_job_returned now db db' id org Hnd H)
      as (job & H1 & H2 & H3 & H4 & H5 & H6 & H7 & H8 & H9).
    exists job. split_and!; auto. apply set_cancelled_same.
Qed.

Lemma cancel_job_frees_a_slot_witness :
  let db := mark_running 1 "run-1" sample_db 1%N in
  exists db', cancel_job 3 db 1%N 7%N = Returned db' /\
              count_active db 7%N = 1 /\ count_active db' 7%N = 0.
Proof.
  cbv zeta.
  destruct (cancel_job_frees_a_slot 3 (mark_running 1 "run-1" sample_db 1%N) 1%N 7%N)
    as (_ & _ & _ & H).
  eexists. split; [vm_compute; reflexivity|].
  destruct (H _ ltac:(vm_compute; repeat constructor; simpl; tauto)
              ltac:(vm_compute; reflexivity))
    as (job & _ & _ & _ & _ & _ & _ & Hc & _).
  split; [vm_compute; reflexivity|]. rewrite Hc. vm_compute. reflexivity.
Defined.

Lemma count_active_app (db : DB) (job : Job) (org : UUID) :
  count_active (with_jobs db (jobs db ++ [job])) org
  = count_active db org
    + Z.b2z (N.eqb (organization_id job) org && status_in ["queued"; "running"] job).
Proof.
  unfold count_active, with_jobs. cbn [jobs].
  rewrite List.filter_app, List.length_app. cbn [List.filter].
  destruct (N.eqb (organization_id job) org && status_in ["queued"; "running"] job) eqn:E;
    cbn [length Z.b2z]; lia.
Qed.

Lemma create_job_accepts (cfg : Settings) (now : Z) (new_id : UUID) (task_id : string)
    (db : DB) (org : UUID) (req : CreateJobRequest) :
  req_companies req <> [] -> (length (req_companies req) <= 500)%nat ->
  create_job cfg now new_id task_id db org req
  = if count_active db org >=? MAX_CONCURRENT_JOBS_PER_ORG cfg
    then HTTPException 429
           ("Max " +:+ pretty (MAX_CONCURRENT_JOBS_PER_ORG cfg)
            +:+ " concurrent jobs reached. "
            +:+ "Wait for a job to complete before creating another.")
    else Returned (with_jobs db (jobs db ++ [new_job now new_id task_id org req]),
                   new_job now new_id task_id org req).
Proof.
  intros Hne Hlen. unfold create_job.
  assert (H : (Z.of_nat (length (req_companies req)) >? 500) = false).
  { rewrite Z.gtb_ltb. apply Z.ltb_ge. lia. }
  rewrite H. destruct (req_companies req); [congruence | reflexivity].
Qed.

(** X10: the cap on concurrent jobs.  A submission is accepted only while
    the organization has fewer active (queued or running) jobs than the cap;
    the new job is queued with its counters at zero, so the organization has
    one active job more and is still within the cap, and nothing else is
    written.  At the cap a submission that is otherwise valid is refused
    with 429.  After a cancellation was accepted, an organization that was
    within the cap can submit again. *)
Theorem create_job_respects_cap (cfg : Settings) (now : Z) (new_id : UUID)
    (task_id : string) (db : DB) (org : UUID) (req : CreateJobRequest) :
  let cap := MAX_CONCURRENT_JOBS_PER_ORG cfg in
  (forall db' job,
     create_job cfg now new_id task_id db org req = Returned (db', job) ->
     count_active db org < cap /\
     count_active db' org = count_active db org + 1 /\
     count_active db' org <= cap /\
     (forall org', org' <> org -> count_active db' org' = count_active db org') /\
     jobs db' = jobs db ++ [job] /\
     status job = "queued" /\ organization_id job = org /\
     completed_items job = 0 /\ failed_items job = 0 /\
     enrichment_results db' = enrichment_results db /\
     usage_logs db' = usage_logs db) /\
  (req_companies req <> [] -> (length (req_companies req) <= 500)%nat ->
     cap <= count_active db org ->
     create_job cfg now new_id task_id db org req
     = HTTPException 429
         ("Max " +:+ pretty cap +:+ " concurrent jobs reached. "
          +:+ "Wait for a job to complete before creating another.")) /\
  (forall now' id db1,
     List.NoDup (map job_id (jobs db)) ->
     count_active db org <= cap ->
     cancel_job now' db id org = Returned db1 ->
     req_companies req <> [] -> (length (req_companies req) <= 500)%nat ->
     exists db2 job,
       create_job cfg now new_id task_id db1 org req = Returned (db2, job)).
Proof.
  cbv zeta. split_and!.
  - intros db' job H. unfold create_job in H.
    destruct (req_companies req) as [|c cs] eqn:E; [discriminate|]. rewrite <- E in H.
    destruct (Z.of_nat (length (req_companies req)) >? 500); [discriminate|].
    destruct (count_active db org >=? MAX_CONCURRENT_JOBS_PER_ORG cfg) eqn:Ec;
      [discriminate|].
    inversion H; subst db' job. clear H.
    rewrite Z.geb_leb in Ec. apply Z.leb_gt in Ec.
    assert (Hc : forall org',
              count_active (with_jobs db (jobs db ++ [new_job now new_id task_id org req])) org'
              = count_active db org' + Z.b2z (N.eqb org org')).
    { intros org'. rewrite count_active_app. unfold new_job. cbn [organization_id status_in status].
      rewrite andb_true_r. reflexivity. }
    split_and!; try reflexivity; auto.
    + rewrite Hc, N.eqb_refl. reflexivity.
    + rewrite Hc, N.eqb_refl. simpl Z.b2z. lia.
    + intros org' Hne. rewrite Hc.
      assert (E' : N.eqb org org' = false) by (apply N.eqb_neq; congruence).
      rewrite E'. simpl. lia.
  - intros Hne Hlen Hcap. rewrite (create_job_accepts _ _ _ _ _ _ _ Hne Hlen).
    assert (H : (count_active db org >=? MAX_CONCURRENT_JOBS_PER_ORG cfg) = true).
    { rewrite Z.geb_leb. apply Z.leb_le. exact Hcap. }
    rewrite H. reflexivity.
  - intros now' id db1 Hnd Hcap Hcancel Hne Hlen.
    destruct (cancel_job_returned now' db db1 id org Hnd Hcancel)
      as (job & _ & _ & _ & _ & _ & Hc & _).
    rewrite (create_job_accepts _ _ _ _ _ _ _ Hne Hlen).
    assert (H : (count_active db1 org >=? MAX_CONCURRENT_JOBS_PER_ORG cfg) = false).
    { rewrite Z.geb_leb. apply Z.leb_gt. lia. }
    rewrite H. eauto.
Qed.

Lemma create_job_respects_cap_witness :
  create_job default_settings 1 4%N "t4" busy_db 7%N three_names
  = HTTPException 429
      "Max 3 concurrent jobs reached. Wait for a job to complete before creating another."
  /\ exists db1 db2 job,
       cancel_job 2 busy_db 2%N 7%N = Returned db1 /\
       create_job default_settings 3 4%N "t4" db1 7%N three_names = Returned (db2, job).
Proof.
  split.
  - apply (create_job_respects_cap default_settings 1 4%N "t4" busy_db 7%N three_names).
    + discriminate.
    + vm_compute. lia.
    + vm_compute. discriminate.
  - destruct (create_job_respects_cap default_settings 3 4%N "t4" busy_db 7%N three_names)
      as (_ & _ & H).
    destruct (H 2 2%N
                (with_jobs busy_db (sql_update (has_id 2%N) (set_cancelled 2) (jobs busy_db))))
      as (db2 & job & Hc).
    + vm_compute. repeat constructor; simpl; intuition discriminate.
    + vm_compute. discriminate.
    + vm_compute. reflexivity.
    + discriminate.
    + vm_compute. lia.
    + eexists _, db2, job. split; [vm_compute; reflexivity | exact Hc].
Defined.

(** ** A submission of blank names *)

Lemma find_sql_update (id : UUID) (f : Job -> Job) (rows : list Job) (j : Job) :
  (forall j, job_id (f j) = job_id j) ->
  List.find (has_id id) rows = Some j ->
  List.find (has_id id) (sql_update (has_id id) f rows) = Some (f j).
Proof.
  intros Hid. unfold sql_update.
  induction rows as [|r rows IH]; [discriminate|].
  cbn [List.find map]. destruct (has_id id r) eqn:E.
  - intros H. inversion H; subst r.
    unfold has_id in *. rewrite Hid, E. reflexivity.
  - intros H. rewrite E. apply IH, H.
Qed.

Lemma normalize_blank (raw : list string) :
  Forall (fun c => strip c = "") raw -> normalize_companies raw = [].
Proof.
  intros H. unfold normalize_companies.
  assert (E : List.filter nonempty (map strip raw) = []).
  { induction H as [|c raw Hc _ IH]; [reflexivity|]. simpl. rewrite Hc. exact IH. }
  rewrite E. reflexivity.
Qed.



(** ** The history of a job row *)

Lemma steps_refl (rows : list Job) : Forall2 (rtc row_step) rows rows.
Proof. induction rows; constructor; auto. apply rtc_refl. Qed.

Lemma steps_trans (a b c : list Job) :
  Forall2 (rtc row_step) a b -> Forall2 (rtc row_step) b c -> Forall2 (rtc row_step) a c.
Proof.
  intros H. revert c. induction H as [|x y a b Hxy _ IH]; intros c Hc.
  - inversion Hc. constructor.
  - inversion Hc; subst. constructor; [|apply IH; assumption].
    eapply rtc_trans; eassumption.
Qed.

Lemma sql_update_steps (where_ : Job -> bool) (set_ : Job -> Job) (rows : list Job) :
  Forall (fun j => where_ j = true -> row_step j (set_ j)) rows ->
  Forall2 (rtc row_step) rows (sql_update where_ set_ rows).
Proof.
  unfold sql_update. induction 1 as [|j rows Hj _ IH]; [constructor|].
  simpl. constructor; [|exact IH].
  destruct (where_ j); [apply rtc_once, Hj; reflexivity | apply rtc_refl].
Qed.

Lemma sql_update_checked_steps (where_ : Job -> bool) (set_ : Job -> result Job)
    (rows rows' : list Job) :
  (forall j j', set_ j = Ok j' -> row_step j j') ->
  sql_update_checked where_ set_ rows = Ok rows' ->
  Forall2 (rtc row_step) rows rows'.
Proof.
  intros Hset. revert rows'. induction rows as [|j rows IH]; intros rows'.
  - simpl. intros H. inversion H. constructor.
  - cbn [sql_update_checked]. destruct (where_ j).
    + destruct (set_ j) as [j'|e] eqn:E; simpl; [|discriminate].
      destruct (sql_update_checked where_ set_ rows) as [rest|e]; simpl; [|discriminate].
      intros H. inversion H; subst. constructor; [apply rtc_once, Hset, E | apply IH; reflexivity].
    + simpl.
      destruct (sql_update_checked where_ set_ rows) as [rest|e]; simpl; [|discriminate].
      intros H. inversion H; subst. constructor; [apply rtc_refl | apply IH; reflexivity].
Qed.

Lemma process_item_steps (cfg : Settings) (w : world) (now : Z) (db : DB)
    (id org : UUID) (sites : gmap string string) (i : nat) (company : string) :
  Forall2 (rtc row_step) (jobs db)
          (jobs (fst (process_item cfg w now db id org sites i company))).
Proof.
  unfold process_item.
  pose proof (enrich_company_stores cfg w now i db (Some id) org company
                (py_or (sites !! company) (sites !! pretty i))) as Hag.
  destruct (enrich_company cfg w now i db (Some id) org company _) as [db1 [row|e]].
  - destruct Hag as (Hj & _).
    destruct (sql_update_checked (has_id id) set_item_completed _) as [js|e] eqn:E;
      cbn [fst jobs with_jobs].
    + cbn [jobs insert_usage] in E. rewrite Hj in E.
      eapply sql_update_checked_steps; [|exact E]. apply step_item_completed.
    + rewrite Hj. apply steps_refl.
  - subst db1.
    destruct (insert_result db _) as [db2|e'] eqn:Hins; [|apply steps_refl].
    apply insert_result_ok in Hins. destruct Hins as (Hj & _).
    destruct (sql_update_checked (has_id id) set_item_failed _) as [js|e'] eqn:E;
      cbn [fst jobs with_jobs]; [|apply steps_refl].
    rewrite Hj in E. eapply sql_update_checked_steps; [|exact E]. apply step_item_failed.
Qed.

Lemma process_items_steps (cfg : Settings) (w : world) (now : Z)
    (id org : UUID) (sites : gmap string string) (cs : list string) :
  forall (db : DB) (i : nat),
    Forall2 (rtc row_step) (jobs db)
            (jobs (fst (process_items cfg w now db id org sites i cs))).
Proof.
  induction cs as [|c cs IH]; intros db i; [apply steps_refl|].
  cbn [process_items].
  pose proof (process_item_steps cfg w now db id org sites i c) as H.
  destruct (process_item cfg w now db id org sites i c) as [db' [e|]]; [exact H|].
  eapply steps_trans; [exact H | apply IH].
Qed.

Lemma status_in_swap (j : Job) :
  status_in ["running"; "queued"] j = status_in ["queued"; "running"] j.
Proof.
  unfold status_in. simpl. rewrite !orb_false_r. apply orb_comm.
Qed.

Lemma run_job_steps (cfg : Settings) (w : world) (now : Z) (task : string)
    (db : DB) (id org : UUID) :
  Forall2 (rtc row_step) (jobs db) (jobs (fst (_run_job cfg w now task db id org))).
Proof.
  unfold _run_job. destruct (get_job db id) as [job|]; [|apply steps_refl].
  assert (H1 : Forall2 (rtc row_step) (jobs db) (jobs (mark_running now task db id))).
  { apply sql_update_steps, List.Forall_forall. intros j _ _. apply step_running. }
  pose proof (process_items_steps cfg w now id org (websites (input_data job))
                (companies (input_data job)) (mark_running now task db id) 0) as H2.
  destruct (process_items cfg w now _ id org _ 0 _) as [db2 [e|]]; cbn [fst] in *.
  - eapply steps_trans; eassumption.
  - eapply steps_trans; [exact H1|]. eapply steps_trans; [exact H2|].
    apply sql_update_steps, List.Forall_forall. intros j _ _. apply step_completed.
Qed.

(** What a statement does to the job rows: the rows that were there are
    stepped, and at most one submitted row is added. *)
Lemma statement_steps (cfg : Settings) (db db' : DB) :
  List.NoDup (map job_id (jobs db)) ->
  statement cfg db db' ->
  exists rows' created,
    jobs db' = rows' ++ created /\
    Forall2 (rtc row_step) (jobs db) rows' /\
    Forall submitted created.
Proof.
  intros Hnd Hst. destruct Hst.
  - destruct (create_job_row _ _ _ _ _ _ _ _ _ H H0) as (Hjob & _).
    unfold create_job in H0.
    destruct (req_companies req); [discriminate|].
    destruct (_ >? 500); [discriminate|].
    destruct (_ >=? _); [discriminate|].
    inversion H0; subst. cbn [jobs with_jobs].
    exists (jobs db), [new_job now new_id task_id org req].
    split_and!; [reflexivity | apply steps_refl |].
    repeat constructor. unfold submitted. eauto 10.
  - exists (jobs (mark_running now task db id)), []. rewrite app_nil_r.
    split_and!; [reflexivity | | constructor].
    apply sql_update_steps, List.Forall_forall. intros j _ _. apply step_running.
  - eexists _, []. rewrite app_nil_r.
    split_and!; [reflexivity | apply process_item_steps | constructor].
  - eexists _, []. rewrite app_nil_r. split_and!; [reflexivity | | constructor].
    apply sql_update_steps, List.Forall_forall. intros j _ _. apply step_completed.
  - eexists _, []. rewrite app_nil_r. split_and!; [reflexivity | | constructor].
    apply sql_update_steps, List.Forall_forall. intros j _ Hw.
    apply andb_prop in Hw. apply step_failed, Hw.
  - eexists _, []. rewrite app_nil_r. split_and!; [reflexivity | | constructor].
    apply sql_update_steps, List.Forall_forall. intros j _ Hw.
    apply andb_prop in Hw. destruct Hw as [_ Hw]. apply String.eqb_eq in Hw.
    apply step_partial, Hw.
  - eexists _, []. rewrite app_nil_r. split_and!; [reflexivity | | constructor].
    apply sql_update_steps, List.Forall_forall. intros j _ Hw.
    unfold stuck_where in Hw. apply andb_prop in Hw. destruct Hw as [Hw _].
    rewrite status_in_swap in Hw. apply step_failed, Hw.
  - unfold cancel_job in H.
    destruct (get_job db id) as [job|] eqn:Hj; [|discriminate].
    destruct (negb (N.eqb (organization_id job) org)); [discriminate|].
    destruct (status_in ["queued"; "running"] job) eqn:Hs; cbn [negb] in H; [|discriminate].
    inversion H; subst db'. clear H. cbn [jobs with_jobs].
    eexists _, []. rewrite app_nil_r. split_and!; [reflexivity | | constructor].
    apply sql_update_steps, List.Forall_forall. intros j Hin Hw.
    unfold has_id in Hw. apply N.eqb_eq in Hw.
    pose proof (find_unique (jobs db) j Hnd Hin) as Hf. rewrite Hw in Hf.
    unfold get_job in Hj. rewrite Hj in Hf. inversion Hf; subst job.
    apply step_cancelled, Hs.
  - pose proof (enrich_company_stores cfg w now 0 db None org company website) as Hag.
    destruct (enrich_company cfg w now 0 db None org company website) as [db1 [row|e]];
      cbn [fst].
    + destruct Hag as (Hj & _). rewrite Hj.
      exists (jobs db), []. rewrite app_nil_r.
      split_and!; [reflexivity | apply steps_refl | constructor].
    + subst db1. exists (jobs db), []. rewrite app_nil_r.
      split_and!; [reflexivity | apply steps_refl | constructor].
Qed.

(** Every row of a reachable database is a submitted row that was stepped. *)
Lemma reachable_rows (cfg : Settings) (db : DB) :
  reachable cfg db ->
  Forall (fun j => exists j0, submitted j0 /\ rtc row_step j0 j) (jobs db).
Proof.
  induction 1 as [|db db' Hr IH Hst]; [constructor|].
  pose proof (reachable_inv cfg db Hr) as (Hnd & _).
  destruct (statement_steps cfg db db' Hnd Hst) as (rows' & created & -> & Hsteps & Hnew).
  apply List.Forall_app. split.
  - clear Hnew Hst. revert IH Hsteps. generalize (jobs db). intros rows IH Hsteps.
    induction Hsteps as [|j j' rows rows' Hjj _ IHs]; [constructor|].
    inversion IH as [|? ? (j0 & Hsub & Hj0) IHrest]; subst.
    constructor; [|apply IHs, IHrest].
    exists j0. split; [exact Hsub | eapply rtc_trans; eassumption].
  - eapply List.Forall_impl; [|exact Hnew].
    intros j Hj. exists j. split; [exact Hj | apply rtc_refl].
Qed.

(** A property of rows that submitted rows have and steps keep holds in
    every reachable database. *)
Lemma reachable_row_invariant (cfg : Settings) (P : Job -> Prop) (db : DB) :
  (forall j, submitted j -> P j) ->
  (forall j j', P j -> row_step j j' -> P j') ->
  reachable cfg db -> Forall P (jobs db).
Proof.
  intros Hnew Hstep Hr.
  eapply List.Forall_impl; [|apply (reachable_rows cfg db Hr)].
  intros j (j0 & Hsub & Hsteps).
  apply Hnew in Hsub. induction Hsteps as [|x y z Hxy _ IH]; [exact Hsub|].
  apply IH. eapply Hstep; eassumption.
Qed.

(** ** What holds of every job row *)

Lemma pct_bounds (c t : Z) :
  0 <= c <= t -> t <> 0 ->
  (0 <= inject_Z c / inject_Z t * 100)%Q /\ (inject_Z c / inject_Z t * 100 <= 100)%Q.
Proof.
  intros Hc Ht. destruct t as [|p|p]; try lia.
  unfold Qdiv, Qmult, Qinv, inject_Z, Qle. simpl. split; lia.
Qed.

Lemma set_item_completed_ok (j j' : Job) :
  set_item_completed j = Ok j' ->
  total_items j <> 0 /\
  j' = {| job_id := job_id j; organization_id := organization_id j;
          status := status j; input_data := input_data j;
          total_items := total_items j; completed_items := completed_items j + 1;
          failed_items := failed_items j;
          progress_pct := (inject_Z (completed_items j + 1)
                           / inject_Z (total_items j) * 100)%Q;
          celery_task_id := celery_task_id j; error_message := error_message j;
          credits_used := credits_used j + 1; created_at := created_at j;
          started_at := started_at j; completed_at := completed_at j |}.
Proof.
  unfold set_item_completed, pct.
  destruct (Z.eqb (total_items j) 0) eqn:E; simpl; [discriminate|].
  intros H. inversion H. split; [apply Z.eqb_neq, E | reflexivity].
Qed.

Lemma set_item_failed_ok (j j' : Job) :
  set_item_failed j = Ok j' ->
  total_items j <> 0 /\
  j' = {| job_id := job_id j; organization_id := organization_id j;
          status := status j; input_data := input_data j;
          total_items := total_items j; completed_items := completed_items j;
          failed_items := failed_items j + 1;
          progress_pct := (inject_Z (completed_items j + failed_items j + 1)
                           / inject_Z (total_items j) * 100)%Q;
          celery_task_id := celery_task_id j; error_message := error_message j;
          credits_used := credits_used j; created_at := created_at j;
          started_at := started_at j; completed_at := completed_at j |}.
Proof.
  unfold set_item_failed, pct.
  destruct (Z.eqb (total_items j) 0) eqn:E; simpl; [discriminate|].
  intros H. inversion H. split; [apply Z.eqb_neq, E | reflexivity].
Qed.

Lemma active_status (j : Job) :
  status_in ["queued"; "running"] j = true -> status j = "queued" \/ status j = "running".
Proof.
  unfold status_in. simpl. rewrite orb_false_r. intros H.
  apply orb_prop in H. destruct H as [H|H]; apply String.eqb_eq in H; auto.
Qed.

(** X12: the status of a job is well formed in every database that the
    system can reach.  It is one of queued, running, completed, partial,
    failed and cancelled; a job in a terminal status has its completion time
    set; a running job has its start time set; a queued job has neither, and
    no error message.  So among the active jobs the ones that never started
    are exactly the queued ones. *)
Theorem job_status_well_formed (cfg : Settings) (db : DB) (j : Job) :
  reachable cfg db -> In j (jobs db) ->
  In (status j) job_statuses /\
  (terminal (status j) = true -> exists t, completed_at j = Some t) /\
  (status j = "running" -> exists t, started_at j = Some t) /\
  (status j = "queued" ->
     started_at j = None /\ completed_at j = None /\ error_message j = None) /\
  (status_in ["queued"; "running"] j = true ->
     (started_at j = None <-> status j = "queued")).
Proof.
  intros Hr Hin.
  assert (H : In (status j) job_statuses /\
              (terminal (status j) = true -> exists t, completed_at j = Some t) /\
              (status j = "running" -> exists t, started_at j = Some t) /\
              (status j = "queued" ->
                 started_at j = None /\ completed_at j = None /\ error_message j = None)).
  { revert j Hin. apply List.Forall_forall.
    apply (reachable_row_invariant cfg); [| |exact Hr].
    - intros j (now & id & task & org & req & ->). unfold new_job, job_statuses.
      cbn. split_and!; auto; discriminate.
    - intros j j' (P1 & P2 & P3 & P4) Hstep.
      destruct Hstep as [now task|j' Hok|j' Hok|now|msg now Hact|msg now Hrun|now Hact].
      + unfold job_statuses. cbn. split_and!; eauto; discriminate.
      + apply set_item_completed_ok in Hok. destruct Hok as [_ ->]. cbn.
        split_and!; auto.
      + apply set_item_failed_ok in Hok. destruct Hok as [_ ->]. cbn.
        split_and!; auto.
      + unfold job_statuses. cbn. split_and!; eauto; discriminate.
      + unfold job_statuses. cbn. split_and!; eauto 10; discriminate.
      + unfold job_statuses. cbn. split_and!; eauto 10; discriminate.
      + unfold job_statuses. cbn. split_and!; eauto 10; discriminate. }
  destruct H as (H1 & H2 & H3 & H4). split_and!; auto.
  intros Hact. apply active_status in Hact. split.
  - intros Hnone. destruct Hact as [Hq|Hrun]; [exact Hq|].
    destruct (H3 Hrun) as [t Ht]. congruence.
  - intros Hq. apply H4, Hq.
Qed.

Lemma job_status_well_formed_witness :
  let db := fst (_run_job default_settings (always_stop "{}") 5 "run-1" sample_db 1%N 7%N) in
  Forall (fun j => status j = "completed" /\ exists t, completed_at j = Some t) (jobs db).
Proof.
  cbv zeta.
  assert (Hr : reachable default_settings
                 (fst (_run_job default_settings (always_stop "{}") 5 "run-1"
                         sample_db 1%N 7%N))).
  { apply run_job_reachable, sample_db_reachable. }
  apply List.Forall_forall. intros j Hin.
  destruct (job_status_well_formed default_settings _ j Hr Hin) as (_ & H & _).
  vm_compute in Hin. destruct Hin as [<- | []].
  split; [reflexivity | apply H; reflexivity].
Defined.

(** X13: in every database that the system can reach, a job has used one
    credit for each item it completed and none for a failed one, and its
    progress lies between 0 and 100 (it can go down, but never leaves that
    range). *)
Theorem credits_and_progress_in_range (cfg : Settings) (db : DB) (j : Job) :
  reachable cfg db -> In j (jobs db) ->
  credits_used j = completed_items j /\
  0 <= credits_used j <= total_items j /\
  (0 <= progress_pct j)%Q /\ (progress_pct j <= 100)%Q.
Proof.
  intros Hr Hin.
  destruct (inv_bound db j (reachable_inv cfg db Hr) Hin) as (Ht & Hc & Hf & Hb).
  assert (H : credits_used j = completed_items j /\
              0 <= completed_items j /\ 0 <= failed_items j /\
              (progress_pct j = 0%Q \/ progress_pct j = 100%Q \/
               exists c, 0 <= c <= completed_items j + failed_items j /\
                         total_items j <> 0 /\
                         progress_pct j
                         = (inject_Z c / inject_Z (total_items j) * 100)%Q)).
  { revert j Hin Ht Hc Hf Hb. intros j Hin _ _ _ _. revert j Hin.
    apply List.Forall_forall.
    apply (reachable_row_invariant cfg); [| |exact Hr].
    - intros j (now & id & task & org & req & ->). unfold new_job. cbn.
      split_and!; auto; lia.
    - intros j j' (P1 & P2 & P3 & P4) Hstep.
      destruct Hstep as [now task|j' Hok|j' Hok|now|msg now Hact|msg now Hrun|now Hact];
        try (cbn; split_and!; auto; fail).
      + apply set_item_completed_ok in Hok. destruct Hok as [Hne ->]. cbn.
        split_and!; try lia. right. right.
        exists (completed_items j + 1). split_and!; auto; lia.
      + apply set_item_failed_ok in Hok. destruct Hok as [Hne ->]. cbn.
        split_and!; try lia. right. right.
        exists (completed_items j + failed_items j + 1). split_and!; auto; lia. }
  destruct H as (H1 & _ & _ & H4). split_and!; try lia.
  - destruct H4 as [-> | [-> | (c & Hc' & Hne & ->)]]; try (unfold Qle; simpl; lia).
    apply pct_bounds; lia.
  - destruct H4 as [-> | [-> | (c & Hc' & Hne & ->)]]; try (unfold Qle; simpl; lia).
    apply pct_bounds; lia.
Qed.

Lemma credits_and_progress_in_range_witness :
  let db := fst (process_items default_settings two_bad_items 0
                   (mark_running 0 "run-1" sample_db 1%N) 1%N 7%N ∅ 0
                   ["Acme"; "Initech"; "Hooli"]) in
  Forall (fun j => credits_used j = 1 /\ completed_items j = 1 /\ failed_items j = 2 /\
                   (0 <= progress_pct j)%Q /\ (progress_pct j <= 100)%Q) (jobs db).
Proof.
  cbv zeta.
  assert (Hr : reachable default_settings
                 (fst (process_items default_settings two_bad_items 0
                         (mark_running 0 "run-1" sample_db 1%N) 1%N 7%N ∅ 0
                         ["Acme"; "Initech"; "Hooli"]))).
  { apply (run_prefix_reachable default_settings two_bad_items 0 "run-1" sample_db
             1%N 7%N sample_job ["Acme"; "Initech"; "Hooli"] []);
      [apply sample_db_reachable | reflexivity | reflexivity]. }
  apply List.Forall_forall. intros j Hin.
  destruct (credits_and_progress_in_range default_settings _ j Hr Hin)
    as (_ & _ & H3 & H4).
  vm_compute in Hin. destruct Hin as [<- | []].
  split_and!; try reflexivity; assumption.
Defined.

(** X14: the result rows of a reachable database.  A row that names a job
    names a stored job and one of the names that job was submitted with; a
    job has at least one row for each item it counted as completed or failed,
    and never more rows than names. *)
Theorem results_belong_to_submitted_names (cfg : Settings) (db : DB) :
  reachable cfg db ->
  (forall r id, In r (enrichment_results db) -> er_job_id r = Some id ->
     exists j, get_job db id = Some j /\
               In (input_name r) (companies (input_data j))) /\
  (forall j, In j (jobs db) ->
     completed_items j + failed_items j
       <= Z.of_nat (length (job_rows (job_id j) (enrichment_results db)))
       <= total_items j).
Proof.
  intros Hr. pose proof (reachable_inv cfg db Hr) as (Hnd & Huq & Hfk & Hjobs).
  split.
  - intros r id Hin Hid. destruct (Hfk r id Hin Hid) as (j & Hj & Hjid).
    exists j. split.
    + unfold get_job. rewrite <- Hjid. apply find_unique; assumption.
    + rewrite List.Forall_forall in Hjobs.
      destruct (Hjobs j Hj) as (_ & _ & _ & _ & Hnames & _).
      apply Hnames. unfold job_rows. apply List.filter_In. split; [exact Hin|].
      rewrite Hid, Hjid. apply N.eqb_refl.
  - intros j Hj. rewrite List.Forall_forall in Hjobs.
    destruct (Hjobs j Hj) as (Ht & _ & _ & Hle & Hnames & _).
    split; [exact Hle|]. rewrite Ht. apply inj_le.
    apply job_rows_bound; assumption.
Qed.

Lemma results_belong_to_submitted_names_witness :
  let db := fst (_run_job default_settings (always_stop "{}") 5 "run-1" sample_db 1%N 7%N) in
  Forall (fun r => exists j, get_job db 1%N = Some j /\
                             In (input_name r) (companies (input_data j)))
         (enrichment_results db).
Proof.
  cbv zeta. apply List.Forall_forall. intros r Hin.
  apply (results_belong_to_submitted_names default_settings
           (fst (_run_job default_settings (always_stop "{}") 5 "run-1" sample_db 1%N 7%N))).
  - apply run_job_reachable, sample_db_reachable.
  - exact Hin.
  - vm_compute in Hin. destruct Hin as [<- | [<- | [<- | []]]]; reflexivity.
Defined.

(** ** The Celery tasks *)

Lemma process_item_rows_of (R : Job -> Job -> Prop) (cfg : Settings) (w : world)
    (now : Z) (db : DB) (id org : UUID) (sites : gmap string string) (i : nat)
    (company : string) :
  (forall j, R j j) ->
  (forall j j', set_item_completed j = Ok j' -> R j j') ->
  (forall j j', set_item_failed j = Ok j' -> R j j') ->
  rows_of id R (jobs db) (jobs (fst (process_item cfg w now db id org sites i company))).
Proof.
  intros Hrefl Hc Hf. unfold process_item.
  pose proof (enrich_company_stores cfg w now i db (Some id) org company
                (py_or (sites !! company) (sites !! pretty i))) as Hag.
  destruct (enrich_company cfg w now i db (Some id) org company _) as [db1 [row|e]].
  - destruct Hag as (Hj & _).
    destruct (sql_update_checked (has_id id) set_item_completed _) as [js|e] eqn:E;
      cbn [fst jobs with_jobs].
    + cbn [jobs insert_usage] in E. rewrite Hj in E.
      eapply sql_update_checked_rows; [exact Hc | exact E].
    + rewrite Hj. apply rows_of_refl, Hrefl.
  - subst db1.
    destruct (insert_result db _) as [db2|e'] eqn:Hins; [|apply rows_of_refl, Hrefl].
    apply insert_result_ok in Hins. destruct Hins as (Hj & _).
    destruct (sql_update_checked (has_id id) set_item_failed _) as [js|e'] eqn:E;
      cbn [fst jobs with_jobs]; [|apply rows_of_refl, Hrefl].
    rewrite Hj in E. eapply sql_update_checked_rows; [exact Hf | exact E].
Qed.

Lemma process_items_rows_of (R : Job -> Job -> Prop) (cfg : Settings) (w : world)
    (now : Z) (id org : UUID) (sites : gmap string string) (cs : list string) :
  (forall j, R j j) ->
  (forall a b c, R a b -> R b c -> R a c) ->
  (forall j j', R j j' -> job_id j' = job_id j) ->
  (forall j j', set_item_completed j = Ok j' -> R j j') ->
  (forall j j', set_item_failed j = Ok j' -> R j j') ->
  forall (db : DB) (i : nat),
    rows_of id R (jobs db) (jobs (fst (process_items cfg w now db id org sites i cs))).
Proof.
  intros Hrefl Htrans Hid Hc Hf.
  induction cs as [|c cs IH]; intros db i; [apply rows_of_refl, Hrefl|].
  cbn [process_items].
  pose proof (process_item_rows_of R cfg w now db id org sites i c Hrefl Hc Hf) as H.
  destruct (process_item cfg w now db id org sites i c) as [db' [e|]]; [exact H|].
  cbn [fst] in H. eapply (rows_of_trans id R R R); [exact Hid | exact Htrans | exact H | apply IH].
Qed.

Lemma find_sql_update_guarded (id : UUID) (g : Job -> bool) (f : Job -> Job)
    (rows : list Job) (j : Job) :
  (forall j, job_id (f j) = job_id j) ->
  List.find (has_id id) rows = Some j ->
  List.find (has_id id) (sql_update (fun j => has_id id j && g j) f rows)
  = Some (if g j then f j else j).
Proof.
  intros Hid. unfold sql_update.
  induction rows as [|r rows IH]; [discriminate|].
  cbn [List.find map]. destruct (has_id id r) eqn:E.
  - intros H. inversion H; subst r. cbn [andb].
    destruct (g j); unfold has_id in *; rewrite ?Hid, E; reflexivity.
  - intros H. cbn [andb]. rewrite E. apply IH, H.
Qed.

(** A run of the orchestrator on a stored job: it returns with the job
    completed, or it raises with the job running. *)
Lemma job_run_ends (cfg : Settings) (w : world) (now : Z) (task : string)
    (id org : UUID) (db : DB) (job : Job) :
  get_job db id = Some job ->
  exists j, get_job (fst (job_run cfg w now task id org db)) id = Some j /\
    match snd (job_run cfg w now task id org db) with
    | RunReturned => status j = "completed"
    | RunRaised _ => status j = "running"
    | RunSoftTimeLimit => False
    end.
Proof.
  intros Hjob. unfold job_run, _run_job. rewrite Hjob.
  set (R := fun j j' : Job => job_id j' = job_id j /\ status j' = status j).
  pose proof (process_items_rows_of R cfg w now id org (websites (input_data job))
                (companies (input_data job))) as Hrows.
  specialize (Hrows ltac:(intros; split; reflexivity)
                    ltac:(intros a b c [? ?] [? ?]; split; congruence)
                    ltac:(intros ? ? [? ?]; assumption)).
  assert (Hc : forall j j', set_item_completed j = Ok j' -> R j j').
  { intros j j' H. apply set_item_completed_ok in H. destruct H as [_ ->]. split; reflexivity. }
  assert (Hf : forall j j', set_item_failed j = Ok j' -> R j j').
  { intros j j' H. apply set_item_failed_ok in H. destruct H as [_ ->]. split; reflexivity. }
  specialize (Hrows Hc Hf (mark_running now task db id) 0%nat).
  assert (Hstart : get_job (mark_running now task db id) id
                   = Some (set_running now task job)).
  { unfold get_job, mark_running. cbn [jobs with_jobs].
    apply find_sql_update; [reflexivity | exact Hjob]. }
  pose proof (rows_of_find id R _ _ ltac:(intros ? ? [? ?]; assumption) Hrows) as Hfind.
  unfold get_job in Hstart. rewrite Hstart in Hfind.
  destruct Hfind as (j' & Hj' & _ & Hst).
  destruct (process_items cfg w now _ id org _ 0 _) as [db2 [e|]]; cbn [fst snd] in *.
  - exists j'. split; [exact Hj' | exact Hst].
  - exists (set_completed now j'). split; [|reflexivity].
    unfold get_job, mark_completed. cbn [jobs with_jobs].
    apply find_sql_update; [reflexivity | exact Hj'].
Qed.

Lemma job_task_deliveries (now : nat -> Z) (run : nat -> DB -> DB * run_end) (id : UUID) :
  forall (fuel retries : nat) (db : DB),
    (1 <= fuel)%nat -> (4 <= retries + fuel)%nat ->
    exists db' last n,
      deliveries fuel retries (fun k d => enrich_job_task (now k) k (run k) d id) db
      = (db', Some last, n) /\
      (1 <= n <= fuel)%nat /\ (retries < 4 -> retries + n <= 4)%nat /\
      (forall c e, last <> TaskRetry c e) /\
      (forall e, last = TaskRaised e -> (4 <= retries + n)%nat) /\
      (forall more,
         deliveries (fuel + more) retries
           (fun k d => enrich_job_task (now k) k (run k) d id) db
         = (db', Some last, n)).
Proof.
  induction fuel as [|fuel IH]; intros retries db Hfuel Hsum; [lia|].
  cbn [deliveries Nat.add]. unfold enrich_job_task at 1 3.
  destruct (run retries db) as [db1 [| |e]].
  - exists db1, TaskReturned, 1%nat. split_and!; auto; try lia; discriminate.
  - eexists _, TaskReturned, 1%nat. split_and!; auto; try lia; discriminate.
  - destruct (retries <? 3)%nat eqn:E.
    + apply Nat.ltb_lt in E.
      destruct (IH (S retries) db1 ltac:(lia) ltac:(lia))
        as (db' & last & n & Hd & Hn & Hle & Hnr & Hraised & Hmore).
      rewrite Hd. exists db', last, (S n).
      split_and!; auto; try lia.
      * intros e' He'. specialize (Hraised e' He'). lia.
      * intros more. rewrite Hmore. reflexivity.
    + apply Nat.ltb_ge in E.
      eexists _, (TaskRaised e), 1%nat. split_and!; auto; try lia; discriminate.
Qed.

(** X15: the retries of the job task.  A delivery whose run raised asks for
    another delivery in 60 seconds as long as fewer than three retries were
    made, so the task is delivered at most four times and its deliveries
    always come to an end; it gives up, and raises, only at the fourth
    delivery.  A run that hit the soft time limit is not retried: the task
    marks the job partial and returns. *)
Theorem job_task_retry_policy (now : nat -> Z) (run : nat -> DB -> DB * run_end)
    (id : UUID) (db : DB) :
  let task := fun k d => enrich_job_task (now k) k (run k) d id in
  (exists db' last n,
     deliveries 4 0 task db = (db', Some last, n) /\
     (1 <= n <= 4)%nat /\
     (forall c e, last <> TaskRetry c e) /\
     (forall e, last = TaskRaised e -> n = 4%nat) /\
     (forall more, deliveries (4 + more) 0 task db = (db', Some last, n))) /\
  (forall k d d', (k < 3)%nat -> forall e, run k d = (d', RunRaised e) ->
     task k d = (d', TaskRetry 60 e)) /\
  (forall k d d', run k d = (d', RunSoftTimeLimit) ->
     snd (task k d) = TaskReturned /\
     forall j, get_job d' id = Some j -> status j = "running" ->
       exists j', get_job (fst (task k d)) id = Some j' /\ status j' = "partial") /\
  (forall k d d' e, (3 <= k)%nat -> run k d = (d', RunRaised e) ->
     snd (task k d) = TaskRaised e /\
     forall j, get_job d' id = Some j -> status_in ["queued"; "running"] j = true ->
       exists j', get_job (fst (task k d)) id = Some j' /\ status j' = "failed" /\
                  error_message j' = Some (take_chars 1000 (str_exn e))).
Proof.
  cbv zeta. split_and!.
  - destruct (job_task_deliveries now run id 4 0 db ltac:(lia) ltac:(lia))
      as (db' & last & n & Hd & Hn & Hle & Hnr & Hraised & Hmore).
    exists db', last, n. split_and!; auto; try lia.
    intros e He. specialize (Hraised e He). lia.
  - intros k d d' Hk e Hrun. unfold enrich_job_task. rewrite Hrun.
    apply Nat.ltb_lt in Hk. rewrite Hk. reflexivity.
  - intros k d d' Hrun. unfold enrich_job_task. rewrite Hrun. cbn [fst snd].
    split; [reflexivity|]. intros j Hj Hs.
    unfold get_job, _mark_job_partial in *. cbn [jobs with_jobs].
    rewrite (find_sql_update_guarded id (fun j => String.eqb (status j) "running")
               (set_ended "partial" _ (now k)) (jobs d') j (fun _ => eq_refl) Hj).
    rewrite Hs. cbn. eexists. split; reflexivity.
  - intros k d d' e Hk Hrun. unfold enrich_job_task. rewrite Hrun.
    apply Nat.ltb_ge in Hk. rewrite Hk. cbn [fst snd].
    split; [reflexivity|]. intros j Hj Hs.
    unfold get_job, _mark_job_failed in *. cbn [jobs with_jobs].
    rewrite (find_sql_update_guarded id (status_in ["queued"; "running"])
               (set_ended "failed" _ (now k)) (jobs d') j (fun _ => eq_refl) Hj).
    rewrite Hs. cbn. eexists. split_and!; reflexivity.
Qed.

Lemma job_task_retry_policy_witness :
  let run := fun (_ : nat) (d : DB) => (d, RunRaised (IntegrityError "duplicate key")) in
  let db := mark_running 1 "run-1" sample_db 1%N in
  snd (enrich_job_task 9 3 (run 3%nat) db 1%N) = TaskRaised (IntegrityError "duplicate key") /\
  exists j, get_job (fst (enrich_job_task 9 3 (run 3%nat) db 1%N)) 1%N = Some j /\
            status j = "failed" /\ error_message j = Some "duplicate key".
Proof.
  cbv zeta.
  destruct (job_task_retry_policy (fun _ => 9)
              (fun (_ : nat) (d : DB) => (d, RunRaised (IntegrityError "duplicate key")))
              1%N sample_db) as (_ & _ & _ & H).
  destruct (H 3%nat (mark_running 1 "run-1" sample_db 1%N) _ _ ltac:(lia) eq_refl)
    as (H1 & H2).
  split; [exact H1|].
  destruct (H2 _ ltac:(vm_compute; reflexivity) ltac:(vm_compute; reflexivity))
    as (j' & Hj & Hs & He).
  exists j'. split_and!; [exact Hj | exact Hs | exact He].
Defined.

Lemma job_run_deliveries (cfg : Settings) (w : nat -> world) (now : nat -> Z)
    (task : nat -> string) (id org : UUID) :
  forall (fuel retries : nat) (db : DB) (job : Job),
    get_job db id = Some job ->
    (1 <= fuel)%nat -> (4 <= retries + fuel)%nat ->
    exists db' last n j,
      deliveries fuel retries
        (fun k d => enrich_job_task (now k) k
                      (job_run cfg (w k) (now k) (task k) id org) d id) db
      = (db', Some last, n) /\
      (1 <= n <= fuel)%nat /\
      get_job db' id = Some j /\
      ((last = TaskReturned /\ status j = "completed") \/
       (exists e, last = TaskRaised e /\ (4 <= retries + n)%nat /\
                  status j = "failed" /\
                  error_message j = Some (take_chars 1000 (str_exn e)))).
Proof.
  induction fuel as [|fuel IH]; intros retries db job Hjob Hfuel Hsum; [lia|].
  cbn [deliveries]. unfold enrich_job_task at 1.
  destruct (job_run_ends cfg (w retries) (now retries) (task retries) id org db job Hjob)
    as (j & Hj & Hend).
  destruct (job_run cfg (w retries) (now retries) (task retries) id org db)
    as [db1 [| |e]]; cbn [fst snd] in *; [|destruct Hend|].
  - exists db1, TaskReturned, 1%nat, j. split_and!; auto; lia.
  - destruct (retries <? 3)%nat eqn:E.
    + apply Nat.ltb_lt in E.
      destruct (IH (S retries) db1 j Hj ltac:(lia) ltac:(lia))
        as (db' & last & n & j' & Hd & Hn & Hj' & Hlast).
      rewrite Hd. exists db', last, (S n), j'. split_and!; auto; try lia.
      destruct Hlast as [Hl | (e' & Hl & Hn' & Hrest)]; [left; exact Hl|].
      right. exists e'. split_and!; try tauto. lia.
    + apply Nat.ltb_ge in E.
      eexists _, (TaskRaised e), 1%nat, _. split_and!; [reflexivity | lia | lia | |].
      * unfold get_job, _mark_job_failed in *. cbn [jobs with_jobs].
        apply (find_sql_update_guarded id (status_in ["queued"; "running"])
                 (set_ended "failed" (take_chars 1000 (str_exn e)) (now retries))
                 (jobs db1) j (fun _ => eq_refl) Hj).
      * right. exists e. unfold status_in. rewrite Hend. cbn.
        split_and!; auto. lia.
Qed.

(** X16: a job task whose job is stored, and whose runs are not cut short by
    the time limit, ends within four deliveries in one of two ways: a run
    returned, and the job is completed; or four runs raised, and the job is
    failed with the text of the last error, cut to 1000 characters, as its
    message. *)
Theorem job_task_ends_completed_or_failed (cfg : Settings) (w : nat -> world)
    (now : nat -> Z) (task : nat -> string) (id org : UUID) (db : DB) (job : Job) :
  get_job db id = Some job ->
  exists db' last n j,
    deliveries 4 0
      (fun k d => enrich_job_task (now k) k
                    (job_run cfg (w k) (now k) (task k) id org) d id) db
    = (db', Some last, n) /\
    (1 <= n <= 4)%nat /\
    get_job db' id = Some j /\
    ((last = TaskReturned /\ status j = "completed") \/
     (exists e, last = TaskRaised e /\ n = 4%nat /\ status j = "failed" /\
                error_message j = Some (take_chars 1000 (str_exn e)))).
Proof.
  intros Hjob.
  destruct (job_run_deliveries cfg w now task id org 4 0 db job Hjob ltac:(lia) ltac:(lia))
    as (db' & last & n & j & Hd & Hn & Hj & Hlast).
  exists db', last, n, j. split_and!; auto; try lia.
  destruct Hlast as [Hl | (e & Hl & Hn' & Hrest)]; [left; exact Hl|].
  right. exists e. split_and!; try tauto. lia.
Qed.

Example job_task_second_delivery_fails :
  let w := fun _ : nat => always_stop "{}" in
  let first := fst (_run_job default_settings (always_stop "{}") 1 "run-1" sample_db 1%N 7%N) in
  let again :=
    deliveries 4 0
      (fun k d => enrich_job_task 9 k
                    (job_run default_settings (w k) 9 "run-2" 1%N 7%N) d 1%N) first in
  map status (jobs first) = ["completed"] /\
  snd again = 4%nat /\
  map status (jobs (fst (fst again))) = ["failed"] /\
  length (enrichment_results (fst (fst again))) = 3%nat.
Proof. vm_compute. repeat split. Qed.

Lemma job_task_ends_completed_or_failed_witness :
  exists db' n j,
    deliveries 4 0
      (fun k d => enrich_job_task 9 k
                    (job_run default_settings (always_stop "{}") 9 "run-1" 1%N 7%N) d 1%N)
      sample_db
    = (db', Some TaskReturned, n) /\
    get_job db' 1%N = Some j /\ status j = "completed".
Proof.
  destruct (job_task_ends_completed_or_failed default_settings
              (fun _ => always_stop "{}") (fun _ => 9) (fun _ => "run-1") 1%N 7%N
              sample_db sample_job eq_refl)
    as (db' & last & n & j & Hd & _ & Hj & Hlast).
  assert (Hl : last = TaskReturned).
  { vm_compute in Hd. inversion Hd. reflexivity. }
  subst last. exists db', n, j. split_and!; [exact Hd | exact Hj |].
  destruct Hlast as [[_ Hs] | (e & He & _)]; [exact Hs | discriminate He].
Defined.

Lemma single_run_stores (cfg : Settings) (w : world) (now : Z) (org : UUID)
    (company : string) (website : option string) (db : DB) :
  match single_run cfg w now org company website db with
  | (db', RunReturned) =>
      jobs db' = jobs db /\
      exists row u, enrichment_results db' = enrichment_results db ++ [row] /\
                    er_job_id row = None /\ input_name row = company /\
                    usage_logs db' = usage_logs db ++ [u]
  | (db', RunRaised _) => db' = db
  | (_, RunSoftTimeLimit) => False
  end.
Proof.
  unfold single_run.
  pose proof (enrich_company_stores cfg w now 0 db None org company website) as H.
  destruct (enrich_company cfg w now 0 db None org company website) as [db' [row|e]].
  - destruct H as (Hj & Hr & Hid & Hn & _ & u & Hu & _). split; [exact Hj|].
    exists row, u. auto.
  - exact H.
Qed.

(** X17: the single-company task.  It is delivered at most three times and
    always ends by returning, whatever its runs raise.  However often it is
    retried, it stores at most one result row, with no job, and one usage
    row with it: a run that raised stored nothing, and the run that returns
    is the last.  The jobs are not written. *)
Theorem single_task_stores_at_most_once (cfg : Settings) (w : nat -> world)
    (now : nat -> Z) (org : UUID) (company : string) (website : option string)
    (db : DB) :
  let task := fun k d => single_enrich_task k
                           (single_run cfg (w k) (now k) org company website) d in
  exists db' n,
    deliveries 3 0 task db = (db', Some TaskReturned, n) /\
    (1 <= n <= 3)%nat /\
    (forall more, deliveries (3 + more) 0 task db = (db', Some TaskReturned, n)) /\
    jobs db' = jobs db /\
    (db' = db \/
     exists row u, enrichment_results db' = enrichment_results db ++ [row] /\
                   er_job_id row = None /\ input_name row = company /\
                   usage_logs db' = usage_logs db ++ [u]).
Proof.
  cbv zeta.
  assert (Hstep : forall k,
            match single_enrich_task k
                    (single_run cfg (w k) (now k) org company website) db with
            | (db', TaskReturned) =>
                jobs db' = jobs db /\
                (db' = db \/
                 exists row u, enrichment_results db' = enrichment_results db ++ [row] /\
                               er_job_id row = None /\ input_name row = company /\
                               usage_logs db' = usage_logs db ++ [u])
            | (db', TaskRetry _ _) => db' = db /\ (k < 2)%nat
            | (_, TaskRaised _) => False
            end).
  { intros k. unfold single_enrich_task.
    pose proof (single_run_stores cfg (w k) (now k) org company website db) as H.
    destruct (single_run cfg (w k) (now k) org company website db) as [db' [| |e]].
    - destruct H as [Hj Hrow]. auto.
    - destruct H.
    - subst db'. destruct (k <? 2)%nat eqn:E; [|auto].
      apply Nat.ltb_lt in E. auto. }
  cbn [deliveries Nat.add].
  pose proof (Hstep 0%nat) as H0.
  destruct (single_enrich_task 0 _ db) as [d0 [|c0 e0|e0]]; [| |destruct H0].
  { exists d0, 1%nat. destruct H0. split_and!; auto. }
  destruct H0 as [-> _].
  pose proof (Hstep 1%nat) as H1.
  destruct (single_enrich_task 1 _ db) as [d1 [|c1 e1|e1]]; [| |destruct H1].
  { exists d1, 2%nat. destruct H1. split_and!; auto. }
  destruct H1 as [-> _].
  pose proof (Hstep 2%nat) as H2.
  destruct (single_enrich_task 2 _ db) as [d2 [|c2 e2|e2]]; [| |destruct H2].
  { exists d2, 3%nat. destruct H2. split_and!; auto. }
  destruct H2 as [_ H2]. lia.
Qed.

Example single_task_gives_up :
  let task := fun k d => single_enrich_task k
                (single_run default_settings two_bad_items 1 7%N "Acme" None) d in
  deliveries 3 0 task empty_db = (empty_db, Some TaskReturned, 3%nat).
Proof. vm_compute. reflexivity. Qed.

(** ** The listings *)

Section Ordering.
Context {A : Type} (le : A -> A -> bool).

Lemma insert_by_length (x : A) (l : list A) :
  length (insert_by le x l) = S (length l).
Proof.
  induction l as [|y l IH]; [reflexivity|].
  simpl. destruct (le x y); simpl; [reflexivity | rewrite IH; reflexivity].
Qed.

Lemma insert_by_forall (P : A -> Prop) (x : A) (l : list A) :
  Forall P (insert_by le x l) <-> P x /\ Forall P l.
Proof.
  induction l as [|y l IH]; simpl.
  - split; [intros H; inversion H; auto | intros [H _]; auto].
  - destruct (le x y).
    + split; [intros H; inversion H; auto | intros [H1 H2]; auto].
    + split.
      * intros H. inversion H as [|? ? Hy Hrest]; subst.
        apply IH in Hrest. destruct Hrest. auto.
      * intros [Hx H]. inversion H; subst. constructor; [assumption|].
        apply IH. auto.
Qed.

Lemma order_by_length (l : list A) : length (order_by le l) = length l.
Proof.
  induction l as [|x l IH]; [reflexivity|].
  unfold order_by in *. simpl. rewrite insert_by_length, IH. reflexivity.
Qed.

Lemma order_by_forall (P : A -> Prop) (l : list A) :
  Forall P l -> Forall P (order_by le l).
Proof.
  induction 1 as [|x l Hx _ IH]; [constructor|].
  unfold order_by in *. simpl. apply insert_by_forall. auto.
Qed.

Hypothesis le_total : forall a b, le a b = true \/ le b a = true.
Hypothesis le_trans : forall a b c, le a b = true -> le b c = true -> le a c = true.

Lemma insert_by_sorted (x : A) (l : list A) :
  StronglySorted (fun a b => le a b = true) l ->
  StronglySorted (fun a b => le a b = true) (insert_by le x l).
Proof.
  induction 1 as [|y l Hs IH Hy]; simpl; [repeat constructor|].
  destruct (le x y) eqn:E.
  - constructor; [constructor; assumption|].
    constructor; [exact E|].
    eapply List.Forall_impl; [|exact Hy]. intros z Hz. eapply le_trans; eassumption.
  - constructor; [exact IH|]. apply insert_by_forall. split; [|exact Hy].
    destruct (le_total x y) as [H|H]; [congruence | exact H].
Qed.

Lemma order_by_sorted (l : list A) :
  StronglySorted (fun a b => le a b = true) (order_by le l).
Proof.
  induction l as [|x l IH]; [constructor|].
  unfold order_by in *. simpl. apply insert_by_sorted, IH.
Qed.
End Ordering.

Lemma sorted_drop {A : Type} (R : A -> A -> Prop) (n : nat) (l : list A) :
  StronglySorted R l -> StronglySorted R (drop n l).
Proof.
  revert l. induction n as [|n IH]; intros l H; [exact H|].
  destruct H; [constructor | apply IH; assumption].
Qed.

Lemma sorted_take {A : Type} (R : A -> A -> Prop) (n : nat) (l : list A) :
  StronglySorted R l -> StronglySorted R (take n l).
Proof.
  revert l. induction n as [|n IH]; intros l H; [constructor|].
  destruct H as [|x l Hs Hx]; [constructor|].
  simpl. constructor; [apply IH, Hs|].
  apply List.Forall_forall. intros y Hy.
  rewrite List.Forall_forall in Hx. apply Hx.
  clear -Hy. revert n Hy. induction l as [|z l IHl]; intros [|n] Hy; simpl in *; try tauto.
  destruct Hy as [-> | Hy]; [auto | right; eapply IHl, Hy].
Qed.

Lemma forall_take_drop {A : Type} (P : A -> Prop) (n m : nat) (l : list A) :
  Forall P l -> Forall P (take n (drop m l)).
Proof.
  intros H. apply List.Forall_forall. intros x Hx.
  rewrite List.Forall_forall in H. apply H.
  assert (Hd : In x (drop m l)).
  { clear -Hx. revert n Hx. generalize (drop m l). intros k.
    induction k as [|z k IH]; intros [|n] Hx; simpl in *; try tauto.
    destruct Hx as [-> | Hx]; [auto | right; eapply IH, Hx]. }
  clear -Hd. revert l Hd. induction m as [|m IH]; intros [|z l] Hd; simpl in *; try tauto.
  right. apply IH, Hd.
Qed.

Lemma sorted_impl {A : Type} (R R' : A -> A -> Prop) (l : list A) :
  (forall a b, R a b -> R' a b) -> StronglySorted R l -> StronglySorted R' l.
Proof.
  intros HR. induction 1 as [|a l _ IH Ha]; constructor; [exact IH|].
  eapply List.Forall_impl; [|exact Ha]. intros b. apply HR.
Qed.

(** A page of a listing, for a page number and a limit of at least one. *)
Lemma paged_ok {A : Type} (cap page limit : Z) (ordered : list A) :
  1 <= cap -> 1 <= page -> 1 <= limit ->
  let L := Z.min limit cap in
  let total := Z.of_nat (length ordered) in
  exists p,
    paged cap page limit ordered = Ok p /\
    page_rows p = take (Z.to_nat L) (drop (Z.to_nat ((page - 1) * L)) ordered) /\
    page_total p = total /\ page_number p = page /\
    Z.of_nat (length (page_rows p)) = Z.max 0 (Z.min L (total - (page - 1) * L)) /\
    1 <= page_pages p /\
    (page_pages p - 1) * L < Z.max 1 total <= page_pages p * L /\
    (page_pages p < page -> page_rows p = []).
Proof.
  intros Hcap Hpage Hlimit L total.
  assert (HL : 1 <= L) by (unfold L; lia).
  assert (Hoff : 0 <= (page - 1) * L) by nia.
  unfold paged. fold L. unfold offset_limit, page_count.
  destruct ((page - 1) * L <? 0) eqn:E1; [apply Z.ltb_lt in E1; lia|].
  destruct (L <? 0) eqn:E2; [apply Z.ltb_lt in E2; lia|].
  destruct (L =? 0) eqn:E3; [apply Z.eqb_eq in E3; lia|].
  cbn [bind]. eexists. split; [reflexivity|]. cbn [page_rows page_total page_number page_pages].
  fold total.
  assert (Hlen : Z.of_nat (length (take (Z.to_nat L)
                                     (drop (Z.to_nat ((page - 1) * L)) ordered)))
                 = Z.max 0 (Z.min L (total - (page - 1) * L))).
  { rewrite length_take, length_drop. unfold total. lia. }
  pose proof (Z.div_mod (total + L - 1) L ltac:(lia)) as Hdm.
  pose proof (Z.mod_pos_bound (total + L - 1) L ltac:(lia)) as Hmod.
  assert (Htot : 0 <= total) by (unfold total; lia).
  set (q := (total + L - 1) / L) in *.
  assert (Hq : (q = 0 /\ total = 0) \/ (1 <= q /\ (q - 1) * L < total <= q * L)) by nia.
  assert (Hpages : 1 <= Z.max 1 q /\
                   (Z.max 1 q - 1) * L < Z.max 1 total <= Z.max 1 q * L).
  { destruct Hq as [[Hq0 Ht0] | [Hq1 Hq2]].
    - rewrite Hq0, Ht0. change (Z.max 1 0) with 1. lia.
    - rewrite (Z.max_r 1 q) by lia. rewrite (Z.max_r 1 total) by nia. lia. }
  split_and!; auto; try lia.
  intros Hlate.
  assert (Hz : length (take (Z.to_nat L) (drop (Z.to_nat ((page - 1) * L)) ordered))
               = 0%nat).
  { assert (total <= (page - 1) * L) by nia. lia. }
  destruct (take _ _); [reflexivity | discriminate].
Qed.

Lemma paged_raises {A : Type} (cap page limit : Z) (ordered : list A) :
  1 <= cap ->
  (limit = 0 -> paged cap page limit ordered = Raise ZeroDivisionError) /\
  (limit < 0 -> exists msg, paged cap page limit ordered = Raise (DataError msg)) /\
  (page < 1 -> 1 <= limit ->
     exists msg, paged cap page limit ordered = Raise (DataError msg)).
Proof.
  intros Hcap. unfold paged, offset_limit, page_count. split_and!.
  - intros ->. rewrite (Z.min_l 0 cap) by lia. rewrite Z.mul_0_r. reflexivity.
  - intros Hneg. rewrite (Z.min_l limit cap) by lia.
    destruct ((page - 1) * limit <? 0); [eauto|].
    destruct (limit <? 0) eqn:E; [eauto|]. apply Z.ltb_ge in E. lia.
  - intros Hpage Hlimit.
    assert (E : ((page - 1) * Z.min limit cap <? 0) = true) by (apply Z.ltb_lt; nia).
    rewrite E. eauto.
Qed.





(** ** The first run of a job *)

Lemma sql_update_checked_nowhere (where_ : Job -> bool) (f : Job -> result Job)
    (rows : list Job) :
  Forall (fun j => where_ j = false) rows -> sql_update_checked where_ f rows = Ok rows.
Proof.
  induction 1 as [|j rows Hj _ IH]; [reflexivity|].
  cbn [sql_update_checked]. rewrite Hj, IH. reflexivity.
Qed.

Lemma sql_update_checked_unique (id : UUID) (f : Job -> result Job)
    (rows : list Job) (j j' : Job) :
  List.NoDup (map job_id rows) ->
  List.find (has_id id) rows = Some j ->
  f j = Ok j' -> job_id j' = job_id j ->
  exists rows',
    sql_update_checked (has_id id) f rows = Ok rows' /\
    List.find (has_id id) rows' = Some j' /\
    map job_id rows' = map job_id rows.
Proof.
  intros Hnd Hfind Hf Hid. induction rows as [|r rows IH]; [discriminate|].
  inversion Hnd as [|? ? Hnotin Hnd']; subst.
  cbn [List.find sql_update_checked map] in *.
  destruct (has_id id r) eqn:E.
  - inversion Hfind; subst r. rewrite Hf. cbn [bind].
    unfold has_id in E. apply N.eqb_eq in E.
    assert (Hrest : sql_update_checked (has_id id) f rows = Ok rows).
    { apply sql_update_checked_nowhere, find_none_nowhere. rewrite <- E. exact Hnotin. }
    rewrite Hrest. cbn [bind]. eexists. split; [reflexivity|].
    cbn [List.find map]. unfold has_id. rewrite Hid, E, N.eqb_refl. auto.
  - cbn [bind]. destruct (IH Hnd' Hfind) as (rows' & Hu & Hf' & Hids).
    rewrite Hu. cbn [bind]. eexists. split; [reflexivity|].
    cbn [List.find map]. rewrite E, Hids. auto.
Qed.

Lemma no_conflict (rows : list EnrichmentResult) (r : EnrichmentResult)
    (id : UUID) (name : string) :
  rows_for id name rows = [] -> er_job_id r = Some id -> input_name r = name ->
  existsb (uq_conflict r) rows = false.
Proof.
  intros Hnone Hid Hname. induction rows as [|r' rows IH]; [reflexivity|].
  cbn [existsb rows_for List.filter] in *. unfold uq_conflict at 1. rewrite Hid, Hname.
  destruct (er_job_id r') as [j'|].
  - rewrite (N.eqb_sym id j'), (String.eqb_sym name (input_name r')).
    destruct (N.eqb j' id && String.eqb (input_name r') name); [discriminate|].
    apply IH, Hnone.
  - apply IH, Hnone.
Qed.

Lemma rows_for_app (id : UUID) (name : string) (rows : list EnrichmentResult)
    (r : EnrichmentResult) :
  input_name r <> name -> rows_for id name (rows ++ [r]) = rows_for id name rows.
Proof.
  intros Hne. unfold rows_for. rewrite List.filter_app. cbn [List.filter].
  destruct (er_job_id r) as [j|]; [|apply app_nil_r].
  assert (E : String.eqb (input_name r) name = false) by (apply String.eqb_neq, Hne).
  rewrite E, andb_false_r. apply app_nil_r.
Qed.

(** A pass of the loop for a name of which the job has no row yet. *)
Lemma process_item_fresh (cfg : Settings) (w : world) (now : Z) (db : DB)
    (id org : UUID) (sites : gmap string string) (i : nat) (company : string)
    (job : Job) :
  List.NoDup (map job_id (jobs db)) ->
  get_job db id = Some job ->
  total_items job <> 0 ->
  rows_for id company (enrichment_results db) = [] ->
  exists db' row j',
    process_item cfg w now db id org sites i company = (db', None) /\
    enrichment_results db' = enrichment_results db ++ [row] /\
    er_job_id row = Some id /\ input_name row = company /\
    map job_id (jobs db') = map job_id (jobs db) /\
    get_job db' id = Some j' /\
    total_items j' = total_items job /\ input_data j' = input_data job /\
    status j' = status job /\
    ((completed_items j' = completed_items job + 1 /\
      failed_items j' = failed_items job /\
      length (usage_logs db') = (length (usage_logs db) + 2)%nat) \/
     (completed_items j' = completed_items job /\
      failed_items j' = failed_items job + 1 /\
      usage_logs db' = usage_logs db)).
Proof.
  intros Hnd Hjob Htotal Hnone. unfold process_item.
  pose proof (enrich_company_stores cfg w now i db (Some id) org company
                (py_or (sites !! company) (sites !! pretty i))) as Hag.
  destruct (enrich_company cfg w now i db (Some id) org company _) as [db1 [row|e]].
  - destruct Hag as (Hj & Hr & Hid & Hn & _ & u & Hu & _).
    cbn [jobs insert_usage]. rewrite Hj.
    destruct (set_item_completed job) as [j'|e] eqn:Hset.
    2:{ unfold set_item_completed, pct in Hset.
        apply Z.eqb_neq in Htotal. rewrite Htotal in Hset. discriminate. }
    pose proof Hset as Hok. apply set_item_completed_ok in Hok. destruct Hok as [_ Hj'].
    destruct (sql_update_checked_unique id set_item_completed (jobs db) job j'
                Hnd Hjob Hset ltac:(subst j'; reflexivity)) as (rows' & Hup & Hf & Hids).
    rewrite Hup. eexists _, row, j'. split; [reflexivity|].
    cbn [jobs enrichment_results usage_logs with_jobs insert_usage]. unfold get_job.
    cbn [jobs with_jobs].
    split_and!; auto; try (subst j'; reflexivity).
    left. split_and!; try (subst j'; reflexivity).
    rewrite Hu, !List.length_app. simpl. lia.
  - subst db1.
    destruct (insert_result db (failed_row now id org company e)) as [db2|e'] eqn:Hins.
    2:{ unfold insert_result in Hins.
        rewrite (no_conflict (enrichment_results db) (failed_row now id org company e)
                   id company Hnone eq_refl eq_refl) in Hins. discriminate. }
    apply insert_result_ok in Hins. destruct Hins as (Hj & Hu & Hr & _).
    rewrite Hj.
    destruct (set_item_failed job) as [j'|e'] eqn:Hset.
    2:{ unfold set_item_failed, pct in Hset.
        apply Z.eqb_neq in Htotal. rewrite Htotal in Hset. discriminate. }
    pose proof Hset as Hok. apply set_item_failed_ok in Hok. destruct Hok as [_ Hj'].
    destruct (sql_update_checked_unique id set_item_failed (jobs db) job j'
                Hnd Hjob Hset ltac:(subst j'; reflexivity)) as (rows' & Hup & Hf & Hids).
    rewrite Hup. eexists _, (failed_row now id org company e), j'. split; [reflexivity|].
    cbn [jobs enrichment_results usage_logs with_jobs]. unfold get_job. cbn [jobs with_jobs].
    split_and!; auto; try (subst j'; reflexivity).
    right. split_and!; try (subst j'; reflexivity). exact Hu.
Qed.

Lemma process_items_fresh (cfg : Settings) (w : world) (now : Z)
    (id org : UUID) (sites : gmap string string) (cs : list string) :
  forall (db : DB) (i : nat) (job : Job),
    List.NoDup (map job_id (jobs db)) ->
    get_job db id = Some job ->
    (cs <> [] -> total_items job <> 0) ->
    List.NoDup cs ->
    (forall c, In c cs -> rows_for id c (enrichment_results db) = []) ->
    exists db' rows j',
      process_items cfg w now db id org sites i cs = (db', None) /\
      enrichment_results db' = enrichment_results db ++ rows /\
      map input_name rows = cs /\
      Forall (fun r => er_job_id r = Some id) rows /\
      get_job db' id = Some j' /\
      total_items j' = total_items job /\ input_data j' = input_data job /\
      status j' = status job /\
      completed_items job <= completed_items j' /\
      failed_items job <= failed_items j' /\
      completed_items j' + failed_items j'
        = completed_items job + failed_items job + Z.of_nat (length cs) /\
      Z.of_nat (length (usage_logs db'))
        = Z.of_nat (length (usage_logs db))
          + 2 * (completed_items j' - completed_items job).
Proof.
  induction cs as [|c cs IH]; intros db i job Hnd Hjob Htotal Hcs Hnone.
  - exists db, [], job. cbn [process_items length]. rewrite app_nil_r.
    split_and!; auto; lia.
  - inversion Hcs as [|? ? Hc Hcs']; subst.
    destruct (process_item_fresh cfg w now db id org sites i c job Hnd Hjob
                (Htotal ltac:(discriminate)) (Hnone c ltac:(left; reflexivity)))
      as (db1 & row & j1 & Hstep & Hrows & Hid & Hname & Hids & Hj1 & Ht1 & Hin1 & Hs1 & Hcount).
    cbn [process_items]. rewrite Hstep.
    destruct (IH db1 (S i) j1) as (db' & rows & j' & Hrun & Hrows' & Hnames & Hall & Hj'
                                   & Ht' & Hin' & Hs' & Hc' & Hf' & Hsum & Husage).
    + rewrite Hids. exact Hnd.
    + exact Hj1.
    + intros _. rewrite Ht1. apply Htotal. discriminate.
    + exact Hcs'.
    + intros c' Hc'. rewrite Hrows, rows_for_app.
      * apply Hnone. right. exact Hc'.
      * rewrite Hname. intros ->. contradiction.
    + rewrite Hrun. exists db', (row :: rows), j'. split; [reflexivity|].
      split_and!.
      * rewrite Hrows', Hrows, <- app_assoc. reflexivity.
      * cbn [map]. rewrite Hname, Hnames. reflexivity.
      * constructor; assumption.
      * exact Hj'.
      * congruence.
      * congruence.
      * congruence.
      * destruct Hcount as [(H1 & H2 & H3) | (H1 & H2 & H3)]; lia.
      * destruct Hcount as [(H1 & H2 & H3) | (H1 & H2 & H3)]; lia.
      * cbn [length]. destruct Hcount as [(H1 & H2 & H3) | (H1 & H2 & H3)]; lia.
      * destruct Hcount as [(H1 & H2 & H3) | (H1 & H2 & H3)]; [lia|].
        rewrite H3 in Husage. lia.
Qed.

Lemma sql_update_ids (where_ : Job -> bool) (f : Job -> Job) (rows : list Job) :
  (forall j, job_id (f j) = job_id j) ->
  map job_id (sql_update where_ f rows) = map job_id rows.
Proof.
  intros Hid. unfold sql_update. induction rows as [|r rows IH]; [reflexivity|].
  cbn [map]. rewrite IH. destruct (where_ r); [rewrite Hid|]; reflexivity.
Qed.



(** ** The conversation *)

Lemma answered_turns_app (w : world) (a b : list message) :
  answered_turns w a -> answered_turns w b -> answered_turns w (a ++ b).
Proof.
  induction 1 as [|text calls answers rest Hne Hans _ IH]; [auto|].
  intros Hb. cbn [app]. rewrite <- app_assoc. constructor; auto.
Qed.

Lemma answers_are_tool_messages (w : world) (calls : list ToolCall) (answers : list message) :
  Forall2 (fun tc m => answer w tc = Ok m) calls answers ->
  List.filter is_tool_message answers = answers /\ length answers = length calls.
Proof.
  induction 1 as [|tc m calls answers Hm _ [IH1 IH2]]; [split; reflexivity|].
  unfold answer in Hm.
  destruct (decode_arguments w (tc_arguments tc)); [|discriminate]. cbn [bind] in Hm.
  destruct (execute_tool _ _ _); [|discriminate]. cbn [bind] in Hm.
  inversion Hm; subst m. cbn. rewrite IH1, IH2. split; reflexivity.
Qed.

Lemma run_tool_calls_answers (w : world) (tcs : list ToolCall) :
  forall st st', run_tool_calls w tcs st = Ok st' ->
    exists answers,
      messages st' = messages st ++ answers /\
      Forall2 (fun tc m => answer w tc = Ok m) tcs answers.
Proof.
  induction tcs as [|tc tcs IH]; intros st st'.
  - cbn. intros H. inversion H; subst. exists []. rewrite app_nil_r. split; constructor.
  - cbn [run_tool_calls].
    destruct (decode_arguments w (tc_arguments tc)) as [args|e] eqn:Ed; [|discriminate].
    cbn [bind].
    destruct (execute_tool (net w) (tc_name tc) args) as [res|e] eqn:Ee; [|discriminate].
    cbn [bind]. intros H. apply IH in H. destruct H as (answers & Hm & Hall).
    cbn [messages] in Hm. exists (ToolMessage (tc_id tc) res :: answers). split.
    + rewrite Hm, <- app_assoc. reflexivity.
    + constructor; [|exact Hall]. unfold answer. rewrite Ed. cbn [bind]. rewrite Ee. reflexivity.
Qed.

Lemma count_tool_messages_app (a b : list message) :
  Z.of_nat (length (List.filter is_tool_message (a ++ b)))
  = Z.of_nat (length (List.filter is_tool_message a))
    + Z.of_nat (length (List.filter is_tool_message b)).
Proof. rewrite List.filter_app, List.length_app. lia. Qed.

(** What a pass of the loop keeps: the messages after the first two are
    answered turns, and the count of tool calls is the number of tool
    messages. *)
Lemma agent_loop_answered (w : world) (item : nat) (cap : Z) (fuel : nat)
    (head : list message) :
  forall st st' turns,
    messages st = head ++ turns -> answered_turns w turns ->
    tool_calls_count st = Z.of_nat (length (List.filter is_tool_message turns)) ->
    agent_loop w cap item fuel st = Ok st' ->
    exists turns',
      messages st' = head ++ turns' /\ answered_turns w turns' /\
      tool_calls_count st' = Z.of_nat (length (List.filter is_tool_message turns')).
Proof.
  induction fuel as [|fuel IH]; intros st st' turns Hm Ht Hc.
  - cbn. intros H. inversion H; subst. eauto.
  - cbn [agent_loop]. destruct (iteration st <? cap); [|intros H; inversion H; subst; eauto].
    unfold loop_body.
    destruct (response (_call_groq_with_retry _)) as [resp|].
    2:{ intros H. inversion H; subst. cbn. eauto. }
    destruct (String.eqb (finish_reason resp) "stop").
    { intros H. inversion H; subst. cbn. eauto. }
    destruct (String.eqb (finish_reason resp) "tool_calls"
              && negb (Nat.eqb (length (tool_calls resp)) 0)) eqn:Etc.
    2:{ intros H. inversion H; subst. cbn. eauto. }
    destruct (run_tool_calls w (tool_calls resp) _) as [st1|e] eqn:Erun; [|discriminate].
    cbn [bind]. intros H.
    pose proof (run_tool_calls_answers w _ _ _ Erun) as (answers & Hm1 & Hall).
    pose proof (run_tool_calls_keeps w _ _ _ Erun) as (_ & _ & _ & Hcount).
    cbn [messages tool_calls_count] in Hm1, Hcount.
    apply andb_prop in Etc. destruct Etc as [_ Hne].
    assert (Hcalls : tool_calls resp <> []).
    { intros E. rewrite E in Hne. discriminate. }
    destruct (answers_are_tool_messages w _ _ Hall) as [Hf Hl].
    eapply (IH st1 st' (turns ++ AssistantMessage (or_empty (content resp)) (tool_calls resp)
                              :: answers ++ [])); [| | |exact H].
    + rewrite Hm1, Hm, app_nil_r, <- !app_assoc. reflexivity.
    + apply answered_turns_app; [exact Ht|]. constructor; auto. constructor.
    + rewrite Hcount, Hc, count_tool_messages_app. cbn [List.filter is_tool_message].
      rewrite app_nil_r, Hf, Hl. reflexivity.
Qed.

(** X21: the conversation that the agent sends to the provider is well
    formed.  When the tool loop returns, its messages are the system prompt
    and the request, followed by assistant turns each of which is followed
    by one tool message for each of its tool calls, in the order of the
    calls, carrying the id of the call and the text that [execute_tool]
    returned for it.  The count of tool calls is the number of tool
    messages. *)
Theorem conversation_answers_every_tool_call (cfg : Settings) (w : world) (item : nat)
    (company : string) (hint : option string) (extra : list (string * string))
    (st : agent_state) :
  tool_loop cfg w item company hint extra = Ok st ->
  exists turns,
    messages st = [SystemMessage (SYSTEM_PROMPT cfg);
                   UserMessage (user_content company hint extra)] ++ turns /\
    answered_turns w turns /\
    tool_calls_count st = Z.of_nat (length (List.filter is_tool_message turns)).
Proof.
  unfold tool_loop. intros H.
  eapply (agent_loop_answered w item _ _ _ _ st []); [| | |exact H].
  - rewrite app_nil_r. reflexivity.
  - constructor.
  - reflexivity.
Qed.

Lemma conversation_answers_every_tool_call_witness :
  exists st turns,
    tool_loop default_settings always_tools 0 "Acme" None [] = Ok st /\
    messages st = [SystemMessage (SYSTEM_PROMPT default_settings);
                   UserMessage (user_content "Acme" None [])] ++ turns /\
    answered_turns always_tools turns /\ tool_calls_count st = 15.
Proof.
  destruct (tool_loop default_settings always_tools 0 "Acme" None []) as [st|e] eqn:E;
    [|vm_compute in E; discriminate E].
  destruct (conversation_answers_every_tool_call default_settings always_tools 0
              "Acme" None [] st E) as (turns & Hm & Ht & Hc).
  exists st, turns. split_and!; auto.
  vm_compute in E. inversion E. reflexivity.
Defined.

(** ** The cost of an agent call *)

Lemma retry_cost (create : nat -> call_outcome) :
  (1 <= attempts (_call_groq_with_retry create) <= 3)%nat /\
  0 <= fold_right Z.add 0 (sleeps (_call_groq_with_retry create)) <= 14.
Proof.
  unfold _call_groq_with_retry, max_retries. cbn [attempts_from].
  destruct (create 0%nat), (create 1%nat), (create 2%nat);
    cbv [attempts sleeps slept finished exhausted fold_right base_delay
         Nat.ltb Nat.leb Nat.sub max_retries];
    change (2 ^ Z.of_nat 0) with 1; change (2 ^ Z.of_nat 1) with 2;
    change (2 ^ Z.of_nat 2) with 4; lia.
Qed.

Lemma agent_calls_bound (w : world) (cap : Z) (item : nat) (fuel : nat) :
  forall st,
    let calls := agent_calls w cap item fuel st in
    (length calls <= fuel)%nat /\
    Z.of_nat (length calls) <= Z.max 0 (cap - iteration st) /\
    Z.of_nat (length calls) <= total_attempts calls <= 3 * Z.of_nat (length calls) /\
    0 <= total_sleep calls <= 14 * Z.of_nat (length calls) /\
    (forall st', agent_loop w cap item fuel st = Ok st' ->
       iteration st <= iteration st' <= iteration st + Z.of_nat (length calls)) /\
    (forall st', cap - iteration st <= Z.of_nat fuel ->
       agent_loop w cap item fuel st = Ok st' ->
       iteration st' = iteration st + Z.of_nat (length calls)).
Proof.
  induction fuel as [|fuel IH]; intros st; cbv zeta.
  - cbn. split_and!; try lia.
    + intros st' H. inversion H; subst. lia.
    + intros st' Hf H. inversion H; subst. lia.
  - cbn [agent_calls agent_loop].
    destruct (iteration st <? cap) eqn:E.
    2:{ apply Z.ltb_ge in E. cbn. split_and!; try lia.
        - intros st' H. inversion H; subst. lia.
        - intros st' Hf H. inversion H; subst. lia. }
    apply Z.ltb_lt in E.
    pose proof (retry_cost (chat_create w item (iteration st + 1) (messages st)))
      as [Hatt Hsl].
    destruct (loop_body w item st) as [[st1 [|]]|e] eqn:Eb.
    + pose proof (loop_body_iteration w item st st1 Continue Eb) as Hit.
      specialize (IH st1). cbv zeta in IH.
      destruct IH as (I1 & I2 & I3 & I4 & I5 & I6).
      cbn [length total_attempts total_sleep fold_right] in *.
      fold (total_attempts (agent_calls w cap item fuel st1)).
      fold (total_sleep (agent_calls w cap item fuel st1)).
      split_and!; try lia.
      * intros st' H. specialize (I5 st' H). lia.
      * intros st' Hf H. specialize (I6 st' ltac:(lia) H). lia.
    + pose proof (loop_body_iteration w item st st1 Break Eb) as Hit.
      cbn [length total_attempts total_sleep fold_right].
      split_and!; try lia.
      * intros st' H. inversion H; subst. lia.
      * intros st' Hf H. inversion H; subst. lia.
    + cbn [length total_attempts total_sleep fold_right].
      split_and!; try lia; intros; discriminate.
Qed.

(** X22: the cost of one agent call.  The tool loop calls the retry wrapper
    at most [GROQ_MAX_TOOL_ITERATIONS] times, once in each pass; each call
    makes between one and three attempts at the provider and sleeps at most
    14 seconds, so with the default settings an agent call makes at most 45
    attempts and sleeps at most 210 seconds between them.  When the loop
    returns, its iteration counter is the number of calls made. *)
Theorem provider_cost_bounded (cfg : Settings) (w : world) (item : nat)
    (company : string) (hint : option string) (extra : list (string * string)) :
  let cap := GROQ_MAX_TOOL_ITERATIONS cfg in
  let calls := agent_calls w cap item (Z.to_nat cap)
                 (initial_state cfg company hint extra) in
  Z.of_nat (length calls) <= Z.max 0 cap /\
  Z.of_nat (length calls) <= total_attempts calls <= 3 * Z.max 0 cap /\
  0 <= total_sleep calls <= 14 * Z.max 0 cap /\
  Forall (fun r => (1 <= attempts r <= 3)%nat /\
                   0 <= fold_right Z.add 0 (sleeps r) <= 14) calls /\
  (forall st, tool_loop cfg w item company hint extra = Ok st ->
     iteration st = Z.of_nat (length calls)).
Proof.
  cbv zeta.
  pose proof (agent_calls_bound w (GROQ_MAX_TOOL_ITERATIONS cfg) item
                (Z.to_nat (GROQ_MAX_TOOL_ITERATIONS cfg))
                (initial_state cfg company hint extra)) as H.
  cbv zeta in H. cbn [iteration initial_state] in H.
  destruct H as (H1 & H2 & H3 & H4 & H5 & H6).
  split_and!; try lia.
  - generalize (initial_state cfg company hint extra).
    generalize (Z.to_nat (GROQ_MAX_TOOL_ITERATIONS cfg)).
    intros fuel. induction fuel as [|fuel IH]; intros st; [constructor|].
    cbn [agent_calls]. destruct (iteration st <? _); [|constructor].
    constructor; [apply retry_cost|].
    destruct (loop_body w item st) as [[st1 [|]]|e]; [apply IH | constructor | constructor].
  - intros st Hst. unfold tool_loop in Hst. rewrite (H6 st ltac:(lia) Hst). lia.
Qed.

Example provider_cost_samples :
  let calls w := agent_calls w 15 0 15 (initial_state default_settings "Acme" None []) in
  (length (calls always_tools), total_attempts (calls always_tools),
   total_sleep (calls always_tools)) = (15%nat, 15, 0) /\
  (length (calls (world_of (fun _ _ => RaisesRateLimitError))),
   total_attempts (calls (world_of (fun _ _ => RaisesRateLimitError))),
   total_sleep (calls (world_of (fun _ _ => RaisesRateLimitError)))) = (1%nat, 3, 14).
Proof. vm_compute. split; reflexivity. Qed.

(** ** Usage rows and completed items *)

Lemma forall2_forall (P Q : Job -> Prop) (R : Job -> Job -> Prop) (l l' : list Job) :
  Forall2 R l l' -> Forall P l -> (forall x y, R x y -> P x -> Q y) -> Forall Q l'.
Proof.
  intros HR HP Hstep. induction HR as [|x y l l' Hxy _ IH]; [constructor|].
  inversion HP; subst. constructor; [eapply Hstep; eassumption | apply IH; assumption].
Qed.

Lemma usage_same_counts (db db' : DB) :
  usage_inv db ->
  usage_logs db' = usage_logs db ->
  Forall2 same_counts (jobs db) (jobs db') ->
  usage_inv db'.
Proof.
  intros (H1 & H2 & H3) Hu Hj. unfold usage_inv. rewrite Hu.
  assert (Hids : map job_id (jobs db') = map job_id (jobs db)).
  { apply (forall2_ids same_counts); [|exact Hj]. intros j j' H. apply H. }
  split_and!; auto.
  - intros u id Hin Hid. rewrite Hids. eauto.
  - eapply forall2_forall; [exact Hj | exact H3 |].
    intros j j' (Hid & _ & _ & Hc & _) Hjv. rewrite Hid, Hc. exact Hjv.
Qed.

Lemma job_usage_app (id : UUID) (logs more : list UsageLog) :
  job_usage id (logs ++ more) = job_usage id logs ++ job_usage id more.
Proof. apply List.filter_app. Qed.

Lemma usage_single (db db' : DB) (u : UsageLog) :
  usage_inv db ->
  jobs db' = jobs db ->
  usage_logs db' = usage_logs db ++ [u] ->
  ul_job_id u = None -> ul_credits_consumed u = 1 ->
  usage_inv db'.
Proof.
  intros (H1 & H2 & H3) Hj Hu Hnone Hc. unfold usage_inv. rewrite Hj, Hu.
  split_and!.
  - apply List.Forall_app. split; [exact H1 | repeat constructor; exact Hc].
  - intros u' id Hin Hid. apply in_app_or in Hin. destruct Hin as [Hin | [<- | []]]; [eauto|].
    congruence.
  - eapply List.Forall_impl; [|exact H3]. intros j Hjv. cbv beta in *.
    rewrite job_usage_app. unfold job_usage at 2. cbn [List.filter]. rewrite Hnone.
    rewrite app_nil_r. exact Hjv.
Qed.

(** What a pass of the loop stores for a stored job with names. *)
Lemma process_item_cases (cfg : Settings) (w : world) (now : Z) (db : DB)
    (id org : UUID) (sites : gmap string string) (i : nat) (company : string)
    (job : Job) :
  List.NoDup (map job_id (jobs db)) ->
  get_job db id = Some job ->
  total_items job <> 0 ->
  let db' := fst (process_item cfg w now db id org sites i company) in
  db' = db \/
  (exists u,
     rows_of id (fun j j' => set_item_completed j = Ok j') (jobs db) (jobs db') /\
     usage_logs db' = usage_logs db ++ [u; batch_usage cfg id org company] /\
     ul_job_id u = Some id /\ ul_credits_consumed u = 1) \/
  (rows_of id (fun j j' => set_item_failed j = Ok j') (jobs db) (jobs db') /\
   usage_logs db' = usage_logs db).
Proof.
  intros Hnd Hjob Htotal. cbv zeta. unfold process_item.
  pose proof (enrich_company_stores cfg w now i db (Some id) org company
                (py_or (sites !! company) (sites !! pretty i))) as Hag.
  destruct (enrich_company cfg w now i db (Some id) org company _) as [db1 [row|e]].
  - destruct Hag as (Hj & Hr & Hid & Hn & _ & u & Hu & Huj & Huc & _).
    cbn [jobs insert_usage]. rewrite Hj.
    destruct (set_item_completed job) as [j'|e] eqn:Hset.
    2:{ unfold set_item_completed, pct in Hset.
        apply Z.eqb_neq in Htotal. rewrite Htotal in Hset. discriminate. }
    pose proof Hset as Hok. apply set_item_completed_ok in Hok. destruct Hok as [_ Hj'].
    destruct (sql_update_checked_unique id set_item_completed (jobs db) job j'
                Hnd Hjob Hset ltac:(subst j'; reflexivity)) as (rows' & Hup & Hf & Hids).
    rewrite Hup. cbn [fst jobs usage_logs with_jobs insert_usage].
    right. left. exists u. split_and!; auto.
    + eapply sql_update_checked_rows; [|exact Hup]. auto.
    + rewrite Hu, <- app_assoc. reflexivity.
  - subst db1.
    destruct (insert_result db (failed_row now id org company e)) as [db2|e'] eqn:Hins;
      [|left; reflexivity].
    apply insert_result_ok in Hins. destruct Hins as (Hj & Hu & Hr & _).
    rewrite Hj.
    destruct (set_item_failed job) as [j'|e'] eqn:Hset.
    2:{ unfold set_item_failed, pct in Hset.
        apply Z.eqb_neq in Htotal. rewrite Htotal in Hset. discriminate. }
    pose proof Hset as Hok. apply set_item_failed_ok in Hok. destruct Hok as [_ Hj'].
    destruct (sql_update_checked_unique id set_item_failed (jobs db) job j'
                Hnd Hjob Hset ltac:(subst j'; reflexivity)) as (rows' & Hup & Hf & Hids).
    rewrite Hup. cbn [fst jobs usage_logs with_jobs].
    right. right. split; [|exact Hu].
    eapply sql_update_checked_rows; [|exact Hup]. auto.
Qed.

Lemma usage_item (cfg : Settings) (w : world) (now : Z) (db : DB)
    (id org : UUID) (job : Job) (i : nat) (company : string) :
  db_inv db -> usage_inv db ->
  get_job db id = Some job ->
  companies (input_data job) !! i = Some company ->
  usage_inv (fst (process_item cfg w now db id org (websites (input_data job)) i company)).
Proof.
  intros Hinv Hus Hjob Hc.
  destruct Hinv as (Hnd & _ & _ & Hjobs).
  destruct (find_has_id id (jobs db) job Hjob) as [Hin Hid].
  assert (Htotal : total_items job <> 0).
  { rewrite List.Forall_forall in Hjobs. destruct (Hjobs job Hin) as (Ht & _).
    rewrite Ht. apply lookup_In in Hc.
    destruct (companies (input_data job)); [destruct Hc | discriminate]. }
  destruct (process_item_cases cfg w now db id org (websites (input_data job)) i company
              job Hnd Hjob Htotal) as [-> | [(u & Hrows & Hu & Huj & Huc) | (Hrows & Hu)]];
    [exact Hus | |].
  - destruct Hus as (H1 & H2 & H3). unfold usage_inv. rewrite Hu.
    assert (Hids : map job_id
                     (jobs (fst (process_item cfg w now db id org
                                   (websites (input_data job)) i company)))
                   = map job_id (jobs db)).
    { apply (forall2_ids (fun j j' => if has_id id j then set_item_completed j = Ok j'
                                      else j' = j)); [|exact Hrows].
      intros j j' H. destruct (has_id id j); [|subst; reflexivity].
      apply set_item_completed_ok in H. destruct H as [_ ->]. reflexivity. }
    split_and!.
    + apply List.Forall_app. split; [exact H1|]. repeat constructor. exact Huc.
    + intros u' id' Hin' Hid'. rewrite Hids.
      apply in_app_or in Hin'. destruct Hin' as [Hin' | [<- | [<- | []]]]; [eauto | |].
      * assert (id' = id) by congruence. subst id'. rewrite <- Hid.
        apply in_map, Hin.
      * cbn in Hid'. inversion Hid'; subst id'. rewrite <- Hid. apply in_map, Hin.
    + eapply forall2_forall; [exact Hrows | exact H3 |].
      intros j j' Hjj Hjv. cbv beta in *.
      rewrite job_usage_app. unfold job_usage at 2. cbn [List.filter batch_usage ul_job_id].
      rewrite Huj. unfold has_id in Hjj.
      destruct (N.eqb (job_id j) id) eqn:E.
      * apply set_item_completed_ok in Hjj. destruct Hjj as [_ ->].
        cbn [job_id completed_items]. apply N.eqb_eq in E. rewrite E, N.eqb_refl.
        rewrite List.length_app. cbn [length]. rewrite E in Hjv. lia.
      * subst j'. rewrite (N.eqb_sym id (job_id j)), E. rewrite app_nil_r. exact Hjv.
  - destruct Hus as (H1 & H2 & H3). unfold usage_inv. rewrite Hu.
    assert (Hids : map job_id
                     (jobs (fst (process_item cfg w now db id org
                                   (websites (input_data job)) i company)))
                   = map job_id (jobs db)).
    { apply (forall2_ids (fun j j' => if has_id id j then set_item_failed j = Ok j'
                                      else j' = j)); [|exact Hrows].
      intros j j' H. destruct (has_id id j); [|subst; reflexivity].
      apply set_item_failed_ok in H. destruct H as [_ ->]. reflexivity. }
    split_and!; auto.
    + intros u' id' Hin' Hid'. rewrite Hids. eauto.
    + eapply forall2_forall; [exact Hrows | exact H3 |].
      intros j j' Hjj Hjv. cbv beta in *.
      destruct (has_id id j); [|subst j'; exact Hjv].
      apply set_item_failed_ok in Hjj. destruct Hjj as [_ ->].
      cbn [job_id completed_items]. exact Hjv.
Qed.

Lemma statement_usage (cfg : Settings) (db db' : DB) :
  db_inv db -> usage_inv db -> statement cfg db db' -> usage_inv db'.
Proof.
  intros Hinv Hus Hst. destruct Hst.
  - destruct (create_job_row _ _ _ _ _ _ _ _ _ H H0) as (-> & _ & _).
    unfold create_job in H0.
    destruct (req_companies req) eqn:Hreq; [discriminate|].
    destruct (_ >? 500); [discriminate|].
    destruct (_ >=? _); [discriminate|].
    inversion H0; subst db'. clear H0.
    destruct Hus as (H1 & H2 & H3). unfold usage_inv. cbn [jobs usage_logs with_jobs].
    split_and!; auto.
    + intros u id Hin Hid. rewrite map_app. apply in_or_app. left. eauto.
    + apply List.Forall_app. split; [exact H3|]. repeat constructor.
      cbn [job_id completed_items new_job].
      assert (Hnone : job_usage new_id (usage_logs db) = []).
      { unfold job_usage.
        destruct (List.filter _ (usage_logs db)) as [|u rest] eqn:E; [reflexivity|].
        exfalso.
        assert (Hu : In u (List.filter
                             (fun u => match ul_job_id u with
                                       | Some j => N.eqb j new_id
                                       | None => false
                                       end) (usage_logs db)))
          by (rewrite E; left; reflexivity).
        apply List.filter_In in Hu. destruct Hu as [Hin Hm].
        destruct (ul_job_id u) as [j|] eqn:Ej; [|discriminate].
        apply N.eqb_eq in Hm. subst j.
        specialize (H2 u new_id Hin Ej). apply List.in_map_iff in H2.
        destruct H2 as (j & Hj & Hjin).
        destruct Hinv as (Hnd & _).
        pose proof (find_unique (jobs db) j Hnd Hjin) as Hf. rewrite Hj in Hf.
        unfold get_job in H. congruence. }
      rewrite Hnone. reflexivity.
  - apply (usage_same_counts db); [exact Hus | reflexivity |].
    apply sql_update_same_counts. intros j. apply set_running_same.
  - eapply usage_item; eassumption.
  - apply (usage_same_counts db); [exact Hus | reflexivity |].
    apply sql_update_same_counts. intros j. apply set_completed_same.
  - apply (usage_same_counts db); [exact Hus | reflexivity |].
    apply sql_update_same_counts. intros j. apply set_ended_same.
  - apply (usage_same_counts db); [exact Hus | reflexivity |].
    apply sql_update_same_counts. intros j. apply set_ended_same.
  - apply (usage_same_counts db); [exact Hus | reflexivity |].
    apply sql_update_same_counts. intros j. apply set_ended_same.
  - unfold cancel_job in H.
    destruct (get_job db id) as [job|]; [|discriminate].
    destruct (negb (N.eqb (organization_id job) org)); [discriminate|].
    destruct (negb (status_in ["queued"; "running"] job)); [discriminate|].
    inversion H; subst db'.
    apply (usage_same_counts db); [exact Hus | reflexivity |].
    apply sql_update_same_counts. intros j. apply set_cancelled_same.
  - pose proof (enrich_company_stores cfg w now 0 db None org company website) as Hag.
    destruct (enrich_company cfg w now 0 db None org company website) as [db1 [row|e]];
      cbn [fst].
    + destruct Hag as (Hj & _ & _ & _ & _ & u & Hu & Huj & Huc & _).
      eapply usage_single; eassumption.
    + subst db1. exact Hus.
Qed.

Lemma reachable_usage (cfg : Settings) (db : DB) : reachable cfg db -> usage_inv db.
Proof.
  induction 1 as [|db db' Hr IH Hst].
  - unfold usage_inv. cbn. split_and!; [constructor | intros ? ? [] | constructor].
  - eapply statement_usage; [apply (reachable_inv cfg db Hr) | exact IH | exact Hst].
Qed.

Lemma total_credits_ones (logs : list UsageLog) :
  Forall (fun u => ul_credits_consumed u = 1) logs ->
  total_credits logs = Z.of_nat (length logs).
Proof.
  induction 1 as [|u logs Hu _ IH]; [reflexivity|].
  cbn [total_credits fold_right length]. fold (total_credits logs). rewrite Hu, IH. lia.
Qed.


